(** * capgains: lots, gains and wash sales

    A shallow embedding of [capgains/models.py]: the [Lot] and [Gain]
    tables, the event log [OfxLog], the handlers [Lot.trade],
    [Lot.returnOfCapital], [Lot.split], [IBKR.doTransfer],
    [IBKR.doIncome], the driver [Lot.doInvtrans], the wash sale pass
    [Gain.doWashSales] and the CSV dump and load of lots.

    Scope of the model.
    - Numbers are Python [decimal.Decimal] values under the default context
      (28 significant digits, ROUND_HALF_EVEN); the exponent limits of the
      context and the special values (NaN, infinities, negative zero) are
      not modelled.
    - The SQLAlchemy session is a store of tables; a row's primary key is
      its position in the table.  Pending objects are visible to queries
      (autoflush).  A query is evaluated against the store each time the
      source iterates it.  How the database engine stores a [Numeric]
      column, and when it checks the CHECK constraints of the [Lot] table,
      is outside the model.
    - An exception aborts the enclosing [session_scope], which rolls the
      session back: a handler returns either the new store or the error. *)

From Stdlib Require Import ZArith String Ascii List Lia Bool Sorted.
From stdpp Require Import base option list.

Open Scope Z_scope.

(** ** Python's [decimal.Decimal] under the default context *)

Module Decimal.

(** The value [coeff * 10 ^ expo]. *)
Record t : Set := mk { coeff : Z; expo : Z }.

(** [getcontext().prec] *)
Definition prec : Z := 28.

Fixpoint ndigits_aux (fuel : nat) (n : Z) : Z :=
  match fuel with
  | O => 0
  | S f => if n =? 0 then 0 else 1 + ndigits_aux f (n / 10)
  end.

(** [len(self._int)] for a nonzero coefficient. *)
Definition ndigits (n : Z) : Z :=
  ndigits_aux (S (Z.to_nat (Z.log2 (Z.abs n)))) (Z.abs n).

(** Nearest integer to [n / d] for [n >= 0], [d > 0], ties to even. *)
Definition div_half_even (n d : Z) : Z :=
  let q := n / d in
  let r := n mod d in
  if 2 * r >? d then q + 1
  else if 2 * r =? d then (if Z.odd q then q + 1 else q)
  else q.

(** [Decimal._fix]: round to [prec] significant digits. *)
Definition fix_ (d : t) : t :=
  let m := coeff d in
  if m =? 0 then d
  else
    let n := ndigits m in
    if n <=? prec then d
    else
      let k := n - prec in
      let q := div_half_even (Z.abs m) (10 ^ k) in
      if ndigits q >? prec
      then mk (Z.sgn m * (q / 10)) (expo d + k + 1)
      else mk (Z.sgn m * q) (expo d + k).

Definition of_Z (z : Z) : t := mk z 0.
Definition zero : t := mk 0 0.

(** Both coefficients brought to the smaller exponent. *)
Definition align (a b : t) : Z * Z * Z :=
  let e := Z.min (expo a) (expo b) in
  (coeff a * 10 ^ (expo a - e), coeff b * 10 ^ (expo b - e), e).

Definition add (a b : t) : t :=
  let '(x, y, e) := align a b in fix_ (mk (x + y) e).

Definition neg (a : t) : t := fix_ (mk (- coeff a) (expo a)).

Definition sub (a b : t) : t :=
  let '(x, y, e) := align a b in fix_ (mk (x - y) e).

Definition mul (a b : t) : t :=
  fix_ (mk (coeff a * coeff b) (expo a + expo b)).

Definition abs (a : t) : t := fix_ (mk (Z.abs (coeff a)) (expo a)).

Fixpoint strip_zeros (fuel : nat) (c e ideal : Z) : Z * Z :=
  match fuel with
  | O => (c, e)
  | S f =>
      if (e <? ideal) && (c mod 10 =? 0)
      then strip_zeros f (c / 10) (e + 1) ideal
      else (c, e)
  end.

(** [Decimal.__truediv__]; [None] is the trapped DivisionByZero (or
    InvalidOperation for 0/0). *)
Definition div (a b : t) : option t :=
  if coeff b =? 0 then None
  else if coeff a =? 0 then Some (fix_ (mk 0 (expo a - expo b)))
  else
    let sign := Z.sgn (coeff a) * Z.sgn (coeff b) in
    let x := Z.abs (coeff a) in
    let y := Z.abs (coeff b) in
    let shift := ndigits y - ndigits x + prec + 1 in
    let e := expo a - expo b - shift in
    let '(q, r) :=
      if 0 <=? shift
      then ((x * 10 ^ shift) / y, (x * 10 ^ shift) mod y)
      else (x / (y * 10 ^ (- shift)), x mod (y * 10 ^ (- shift))) in
    let '(c, e') :=
      if r =? 0
      then strip_zeros (Z.to_nat (ndigits q)) q e (expo a - expo b)
      else ((if q mod 5 =? 0 then q + 1 else q), e) in
    Some (fix_ (mk (sign * c) e')).

(** Numeric comparison, as [==], [<] and [>=] on Decimals. *)
Definition compare (a b : t) : comparison :=
  let '(x, y, _) := align a b in x ?= y.

Definition eqb (a b : t) : bool :=
  match compare a b with Eq => true | _ => false end.
Definition ltb (a b : t) : bool :=
  match compare a b with Lt => true | _ => false end.
Definition leb (a b : t) : bool :=
  match compare a b with Gt => false | _ => true end.

(** [bool(d)] *)
Definition nonzero (a : t) : bool := negb (coeff a =? 0).
Definition is_zero (a : t) : bool := coeff a =? 0.

(** The builtin [min(a, b)]: the first argument unless the second is
    smaller. *)
Definition min (a b : t) : t := if ltb b a then b else a.

(** [sum(l)]: starts from the integer 0. *)
Definition sum (l : list t) : t := fold_left add l zero.

(** [int(d)]: truncation towards zero. *)
Definition to_int (a : t) : Z :=
  if 0 <=? expo a then coeff a * 10 ^ expo a
  else Z.quot (coeff a) (10 ^ (- expo a)).

End Decimal.

Abbreviation Decimal := Decimal.t.

Declare Scope dec_scope.
Delimit Scope dec_scope with dec.
Infix "+" := Decimal.add : dec_scope.
Infix "-" := Decimal.sub : dec_scope.
Infix "*" := Decimal.mul : dec_scope.
Notation "- x" := (Decimal.neg x) : dec_scope.
Infix "==" := Decimal.eqb (at level 70, no associativity) : dec_scope.
Infix "<?" := Decimal.ltb : dec_scope.
Infix "<=?" := Decimal.leb : dec_scope.

(** [Decimal('c.ff')] with [n] digits after the point. *)
Definition dec (c : Z) (n : Z) : Decimal := Decimal.mk c (- n).

(** ** Binary floating point: [float(d)], [math.copysign], [Decimal(f)] *)

Module Float.

(** A finite nonnegative binary64 magnitude [mant * 2 ^ bexp] with a
    sign; [Inf] is the overflow of a conversion. *)
Inductive t : Set :=
| Finite (negative : bool) (mant bexp : Z)
| Inf (negative : bool).

(** Floor of the binary logarithm of [p / q], for positive [p], [q]. *)
Definition ilog2_ratio (p q : Z) : Z :=
  let l := Z.log2 p - Z.log2 q in
  let above := if 0 <=? l then q * 2 ^ l <=? p else q <=? p * 2 ^ (- l) in
  if above then l else l - 1.

(** Correctly rounded (nearest, ties to even) binary64 magnitude of
    [p / q]: 53 bits of significand, gradual underflow below [2^-1022]. *)
Definition round_ratio (negative : bool) (p q : Z) : t :=
  let e := Z.max (ilog2_ratio p q - 52) (-1074) in
  let m :=
    if 0 <=? e then Decimal.div_half_even p (q * 2 ^ e)
    else Decimal.div_half_even (p * 2 ^ (- e)) q in
  if (971 <? e) || ((e =? 971) && (m =? 2 ^ 53)) then Inf negative
  else Finite negative m e.

(** [Decimal.__float__] *)
Definition of_decimal (d : Decimal) : t :=
  let c := Decimal.coeff d in
  let negative := c <? 0 in
  if c =? 0 then Finite false 0 0
  else if 0 <=? Decimal.expo d
       then round_ratio negative (Z.abs c * 10 ^ Decimal.expo d) 1
       else round_ratio negative (Z.abs c) (10 ^ (- Decimal.expo d)).

Definition is_negative (f : t) : bool :=
  match f with Finite s _ _ => s | Inf s => s end.

(** [math.copysign(x, y)] *)
Definition copysign (x y : t) : t :=
  match x with
  | Finite _ m e => Finite (is_negative y) m e
  | Inf _ => Inf (is_negative y)
  end.

Fixpoint reduce (fuel : nat) (m e : Z) : Z * Z :=
  match fuel with
  | O => (m, e)
  | S f => if (e <? 0) && Z.even m && negb (m =? 0)
           then reduce f (m / 2) (e + 1) else (m, e)
  end.

(** [Decimal(f)] = [Decimal.from_float(f)]: the exact value of the
    float, from its reduced integer ratio [n / 2^k] as [n * 5^k] with
    exponent [-k].  [None] for an infinity, which this model of Decimal
    does not have. *)
Definition to_decimal (f : t) : option Decimal :=
  match f with
  | Inf _ => None
  | Finite s m e =>
      let '(n, e') := reduce 1100 m e in
      let sg := if s then -1 else 1 in
      Some (if 0 <=? e' then Decimal.mk (sg * (n * 2 ^ e')) 0
            else Decimal.mk (sg * (n * 5 ^ (- e'))) e')
  end.

End Float.

(** ** [datetime.datetime] and [timedelta] *)

Record datetime : Set := mkdatetime {
  year : Z; month : Z; day : Z;
  hour : Z; minute : Z; second : Z; microsecond : Z }.

(** [datetime(y, m, d)] *)
Definition date (y m d : Z) : datetime := mkdatetime y m d 0 0 0 0.

Definition is_leap (y : Z) : bool :=
  (y mod 4 =? 0) && (negb (y mod 100 =? 0) || (y mod 400 =? 0)).

Definition days_before_year (y : Z) : Z :=
  let y1 := y - 1 in y1 * 365 + y1 / 4 - y1 / 100 + y1 / 400.

Definition days_before_month (y m : Z) : Z :=
  nth (Z.to_nat m) [0; 0; 31; 59; 90; 120; 151; 181; 212; 243; 273; 304; 334] 0
  + (if (2 <? m) && is_leap y then 1 else 0).

(** [date.toordinal()] *)
Definition toordinal (t : datetime) : Z :=
  days_before_year (year t) + days_before_month (year t) (month t) + day t.

Definition us_per_day : Z := 86400 * 1000000.

(** Microseconds since the start of day 0 of the proleptic calendar; the
    order of datetimes, and their differences, are those of this number. *)
Definition to_us (t : datetime) : Z :=
  toordinal t * us_per_day
  + ((hour t * 60 + minute t) * 60 + second t) * 1000000 + microsecond t.

(** [datetime.min], [datetime.max] *)
Definition datetime_min : datetime := mkdatetime 1 1 1 0 0 0 0.
Definition datetime_max : datetime := mkdatetime 9999 12 31 23 59 59 999999.

(** [timedelta(days=n)], in microseconds *)
Definition timedelta_days (n : Z) : Z := n * us_per_day.

(** [(a - b).days]: a timedelta is normalised with its seconds and
    microseconds nonnegative, so [days] is the floor. *)
Definition days_between (a b : datetime) : Z := (to_us a - to_us b) / us_per_day.

Definition dt_eqb (a b : datetime) : bool := to_us a =? to_us b.
Definition dt_leb (a b : datetime) : bool := to_us a <=? to_us b.
Definition dt_ltb (a b : datetime) : bool := to_us a <? to_us b.

(** ** Exceptions *)

Inductive exn : Set :=
| AssertionError
| ValueError
| AttributeError
| DivisionByZero        (* decimal.DivisionByZero, decimal.InvalidOperation *)
| MultipleResultsFound
| FloatInfinity.        (* a conversion to float overflowed; not followed further *)

Inductive result (A : Type) : Type :=
| Ok (a : A)
| Raise (e : exn).
Arguments Ok {A} a.
Arguments Raise {A} e.

(** Sequencing: an exception propagates.  With these instances stdpp's
    [x ← r; k] reads as the statements of the source. *)
#[global] Instance result_bind : MBind result := fun A B k r =>
  match r with
  | Ok a => k a
  | Raise e => Raise e
  end.

#[global] Instance result_ret : MRet result := fun A a => Ok a.

(** The value of an expression that raises [e] when it has none. *)
Definition orRaise {A : Type} (e : exn) (o : option A) : result A :=
  match o with
  | Some a => Ok a
  | None => Raise e
  end.

(** ** The OFX rows the ledger reads *)

Module INVACCTFROM.
Record t : Set := mk { id : nat; brokerid : string; acctid : string }.
End INVACCTFROM.

Module SECINFO.
Record t : Set := mk {
  id : nat; uniqueidtype : string; uniqueid : string;
  ticker : string; secname : string }.
End SECINFO.

Module INVTRAN.

(** The subclass of the row and the columns it adds. *)
Inductive data : Set :=
| INVBUYSELL (units total : Decimal)
| RETOFCAP (total : Decimal)
| SPLIT (oldunits newunits numerator denominator : Decimal)
| TRANSFER (units : Decimal)
| INCOME (total : Decimal)
| INVEXPENSE (total : Decimal)
| OTHER.

Record t : Set := mk {
  id : nat;
  acctfrom : INVACCTFROM.t;
  secinfo : SECINFO.t;
  dttrade : datetime;
  memo : string;
  sub : data }.

(** [invtran.units]; [None] is the AttributeError of a subclass that
    has no such column. *)
Definition units (i : t) : option Decimal :=
  match sub i with
  | INVBUYSELL u _ | TRANSFER u => Some u
  | _ => None
  end.

(** [invtran.total] *)
Definition total (i : t) : option Decimal :=
  match sub i with
  | INVBUYSELL _ x | RETOFCAP x | INCOME x | INVEXPENSE x => Some x
  | _ => None
  end.

(** Identity of two rows. *)
Definition same (a b : t) : bool := Nat.eqb (id a) (id b).

End INVTRAN.

(** ** The tables of this module: [Lot], [Gain], [OfxLog] *)

Record Lot : Set := mkLot {
  account : INVACCTFROM.t;
  security : SECINFO.t;
  units : Decimal;
  cost : Decimal;
  washcost : Decimal;
  dtopen : datetime;
  dtclose : option datetime;
  dtstart : datetime;
  dtend : option datetime;
  opener : option INVTRAN.t;
  closer : option INVTRAN.t;
  starter : option INVTRAN.t;
  ender : option INVTRAN.t;
  predecessor : option nat }.

(** [Lot(...)] with the columns a caller may leave out at their defaults. *)
Definition newLot (a : INVACCTFROM.t) (sec : SECINFO.t) (u c : Decimal)
    (o : datetime) (op : option INVTRAN.t)
    (st : datetime) (stp : option INVTRAN.t) : Lot :=
  {| account := a; security := sec; units := u; cost := c;
     washcost := Decimal.zero;
     dtopen := o; dtclose := None; dtstart := st; dtend := None;
     opener := op; closer := None; starter := stp; ender := None;
     predecessor := None |}.

Definition set_units (u : Decimal) (l : Lot) : Lot :=
  {| account := account l; security := security l; units := u; cost := cost l;
     washcost := washcost l; dtopen := dtopen l; dtclose := dtclose l;
     dtstart := dtstart l; dtend := dtend l; opener := opener l;
     closer := closer l; starter := starter l; ender := ender l;
     predecessor := predecessor l |}.

Definition set_cost (c : Decimal) (l : Lot) : Lot :=
  {| account := account l; security := security l; units := units l; cost := c;
     washcost := washcost l; dtopen := dtopen l; dtclose := dtclose l;
     dtstart := dtstart l; dtend := dtend l; opener := opener l;
     closer := closer l; starter := starter l; ender := ender l;
     predecessor := predecessor l |}.

Definition set_washcost (w : Decimal) (l : Lot) : Lot :=
  {| account := account l; security := security l; units := units l;
     cost := cost l;
     washcost := w; dtopen := dtopen l; dtclose := dtclose l;
     dtstart := dtstart l; dtend := dtend l; opener := opener l;
     closer := closer l; starter := starter l; ender := ender l;
     predecessor := predecessor l |}.

(** [lot.dtclose = d; lot.closer = t] *)
Definition set_close (d : option datetime) (t : option INVTRAN.t) (l : Lot) : Lot :=
  {| account := account l; security := security l; units := units l;
     cost := cost l;
     washcost := washcost l; dtopen := dtopen l; dtclose := d;
     dtstart := dtstart l; dtend := dtend l; opener := opener l;
     closer := t; starter := starter l; ender := ender l;
     predecessor := predecessor l |}.

(** [lot.dtend = d; lot.ender = t] *)
Definition set_end (d : option datetime) (t : option INVTRAN.t) (l : Lot) : Lot :=
  {| account := account l; security := security l; units := units l;
     cost := cost l;
     washcost := washcost l; dtopen := dtopen l; dtclose := dtclose l;
     dtstart := dtstart l; dtend := d; opener := opener l;
     closer := closer l; starter := starter l; ender := t;
     predecessor := predecessor l |}.

Definition set_predecessor (p : option nat) (l : Lot) : Lot :=
  {| account := account l; security := security l; units := units l;
     cost := cost l;
     washcost := washcost l; dtopen := dtopen l; dtclose := dtclose l;
     dtstart := dtstart l; dtend := dtend l; opener := opener l;
     closer := closer l; starter := starter l; ender := ender l;
     predecessor := p |}.

Record Gain : Set := mkGain {
  lot : nat;                     (* lot_id *)
  transaction : INVTRAN.t;
  proceeds : Decimal;
  washloss : Decimal }.

Definition set_proceeds (p : Decimal) (g : Gain) : Gain :=
  {| lot := lot g; transaction := transaction g; proceeds := p;
     washloss := washloss g |}.

Definition set_washloss (w : Decimal) (g : Gain) : Gain :=
  {| lot := lot g; transaction := transaction g; proceeds := proceeds g;
     washloss := w |}.

(** The session: the rows of each table, in primary key order.  [ofxlog]
    holds the [invtran_id] column of [OfxLog], which is declared unique. *)
Record Session : Set := mkSession {
  lots : list Lot;
  gains : list Gain;
  ofxlog : list nat;
  invtrans : list INVTRAN.t;
  accounts : list INVACCTFROM.t;
  secinfos : list SECINFO.t }.

Definition set_lots (ls : list Lot) (s : Session) : Session :=
  {| lots := ls; gains := gains s; ofxlog := ofxlog s;
     invtrans := invtrans s; accounts := accounts s; secinfos := secinfos s |}.

Definition set_gains (gs : list Gain) (s : Session) : Session :=
  {| lots := lots s; gains := gs; ofxlog := ofxlog s;
     invtrans := invtrans s; accounts := accounts s; secinfos := secinfos s |}.

Definition set_ofxlog (lg : list nat) (s : Session) : Session :=
  {| lots := lots s; gains := gains s; ofxlog := lg;
     invtrans := invtrans s; accounts := accounts s; secinfos := secinfos s |}.

(** [DBSession.add(lot)] of a new row; its key is returned. *)
Definition add_lot (l : Lot) (s : Session) : nat * Session :=
  (length (lots s), set_lots (lots s ++ [l]) s).

Definition add_gain (g : Gain) (s : Session) : Session :=
  set_gains (gains s ++ [g]) s.

(** An attribute assignment on the lot of key [i]. *)
Definition update_lot (i : nat) (f : Lot -> Lot) (s : Session) : Session :=
  set_lots (alter f i (lots s)) s.

Definition update_gain (i : nat) (f : Gain -> Gain) (s : Session) : Session :=
  set_gains (alter f i (gains s)) s.

(** ** Queries *)

(** Keys of the lots that satisfy a filter on the key and the columns of
    a row, in key order. *)
Definition select (p : nat -> Lot -> bool) (s : Session) : list nat :=
  List.filter (fun i => match lots s !! i with
                        | Some l => p i l
                        | None => false
                        end)
              (seq 0 (length (lots s))).

(** [ORDER BY key, id] of keys already in [id] order: a stable insertion
    sort (a key goes in front of the later keys that compare equal). *)
Fixpoint insert_by (key : nat -> Z) (i : nat) (l : list nat) : list nat :=
  match l with
  | [] => [i]
  | j :: r => if key i <=? key j then i :: j :: r
              else j :: insert_by key i r
  end.

Definition order_by (key : nat -> Z) (l : list nat) : list nat :=
  fold_right (fun i acc => insert_by key i acc) [] l.

Definition lot_dtopen_key (s : Session) (i : nat) : Z :=
  match lots s !! i with
  | Some l => to_us (dtopen l)
  | None => 0
  end.

Definition same_account (a b : INVACCTFROM.t) : bool :=
  Nat.eqb (INVACCTFROM.id a) (INVACCTFROM.id b).

Definition same_security (a b : SECINFO.t) : bool :=
  Nat.eqb (SECINFO.id a) (SECINFO.id b).

(** A [Query] over [Lot]: the conjunction of its filters.  Each query of
    this module is ordered by [dtopen] (then by key). *)
Definition Query : Set := nat -> Lot -> bool.

(** Iterating a query, or [.all()]: its rows at this moment, in order. *)
Definition fetch (s : Session) (q : Query) : list nat :=
  order_by (lot_dtopen_key s) (select q s).

(** [Lot.asOf]:
    [dtstart <= dtasof and (dtend is None or dtend > dtasof)], then the
    account and the security when they are given. *)
Definition asOf (dtasof : datetime) (acct : option INVACCTFROM.t)
    (sec : option SECINFO.t) : Query := fun _ l =>
  dt_leb (dtstart l) dtasof
  && match dtend l with
     | None => true
     | Some e => dt_ltb dtasof e
     end
  && match acct with
     | None => true
     | Some a => same_account (account l) a
     end
  && match sec with
     | None => true
     | Some x => same_security (security l) x
     end.

(** [Lot.longsAsOf]: [asOf(...).filter(cls.units > 0)] *)
Definition longsAsOf (dtasof : datetime) (acct : option INVACCTFROM.t)
    (sec : option SECINFO.t) : Query := fun i l =>
  asOf dtasof acct sec i l && Decimal.ltb Decimal.zero (units l).

(** [Lot.unitCost] *)
Definition unitCost (l : Lot) : result Decimal :=
  orRaise DivisionByZero (Decimal.div (cost l) (units l)).

(** The units of the lots of a query result. *)
Definition units_of (s : Session) (ids : list nat) : list Decimal :=
  omap (fun i => units <$> lots s !! i) ids.

(** ** [OfxLog.get_or_create] *)

Definition logged (s : Session) (inv : INVTRAN.t) : bool :=
  existsb (Nat.eqb (INVTRAN.id inv)) (ofxlog s).

(** Returns [created] and the session; the row itself is not used by any
    caller. *)
Definition get_or_create (s : Session) (inv : INVTRAN.t) : bool * Session :=
  if logged s inv then (false, s)
  else (true, set_ofxlog (ofxlog s ++ [INVTRAN.id inv]) s).

(** ** [Lot.trade] *)

(** [lot.units * invtran.units < 0] *)
Definition opposite (u : Decimal) (l : Lot) : bool :=
  Decimal.ltb (Decimal.mul (units l) u) Decimal.zero.

(** One pass of the body of [for lot in openLots], for the lot of key [i]
    with [units] of the trade left to match. *)
Definition trade_step (inv : INVTRAN.t) (tunits total : Decimal)
    (i : nat) (l : Lot) (s : Session) (u : Decimal)
    : result (Session * Decimal) :=
  '(s1, u1) ←
    (if Decimal.leb (Decimal.abs (units l)) (Decimal.abs u)
     then
       (* More incoming units than lot units: close the whole lot *)
       Ok (s, Decimal.add u (units l))
     else
       (* Split the lot: close the incoming units, leave the rest open *)
       let unitsOpen := Decimal.add u (units l) in
       uc ← unitCost l;
       let costOpen := Decimal.mul unitsOpen uc in
       let s' := update_lot i (fun x =>
                   set_cost (Decimal.sub (cost x) costOpen)
                            (set_units (Decimal.neg u) x)) s in
       let openLot := newLot (account l) (security l) unitsOpen costOpen
                             (dtopen l) (opener l) (dtstart l) (starter l) in
       Ok (snd (add_lot openLot s'), Decimal.zero));
  let s2 := update_lot i (fun x =>
              set_end (Some (INVTRAN.dttrade inv)) (Some inv)
                (set_close (Some (INVTRAN.dttrade inv)) (Some inv) x)) s1 in
  l2 ← orRaise AttributeError (lots s2 !! i);
  q ← orRaise DivisionByZero (Decimal.div (units l2) tunits);
  let proceeds := Decimal.mul q (Decimal.neg total) in
  Ok (add_gain (mkGain i inv proceeds Decimal.zero) s2, u1).

Fixpoint trade_loop (inv : INVTRAN.t) (tunits total : Decimal)
    (openLots : list nat) (s : Session) (u : Decimal)
    : result (Session * Decimal) :=
  match openLots with
  | [] => Ok (s, u)
  | i :: rest =>
      if Decimal.is_zero u then Ok (s, u)            (* break *)
      else
        l ← orRaise AttributeError (lots s !! i);
        '(s', u') ← trade_step inv tunits total i l s u;
        trade_loop inv tunits total rest s' u'
  end.

Definition trade (s : Session) (inv : INVTRAN.t) : result Session :=
  match INVTRAN.sub inv with
  | INVTRAN.INVBUYSELL tunits total =>
      (* First check if we've already processed this transaction *)
      let '(created, s1) := get_or_create s inv in
      if negb created then Ok s1
      else
        let openLots : Query := fun i l =>
          asOf (INVTRAN.dttrade inv)
               (Some (INVTRAN.acctfrom inv)) (Some (INVTRAN.secinfo inv)) i l
          && opposite tunits l in
        '(s2, u) ← trade_loop inv tunits total (fetch s1 openLots) s1 tunits;
        (* If any more incoming units remain, open a new Lot with them *)
        if Decimal.nonzero u
        then Ok (snd (add_lot
                   (newLot (INVTRAN.acctfrom inv) (INVTRAN.secinfo inv)
                           u (Decimal.neg total)
                           (INVTRAN.dttrade inv) (Some inv)
                           (INVTRAN.dttrade inv) (Some inv)) s2))
        else Ok s2
  | _ => Raise ValueError
  end.

(** ** [Lot.returnOfCapital] *)

(** The body of [for lot in lots] in [returnOfCapital]. *)
Definition returnOfCapital_step (inv : INVTRAN.t) (unitRetofcap : Decimal)
    (i : nat) (l : Lot) (s : Session) : Session :=
  let dtasof := INVTRAN.dttrade inv in
  let costAdj := Decimal.mul (units l) unitRetofcap in
  let adjCost := Decimal.sub (cost l) costAdj in
  let s1 := update_lot i (set_end (Some dtasof) (Some inv)) s in
  let new :=
    set_predecessor (Some i)
      (set_washcost (washcost l)
         (newLot (account l) (security l) (units l) adjCost
                 (dtopen l) (opener l) dtasof (Some inv))) in
  let '(k, s2) := add_lot new s1 in
  if Decimal.ltb adjCost Decimal.zero
  then
    add_gain (mkGain k inv (Decimal.neg adjCost) Decimal.zero)
             (update_lot k (set_cost Decimal.zero) s2)
  else s2.

Fixpoint returnOfCapital_loop (inv : INVTRAN.t) (unitRetofcap : Decimal)
    (ids : list nat) (s : Session) : result Session :=
  match ids with
  | [] => Ok s
  | i :: rest =>
      l ← orRaise AttributeError (lots s !! i);
      returnOfCapital_loop inv unitRetofcap rest
        (returnOfCapital_step inv unitRetofcap i l s)
  end.

Definition returnOfCapital (s : Session) (inv : INVTRAN.t) (checklog : bool)
    : result Session :=
  (* First check if we've already processed this transaction *)
  let '(created, s1) := get_or_create s inv in
  if checklog && negb created then Ok s1
  else
    let dtasof := INVTRAN.dttrade inv in
    let lots := longsAsOf dtasof None (Some (INVTRAN.secinfo inv)) in
    let totalUnits := Decimal.sum (units_of s1 (fetch s1 lots)) in
    if Decimal.is_zero totalUnits then Raise AssertionError
    else
      total ← orRaise AttributeError (INVTRAN.total inv);
      unitRetofcap ← orRaise DivisionByZero (Decimal.div total totalUnits);
      returnOfCapital_loop inv unitRetofcap (fetch s1 lots) s1.

(** ** [Lot.split] *)

(** The body of [for lot in lots] in [split]; [newUnits] is the running
    sum. *)
Definition split_step (inv : INVTRAN.t) (ratio : Decimal)
    (i : nat) (l : Lot) (s : Session) (newUnits : Decimal)
    : Session * Decimal :=
  let dtasof := INVTRAN.dttrade inv in
  let s1 := update_lot i (set_end (Some dtasof) (Some inv)) s in
  let new :=
    set_predecessor (Some i)
      (set_washcost (washcost l)
         (newLot (account l) (security l) (Decimal.mul (units l) ratio)
                 (cost l) (dtopen l) (opener l) dtasof (Some inv))) in
  (snd (add_lot new s1), Decimal.add newUnits (units new)).

Fixpoint split_loop (inv : INVTRAN.t) (ratio : Decimal)
    (ids : list nat) (s : Session) (newUnits : Decimal)
    : result (Session * Decimal) :=
  match ids with
  | [] => Ok (s, newUnits)
  | i :: rest =>
      l ← orRaise AttributeError (lots s !! i);
      let '(s', n') := split_step inv ratio i l s newUnits in
      split_loop inv ratio rest s' n'
  end.

(** [Decimal('0.00000001')] *)
Definition tolerance : Decimal := Decimal.mk 1 (-8).

Definition split (s : Session) (inv : INVTRAN.t) : result Session :=
  match INVTRAN.sub inv with
  | INVTRAN.SPLIT oldunits newunits numerator denominator =>
      (* Check if we've already processed this transaction *)
      let '(created, s1) := get_or_create s inv in
      if negb created then Ok s1
      else
        ratio ← orRaise DivisionByZero (Decimal.div newunits oldunits);
        (* Sanity check the SPLIT *)
        frac ← orRaise DivisionByZero (Decimal.div numerator denominator);
        if negb (Decimal.eqb ratio frac) then Raise ValueError
        else
          let dtasof := INVTRAN.dttrade inv in
          let lots := asOf dtasof None (Some (INVTRAN.secinfo inv)) in
          '(s2, newUnits) ← split_loop inv ratio (fetch s1 lots) s1 Decimal.zero;
          if Decimal.ltb (Decimal.abs (Decimal.sub newUnits newunits)) tolerance
          then Ok s2
          else Raise AssertionError
  | _ => Raise AttributeError
  end.

(** ** [Gain] *)

(** [gain.units], [gain.cost], [gain.washcost]: those of its lot. *)
Definition gain_lot (s : Session) (g : Gain) : result Lot :=
  orRaise AttributeError (lots s !! lot g).

(** [Gain.value] *)
Definition value (s : Session) (g : Gain) : result Decimal :=
  l ← gain_lot s g; Ok (Decimal.sub (proceeds g) (cost l)).

(** [Gain.taxcost] *)
Definition taxcost (s : Session) (g : Gain) : result Decimal :=
  l ← gain_lot s g; Ok (Decimal.add (cost l) (washcost l)).

(** [Gain.taxvalue] *)
Definition taxvalue (s : Session) (g : Gain) : result Decimal :=
  t ← taxcost s g; Ok (Decimal.sub (proceeds g) t).

(** [Gain.isLongTerm]: short sales always generate short term gains;
    [gain.dtclose] is the date of the gain's transaction. *)
Definition isLongTerm (s : Session) (g : Gain) : result bool :=
  l ← gain_lot s g;
  if Decimal.ltb (units l) Decimal.zero then Ok false
  else Ok (365 <? days_between (INVTRAN.dttrade (transaction g)) (dtopen l)).

(** ** [Gain.doWashSale] *)

(** [u / -transaction.units * transaction.total] *)
Definition prorate (u : Decimal) (t : INVTRAN.t) : result Decimal :=
  tu ← orRaise AttributeError (INVTRAN.units t);
  q ← orRaise DivisionByZero (Decimal.div u (Decimal.neg tu));
  tt ← orRaise AttributeError (INVTRAN.total t);
  Ok (Decimal.mul q tt).

(** [lot.gains]: the keys of the gains of the lot of key [i]. *)
Definition gains_of (s : Session) (i : nat) : list nat :=
  List.filter (fun k => match gains s !! k with
                        | Some g => Nat.eqb (lot g) i
                        | None => false
                        end)
              (seq 0 (length (gains s))).

(** [abs(a - b) < Decimal('0.00000001')] *)
Definition close_to (a b : Decimal) : bool :=
  Decimal.ltb (Decimal.abs (Decimal.sub a b)) tolerance.

(** The replacement lots of a loss on the lot of key [lotid]: another lot
    of the same account and security, with units of the sign of [selfunits],
    no [washcost] yet, opened within 30 days of [dtc], the day the loss lot
    was closed.  The values compared with are those of the moment the query
    is built. *)
Definition replacementLots (lotid : nat) (acct : INVACCTFROM.t)
    (sec : SECINFO.t) (selfunits : Decimal) (dtc : datetime) : Query :=
  fun i l =>
    negb (Nat.eqb i lotid)
    && same_account (account l) acct
    && same_security (security l) sec
    && Decimal.ltb Decimal.zero (Decimal.mul (units l) selfunits)
    && Decimal.eqb (washcost l) Decimal.zero
    && (to_us dtc - timedelta_days 30 <=? to_us (dtopen l))
    && (to_us (dtopen l) <=? to_us dtc + timedelta_days 30).

(** The lot [l] with other units and cost, and the columns a new [Lot]
    takes from it when it is divided: all but [washcost] and
    [predecessor]. *)
Definition divided (l : Lot) (u c : Decimal) : Lot :=
  set_end (dtend l) (ender l)
    (set_close (dtclose l) (closer l)
       (newLot (account l) (security l) u c
               (dtopen l) (opener l) (dtstart l) (starter l))).

(** [Decimal(math.copysign(min(abs(a), abs(b)), a))] *)
Definition signed_min (a b : Decimal) : result Decimal :=
  orRaise FloatInfinity
    (Float.to_decimal
       (Float.copysign
          (Float.of_decimal (Decimal.min (Decimal.abs a) (Decimal.abs b)))
          (Float.of_decimal a))).

(** [for gain in lot.gains] of the loss lot of key [i], after it was
    divided: [self] is the key of the wash sale gain, [k] the key of the
    new lot of [unwashedUnits]. *)
Fixpoint split_loss_gains (self i k : nat)
    (washedProceeds unwashedUnits : Decimal)
    (gs : list nat) (s : Session) : result Session :=
  match gs with
  | [] => Ok s
  | gk :: rest =>
      g ← orRaise AttributeError (gains s !! gk);
      l ← gain_lot s g;
      p ← prorate (units l) (transaction g);
      if Nat.eqb gk self && negb (close_to p washedProceeds)
      then Raise AssertionError
      else
        let s1 := update_gain gk (set_proceeds p) s in
        pu ← prorate unwashedUnits (transaction g);
        split_loss_gains self i k washedProceeds unwashedUnits rest
          (add_gain (mkGain k (transaction g) pu Decimal.zero) s1)
  end.

(** [for gain in lot.gains] of a replacement lot that was divided; [k] is
    the key of the new lot of the unwashed units. *)
Fixpoint split_replacement_gains (k : nat) (gs : list nat) (s : Session)
    : result Session :=
  match gs with
  | [] => Ok s
  | gk :: rest =>
      g ← orRaise AttributeError (gains s !! gk);
      l ← gain_lot s g;
      p ← prorate (units l) (transaction g);
      let s1 := update_gain gk (set_proceeds p) s in
      ul ← orRaise AttributeError (lots s1 !! k);
      pu ← prorate (units ul) (transaction g);
      split_replacement_gains k rest
        (add_gain (mkGain k (transaction g) pu Decimal.zero) s1)
  end.

(** The state of the loop over the replacement lots. *)
Record rolling : Set := mkRolling {
  session : Session;
  replacementUnits : Decimal;      (* the running counter *)
  disallowedLoss : Decimal }.

(** The body of [for lot in replacementLots]. *)
Definition roll_step (unitLoss : Decimal) (i : nat) (l : Lot) (r : rolling)
    : result rolling :=
  let s := session r in
  let ru := replacementUnits r in
  '(s', washedUnits) ←
    (if Decimal.leb (Decimal.abs (units l)) (Decimal.abs ru)
     then
       (* More Gain units remain than replacement Lot units *)
       let washedUnits := units l in
       Ok (update_lot i
             (set_washcost (Decimal.mul washedUnits (Decimal.neg unitLoss))) s,
           washedUnits)
     else
       (* More replacement Lot units than Gain units *)
       let washedUnits := ru in
       uc ← unitCost l;
       let washedCost := Decimal.mul washedUnits uc in
       let unwashedUnits := Decimal.sub (units l) washedUnits in
       let unwashedCost := Decimal.mul unwashedUnits uc in
       let s1 := update_lot i (fun x =>
                   set_washcost (Decimal.mul washedUnits (Decimal.neg unitLoss))
                     (set_cost washedCost (set_units washedUnits x))) s in
       l1 ← orRaise AttributeError (lots s1 !! i);
       let '(k, s2) := add_lot (divided l1 unwashedUnits unwashedCost) s1 in
       s3 ← split_replacement_gains k (gains_of s2 i) s2;
       Ok (s3, washedUnits));
  l' ← orRaise AttributeError (lots s' !! i);
  Ok (mkRolling s' (Decimal.sub ru washedUnits)
                (Decimal.add (disallowedLoss r) (washcost l'))).

Fixpoint roll_loop (unitLoss : Decimal) (ids : list nat) (r : rolling)
    : result rolling :=
  match ids with
  | [] => Ok r
  | i :: rest =>
      if Decimal.eqb (replacementUnits r) Decimal.zero then Ok r    (* break *)
      else
        l ← orRaise AttributeError (lots (session r) !! i);
        r' ← roll_step unitLoss i l r;
        roll_loop unitLoss rest r'
  end.

(** The two assertions that end [doWashSale]. *)
Definition final_assertions (r : rolling) : bool :=
  Decimal.eqb (replacementUnits r) Decimal.zero
  && Decimal.eqb (disallowedLoss r) Decimal.zero.

(** [doWashSale] from the tally of the replacement units to the end of
    the loop over the replacement lots: the state the final assertions
    are made on. *)
Definition doWashSale_roll (s : Session) (self : nat) (g : Gain) (lot0 : Lot)
    (dtc : datetime) : result (option rolling) :=
  let i := lot g in
  let q := replacementLots i (account lot0) (security lot0) (units lot0) dtc in
  (* First tally the replacement Lots *)
  let total := Decimal.sum (units_of s (fetch s q)) in
  if Decimal.eqb total Decimal.zero then Ok None
  else
    ru ← signed_min total (units lot0);
    let washedUnits := ru in
    let unwashedUnits := Decimal.sub (units lot0) washedUnits in
    uc ← unitCost lot0;
    let washedCost := Decimal.mul washedUnits uc in
    let unwashedCost := Decimal.mul unwashedUnits uc in
    unitProceeds ← orRaise DivisionByZero (Decimal.div (proceeds g) (units lot0));
    let washedProceeds := Decimal.mul washedUnits unitProceeds in
    v ← value s g;
    unitLoss ← orRaise DivisionByZero (Decimal.div v (units lot0));
    let disallowed := Decimal.mul washedUnits unitLoss in
    (* Partition Gain units/cost between wash sale and excess *)
    let s1 := update_lot i (fun x => set_cost washedCost
                                       (set_units washedUnits x)) s in
    let s2 := update_gain self (set_proceeds washedProceeds) s1 in
    g2 ← orRaise AttributeError (gains s2 !! self);
    v2 ← value s2 g2;
    if negb (close_to v2 disallowed) then Raise AssertionError
    else
      let s3 := update_gain self (set_washloss disallowed) s2 in
      s4 ←
        (if Decimal.nonzero unwashedUnits
         then
           l3 ← orRaise AttributeError (lots s3 !! i);
           let '(k, s') := add_lot (divided l3 unwashedUnits unwashedCost) s3 in
           split_loss_gains self i k washedProceeds unwashedUnits
             (gains_of s' i) s'
         else Ok s3);
      r ← roll_loop unitLoss (fetch s4 q) (mkRolling s4 ru disallowed);
      Ok (Some r).

Definition doWashSale (s : Session) (self : nat) : result Session :=
  g ← orRaise AttributeError (gains s !! self);
  lot0 ← gain_lot s g;
  match dtclose lot0 with
  | None => Ok s                     (* Open Lots can't have wash sales *)
  | Some dtc =>
      if Decimal.nonzero (washloss g) then Ok s
      else
        v ← value s g;
        (* Only realized tax losses are considered for wash sales *)
        if Decimal.leb Decimal.zero v then Ok s
        else
          (* This Gain must be on a trade that closed a Lot *)
          if negb (match closer lot0 with
                   | Some c => INVTRAN.same c (transaction g)
                   | None => false
                   end)
          then Ok s
          else
            r ← doWashSale_roll s self g lot0 dtc;
            match r with
            | None => Ok s           (* no replacement units *)
            | Some r =>
                if final_assertions r then Ok (session r)
                else Raise AssertionError
            end
  end.

(** ** [Gain.doWashSales] *)

(** The gains of the query of [doWashSales]: [washloss == 0], on a lot
    with [dtclose != None], [dtopen > dtstart] and [dtopen <= dtend];
    ordered by the [dtopen] of the lot. *)
Definition gains_needing_washsale (s : Session) (dtstart dtend : datetime)
    : list nat :=
  order_by (fun k => match gains s !! k with
                     | Some g => lot_dtopen_key s (lot g)
                     | None => 0
                     end)
    (List.filter
       (fun k => match gains s !! k with
                 | Some g =>
                     Decimal.eqb (washloss g) Decimal.zero
                     && match lots s !! lot g with
                        | Some l =>
                            match dtclose l with
                            | Some _ => true
                            | None => false
                            end
                            && dt_ltb dtstart (dtopen l)
                            && dt_leb (dtopen l) dtend
                        | None => false
                        end
                 | None => false
                 end)
       (seq 0 (length (gains s)))).

Fixpoint doWashSale_each (ks : list nat) (s : Session) : result Session :=
  match ks with
  | [] => Ok s
  | k :: rest => s' ← doWashSale s k; doWashSale_each rest s'
  end.

Definition doWashSales (s : Session) (dtstart dtend : option datetime)
    : result Session :=
  let dtstart := default datetime_min dtstart in
  let dtend := default datetime_max dtend in
  doWashSale_each (gains_needing_washsale s dtstart dtend) s.

(** [ORDER BY dttrade, id] *)
Definition invtran_leb (a b : INVTRAN.t) : bool :=
  (to_us (INVTRAN.dttrade a) <? to_us (INVTRAN.dttrade b))
  || ((to_us (INVTRAN.dttrade a) =? to_us (INVTRAN.dttrade b))
      && Nat.leb (INVTRAN.id a) (INVTRAN.id b)).

Fixpoint insert_invtran (t : INVTRAN.t) (l : list INVTRAN.t) : list INVTRAN.t :=
  match l with
  | [] => [t]
  | u :: r => if invtran_leb t u then t :: u :: r
              else u :: insert_invtran t r
  end.

(** ** [IBKR]: the quirks of broker 4705 *)

(** The text matching that the quirks rely on, which is the work of [re]
    and of the SQL engine: the groups [memo] and [uniqueid] of a match of
    [transferMemoRE], the group [memo] of a match of [retofcapMemoRE],
    ['return of capital' in memo.lower()], and [column LIKE memo || '%']. *)
Class MemoMatching : Type := {
  transferMemoRE : string -> option (string * string);
  retofcapMemoRE : string -> option string;
  mentions_return_of_capital : string -> bool;
  like : string -> string -> bool }.

(** [query.one_or_none()] *)
Definition one_or_none {A : Type} (l : list A) : result (option A) :=
  match l with
  | [] => Ok None
  | [x] => Ok (Some x)
  | _ => Raise MultipleResultsFound
  end.

Definition is_TRANSFER (t : INVTRAN.t) : bool :=
  match INVTRAN.sub t with INVTRAN.TRANSFER _ => true | _ => false end.

Definition is_INVEXPENSE (t : INVTRAN.t) : bool :=
  match INVTRAN.sub t with INVTRAN.INVEXPENSE _ => true | _ => false end.

(** The body of [for lot in lots] in [doTransfer]. *)
Definition doTransfer_step (dttrade : datetime) (transferOut transferIn : INVTRAN.t)
    (newSecurity : SECINFO.t) (ratio : Decimal)
    (i : nat) (l : Lot) (s : Session) : Session :=
  let s1 := update_lot i (set_end (Some dttrade) (Some transferOut)) s in
  let new :=
    set_predecessor (Some i)
      (set_washcost (washcost l)
         (newLot (account l) newSecurity (Decimal.mul (units l) ratio)
                 (cost l) (dtopen l) (opener l) dttrade (Some transferIn))) in
  snd (add_lot new s1).

Fixpoint doTransfer_loop (dttrade : datetime) (transferOut transferIn : INVTRAN.t)
    (newSecurity : SECINFO.t) (ratio : Decimal)
    (ids : list nat) (s : Session) : result Session :=
  match ids with
  | [] => Ok s
  | i :: rest =>
      l ← orRaise AttributeError (lots s !! i);
      doTransfer_loop dttrade transferOut transferIn newSecurity ratio rest
        (doTransfer_step dttrade transferOut transferIn newSecurity ratio i l s)
  end.

Section IBKR.
Context `{MemoMatching}.

Definition doTransfer (s : Session) (inv : INVTRAN.t) : result Session :=
  match INVTRAN.sub inv with
  | INVTRAN.TRANSFER iunits =>
      (* First check if we've already processed this transaction *)
      let '(created, s1) := get_or_create s inv in
      if negb created then Ok s1
      else
        '(memo, uniqueid) ←
          orRaise AssertionError (transferMemoRE (INVTRAN.memo inv));
        if negb (String.eqb uniqueid (SECINFO.uniqueid (INVTRAN.secinfo inv)))
        then Raise AssertionError
        else if String.eqb memo EmptyString then Raise AssertionError
        else
          twin ← one_or_none
            (List.filter
               (fun t => is_TRANSFER t
                         && negb (INVTRAN.same t inv)
                         && same_account (INVTRAN.acctfrom t) (INVTRAN.acctfrom inv)
                         && dt_eqb (INVTRAN.dttrade t) (INVTRAN.dttrade inv)
                         && like (INVTRAN.memo t) memo)
               (invtrans s1));
          match twin with
          | None => Ok s1
          | Some twin =>
              let '(created, s2) := get_or_create s1 twin in
              if negb created then Raise AssertionError
              else
                tunits ← orRaise AttributeError (INVTRAN.units twin);
                (* The TRANSFER pair should have opposite signs *)
                if negb (Decimal.ltb (Decimal.mul iunits tunits) Decimal.zero)
                then Raise AssertionError
                else
                  let dt := INVTRAN.dttrade inv in
                  let acct := Some (INVTRAN.acctfrom inv) in
                  let lots := fetch s2 (asOf dt acct (Some (INVTRAN.secinfo inv))) in
                  let held := Decimal.sum (units_of s2 lots) in
                  if negb (Nat.eqb (length lots) 0)
                     && Decimal.eqb iunits (Decimal.neg held)
                  then
                    ratio ← orRaise DivisionByZero (Decimal.div tunits held);
                    doTransfer_loop dt inv twin (INVTRAN.secinfo twin) ratio lots s2
                  else
                    (* Do we own the looked-up twin TRANSFER? *)
                    let lots := fetch s2 (asOf dt acct (Some (INVTRAN.secinfo twin))) in
                    if Nat.eqb (length lots) 0 then Ok s2
                    else
                      let held := Decimal.sum (units_of s2 lots) in
                      if negb (Decimal.eqb held (Decimal.neg tunits))
                      then Raise AssertionError
                      else
                        ratio ← orRaise DivisionByZero (Decimal.div iunits held);
                        doTransfer_loop dt twin inv (INVTRAN.secinfo inv) ratio lots s2
          end
  | _ => Raise ValueError
  end.

Definition doIncome (s : Session) (inv : INVTRAN.t) : result Session :=
  match INVTRAN.sub inv with
  | INVTRAN.INCOME total =>
      (* First check if we've already processed this transaction *)
      let '(created, s1) := get_or_create s inv in
      if negb created then Ok s1
      else if negb (mentions_return_of_capital (INVTRAN.memo inv)) then Ok s1
      else
        memo ← orRaise AssertionError (retofcapMemoRE (INVTRAN.memo inv));
        (* Has the return of capital been reversed? *)
        let reversal :=
          List.filter
            (fun t => match INVTRAN.sub t with
                      | INVTRAN.INVEXPENSE x =>
                          dt_eqb (INVTRAN.dttrade t) (INVTRAN.dttrade inv)
                          && Decimal.eqb x (Decimal.neg total)
                          && like (INVTRAN.memo t) memo
                      | _ => false
                      end)
            (invtrans s1) in
        (* [.order_by(INVEXPENSE.id).first()]: the rows have one date *)
        match fold_right insert_invtran [] reversal with
        | r :: _ => Ok (snd (get_or_create s1 r))
        | [] =>
            (* Process this INCOME as a RETOFCAP, with the check of the
               log disabled *)
            returnOfCapital s1 inv false
        end
  | _ => Raise ValueError
  end.

(** ** The driver: [Lot.doInvtran], [Lot.doInvtrans], [calc] *)

(** [brokerquirks]: the override of a handler, for broker 4705. *)
Definition brokerquirks (inv : INVTRAN.t)
    : option (Session -> INVTRAN.t -> result Session) :=
  if String.eqb (INVACCTFROM.brokerid (INVTRAN.acctfrom inv)) "4705"
  then match INVTRAN.sub inv with
       | INVTRAN.TRANSFER _ => Some doTransfer
       | INVTRAN.INCOME _ => Some doIncome
       | _ => None
       end
  else None.

Definition doInvtran (s : Session) (inv : INVTRAN.t) : result Session :=
  (* First check for broker quirks *)
  match brokerquirks inv with
  | Some method => method s inv
  | None =>
      match INVTRAN.sub inv with
      | INVTRAN.INVBUYSELL _ _ => trade s inv
      | INVTRAN.RETOFCAP _ => returnOfCapital s inv true
      | INVTRAN.SPLIT _ _ _ _ => split s inv
      | _ => Ok s
      end
  end.

Fixpoint doInvtran_each (l : list INVTRAN.t) (s : Session) : result Session :=
  match l with
  | [] => Ok s
  | inv :: rest => s' ← doInvtran s inv; doInvtran_each rest s'
  end.

End IBKR.

(** The transactions of the window, in the order they are processed. *)
Definition invtrans_in (s : Session) (dtstart dtend : datetime)
    : list INVTRAN.t :=
  fold_right insert_invtran []
    (List.filter (fun t => dt_leb dtstart (INVTRAN.dttrade t)
                           && dt_leb (INVTRAN.dttrade t) dtend)
                 (invtrans s)).

Definition doInvtrans `{MemoMatching} (s : Session)
    (dtstart dtend : option datetime) : result Session :=
  let dtstart := default datetime_min dtstart in
  let dtend := default datetime_max dtend in
  doInvtran_each (invtrans_in s dtstart dtend) s.

(** [calc], inside its [session_scope]. *)
Definition calc `{MemoMatching} (s : Session)
    (dtstart dtend : option datetime) : result Session :=
  s1 ← doInvtrans s dtstart dtend;
  doWashSales s1 dtstart dtend.

(** ** [Lot.dumpCsv] and [Lot.loadCsv] *)

(** A row of the lots file.  The text of a cell is the work of [csv] and of
    [str]; a cell is modelled by the value whose [str()] the writer emits:
    a string as it is, [lot.dtopen] (a datetime), [lot.units] and [lot.cost]
    (Decimals) and [int(lot.washcost)] (an integer). *)
Record row : Set := mkRow {
  row_brokerid : string;
  row_acctid : string;
  row_ticker : string;
  row_secname : string;
  row_uniqueidtype : string;
  row_uniqueid : string;
  row_dtopen : datetime;
  row_units : Decimal;
  row_cost : Decimal;
  row_washcost : Z }.

(** The row written for a lot, when [consolidate] is false. *)
Definition position (l : Lot) : row :=
  {| row_brokerid := INVACCTFROM.brokerid (account l);
     row_acctid := INVACCTFROM.acctid (account l);
     row_ticker := SECINFO.ticker (security l);
     row_secname := SECINFO.secname (security l);
     row_uniqueidtype := SECINFO.uniqueidtype (security l);
     row_uniqueid := SECINFO.uniqueid (security l);
     row_dtopen := dtopen l;
     row_units := units l;
     row_cost := cost l;
     row_washcost := Decimal.to_int (washcost l) |}.

(** [Lot.dumpCsv(DBSession, csvfile, dtasof, consolidate=False)]: the rows
    under the header. *)
Definition dumpCsv (s : Session) (dtasof : option datetime) : list row :=
  let dtasof := default datetime_max dtasof in
  omap (fun i => position <$> lots s !! i) (fetch s (asOf dtasof None None)).

(** [datetime.strptime(str(d), fmt)] over the three formats of [loadCsv]:
    [str(d)] is ['%Y-%m-%d %H:%M:%S'] followed, when [d.microsecond] is not
    zero, by a fraction that none of the formats reads. *)
Definition strptime_str (d : datetime) : result datetime :=
  if microsecond d =? 0 then Ok d else Raise ValueError.

(** [INVACCTFROM.lookupByPk(brokerid, acctid)] *)
Definition lookup_account (s : Session) (b a : string) : option INVACCTFROM.t :=
  List.find (fun x => String.eqb (INVACCTFROM.brokerid x) b
                      && String.eqb (INVACCTFROM.acctid x) a)
            (accounts s).

(** [SECINFO.lookupByPk(uniqueid, uniqueidtype)] *)
Definition lookup_secinfo (s : Session) (u t : string) : option SECINFO.t :=
  List.find (fun x => String.eqb (SECINFO.uniqueid x) u
                      && String.eqb (SECINFO.uniqueidtype x) t)
            (secinfos s).

Definition set_accounts (l : list INVACCTFROM.t) (s : Session) : Session :=
  {| lots := lots s; gains := gains s; ofxlog := ofxlog s;
     invtrans := invtrans s; accounts := l; secinfos := secinfos s |}.

Definition set_secinfos (l : list SECINFO.t) (s : Session) : Session :=
  {| lots := lots s; gains := gains s; ofxlog := ofxlog s;
     invtrans := invtrans s; accounts := accounts s; secinfos := l |}.

(** A key no row of the table has. *)
Definition fresh (ids : list nat) : nat := S (list_max ids).

(** The body of [for row in reader] in [loadCsv]: the key of the lot and
    the session. *)
Definition loadCsv_row (r : row) (s : Session) : result (nat * Session) :=
  (* If a matching account already exists in the DB, use it.
     Otherwise create one. *)
  let '(account, s1) :=
    match lookup_account s (row_brokerid r) (row_acctid r) with
    | Some a => (a, s)
    | None =>
        let a := INVACCTFROM.mk (fresh (map INVACCTFROM.id (accounts s)))
                                (row_brokerid r) (row_acctid r) in
        (a, set_accounts (accounts s ++ [a]) s)
    end in
  (* If a matching SECINFO already exists in the DB, use it.
     Otherwise create an OTHERINFO. *)
  let '(secinfo, s2) :=
    match lookup_secinfo s1 (row_uniqueid r) (row_uniqueidtype r) with
    | Some x => (x, s1)
    | None =>
        let x := SECINFO.mk (fresh (map SECINFO.id (secinfos s1)))
                            (row_uniqueidtype r) (row_uniqueid r)
                            (row_ticker r) (row_secname r) in
        (x, set_secinfos (secinfos s1 ++ [x]) s1)
    end in
  dtopen ← strptime_str (row_dtopen r);
  let lot :=
    set_washcost (Decimal.of_Z (row_washcost r))
      (newLot account secinfo (row_units r) (row_cost r)
              dtopen None dtopen None) in
  Ok (add_lot lot s2).

(** [Lot.loadCsv]: the lots it returns, by key, and the session. *)
Fixpoint loadCsv (rows : list row) (s : Session) : result (list nat * Session) :=
  match rows with
  | [] => Ok ([], s)
  | r :: rest =>
      '(k, s1) ← loadCsv_row r s;
      '(ks, s2) ← loadCsv rest s1;
      Ok (k :: ks, s2)
  end.

(** ** Ledgers of the test suite, and others *)

Definition acctfrom : INVACCTFROM.t := INVACCTFROM.mk 1 "2222" "271828".

Definition ACME : SECINFO.t :=
  SECINFO.mk 1 "CUSIP" "123456789" "ACME" "Acme Development, Inc.".

(** A buy or a sell of ACME in the account, with its [units] and [total]. *)
Definition buysell (id : nat) (d : datetime) (u t : Decimal) : INVTRAN.t :=
  INVTRAN.mk id acctfrom ACME d EmptyString (INVTRAN.INVBUYSELL u t).

(** An empty ledger over the given transactions. *)
Definition ledger (ts : list INVTRAN.t) : Session :=
  mkSession [] [] [] ts [acctfrom] [ACME].

Fixpoint trades (ts : list INVTRAN.t) (s : Session) : result Session :=
  match ts with
  | [] => Ok s
  | t :: rest => s' ← trade s t; trades rest s'
  end.

(** [testTrade]: buy 300, sell 200. *)
Definition testTrade : list INVTRAN.t :=
  [ buysell 1 (date 2005 10 3) (dec 300 0) (dec (-300999) 2);
    buysell 2 (date 2005 12 1) (dec (-200) 0) (dec 239001 2) ].

(** [testWashSale1]: buy 300, buy 300, sell 400. *)
Definition testWashSale1 : list INVTRAN.t :=
  [ buysell 1 (date 2005 10 3) (dec 300 0) (dec (-300999) 2);
    buysell 2 (date 2005 11 1) (dec 300 0) (dec (-150999) 2);
    buysell 3 (date 2005 12 1) (dec (-400) 0) (dec 319001 2) ].

(** Half a unit bought for 50 and sold for 25, a tenth of a unit bought in
    between. *)
Definition fractional : list INVTRAN.t :=
  [ buysell 1 (date 2005 10 3) (dec 5 1) (dec (-50) 0);
    buysell 2 (date 2005 11 20) (dec 1 1) (dec (-5) 0);
    buysell 3 (date 2005 12 1) (dec (-5) 1) (dec 25 0) ].

(** Seven units bought for 8 and sold for 7, three and four units bought in
    between. *)
Definition sevenths : list INVTRAN.t :=
  [ buysell 1 (date 2005 10 3) (dec 7 0) (dec (-8) 0);
    buysell 2 (date 2005 11 10) (dec 3 0) (dec (-3) 0);
    buysell 3 (date 2005 11 20) (dec 4 0) (dec (-4) 0);
    buysell 4 (date 2005 12 1) (dec (-7) 0) (dec 7 0) ].

(** [Decimal(float(Decimal('0.1')))] *)
Definition tenth_as_float : Decimal :=
  Decimal.mk 1000000000000000055511151231257827021181583404541015625 (-55).

(** The session a computation returned, or the given one. *)
Definition returned_or {A : Type} (d : A) (r : result A) : A :=
  match r with
  | Ok a => a
  | Raise _ => d
  end.

(** ** Successor lots *)

(** What a loop that supersedes the lots of keys [ids] makes of the table
    [L]: each of these lots is ended by [E], the [n]-th one gets its
    successor [succ i l] as the [n]-th new row, and no other row changes. *)
Definition successors (E : Lot -> Lot) (succ : nat -> Lot -> Lot)
    (ids : list nat) (L L' : list Lot) : Prop :=
  length L' = (length L + length ids)%nat
  /\ (forall j, j ∉ ids -> (j < length L)%nat -> L' !! j = L !! j)
  /\ (forall n i l, ids !! n = Some i -> L !! i = Some l ->
         L' !! i = Some (E l) /\ L' !! (length L + n)%nat = Some (succ i l)).

(** The cost left on a lot by a return of capital of [u] per unit; the
    successor of the lot; the gain on the successor of key [k] when that
    cost is negative. *)
Definition adjCost (u : Decimal) (l : Lot) : Decimal :=
  Decimal.sub (cost l) (Decimal.mul (units l) u).

Definition returnOfCapital_successor (inv : INVTRAN.t) (u : Decimal)
    (i : nat) (l : Lot) : Lot :=
  {| account := account l; security := security l; units := units l;
     cost := if Decimal.ltb (adjCost u l) Decimal.zero then Decimal.zero
             else adjCost u l;
     washcost := washcost l;
     dtopen := dtopen l; dtclose := None;
     dtstart := INVTRAN.dttrade inv; dtend := None;
     opener := opener l; closer := None;
     starter := Some inv; ender := None;
     predecessor := Some i |}.

Fixpoint returnOfCapital_gains (inv : INVTRAN.t) (u : Decimal)
    (L : list Lot) (k : nat) (ids : list nat) : list Gain :=
  match ids with
  | [] => []
  | i :: rest =>
      match L !! i with
      | Some l =>
          if Decimal.ltb (adjCost u l) Decimal.zero
          then [mkGain k inv (Decimal.neg (adjCost u l)) Decimal.zero]
          else []
      | None => []
      end ++ returnOfCapital_gains inv u L (S k) rest
  end.

(** The successor of a lot in a split of the given ratio. *)
Definition split_successor (inv : INVTRAN.t) (ratio : Decimal)
    (i : nat) (l : Lot) : Lot :=
  {| account := account l; security := security l;
     units := Decimal.mul (units l) ratio;
     cost := cost l; washcost := washcost l;
     dtopen := dtopen l; dtclose := None;
     dtstart := INVTRAN.dttrade inv; dtend := None;
     opener := opener l; closer := None;
     starter := Some inv; ender := None;
     predecessor := Some i |}.

(** The sum of the units of the successors of the lots [ls] in a split,
    from [Decimal('0')], in the order of the lots. *)
Definition units_after_split (ratio : Decimal) (ls : list Lot) : Decimal :=
  fold_left (fun acc l => Decimal.add acc (Decimal.mul (units l) ratio))
            ls Decimal.zero.

(** The successor of a lot in a transfer. *)
Definition transfer_successor (dttrade : datetime) (transferIn : INVTRAN.t)
    (newSecurity : SECINFO.t) (ratio : Decimal) (i : nat) (l : Lot) : Lot :=
  {| account := account l; security := newSecurity;
     units := Decimal.mul (units l) ratio;
     cost := cost l; washcost := washcost l;
     dtopen := dtopen l; dtclose := None;
     dtstart := dttrade; dtend := None;
     opener := opener l; closer := None;
     starter := Some transferIn; ender := None;
     predecessor := Some i |}.

(** The rows of a query result. *)
Definition rows_of (s : Session) (ids : list nat) : list Lot :=
  omap (fun i => lots s !! i) ids.

(** The holding period along the chains of predecessors: a lot that has a
    predecessor has its [dtopen] and its [opener]. *)
Definition holding_period_kept (L : list Lot) : Prop :=
  forall k l p, L !! k = Some l -> predecessor l = Some p ->
    exists lp, L !! p = Some lp
               /\ dtopen l = dtopen lp /\ opener l = opener lp.

(** The rows of keys [ids] are the same in both tables. *)
Definition agree (ids : list nat) (L L' : list Lot) : Prop :=
  forall j, j ∈ ids -> L' !! j = L !! j.




(** A successor has the [dtopen] and the [opener] of the lot it
    supersedes. *)
Definition keeps_opening (succ : nat -> Lot -> Lot) : Prop :=
  forall i l, predecessor (succ i l) = Some i
              /\ dtopen (succ i l) = dtopen l /\ opener (succ i l) = opener l.

(** [L'] is [L] after some of its lots were superseded. *)
Definition superseded (L L' : list Lot) : Prop :=
  exists d t succ ids,
    successors (set_end d t) succ ids L L'
    /\ (forall i, i ∈ ids -> (i < length L)%nat)
    /\ keeps_opening succ.

(** A return of capital, a split. *)
Definition retofcap (id : nat) (d : datetime) (t : Decimal) : INVTRAN.t :=
  INVTRAN.mk id acctfrom ACME d EmptyString (INVTRAN.RETOFCAP t).

Definition stocksplit (id : nat) (d : datetime) (old new num den : Decimal)
    : INVTRAN.t :=
  INVTRAN.mk id acctfrom ACME d EmptyString (INVTRAN.SPLIT old new num den).

(** [testReturnOfCapital]: buy 300 for 3009.99, then 3000 of capital
    returned; a third transaction returns 1000 more. *)
Definition testReturnOfCapital : Session :=
  returned_or (ledger [])
    (s1 ← trade (ledger []) (buysell 1 (date 2005 10 3) (dec 300 0) (dec (-300999) 2));
     returnOfCapital s1 (retofcap 2 (date 2005 10 4) (dec 3000 0)) true).


(** The ledger of [testTrade] after its first trade, and a split of its 300
    units, 2 for 1. *)
Definition bought : Session :=
  returned_or (ledger [])
    (trade (ledger []) (buysell 1 (date 2005 10 3) (dec 300 0) (dec (-300999) 2))).

Definition two_for_one : INVTRAN.t :=
  stocksplit 2 (date 2005 11 1) (dec 300 0) (dec 600 0) (dec 2 0) (dec 1 0).

(** The memos of a transfer of ACME into NEWCO, and a matching that knows
    the match of [transferMemoRE] on each of them; [LIKE memo || '%'] is
    taken as the test of a prefix. *)
Definition NEWCO : SECINFO.t :=
  SECINFO.mk 2 "CUSIP" "987654321" "NEWCO" "Newco, Inc.".

Definition memo_out : string :=
  "ACME(123456789) MERGED 1 FOR 2 (ACME, ACME DEVELOPMENT INC, 123456789)".
Definition memo_in : string :=
  "ACME(123456789) MERGED 1 FOR 2 (NEWCO, NEWCO INC, 987654321)".
Definition memo_prefix : string := "ACME(123456789) MERGED 1 FOR 2".

#[local] Instance memos : MemoMatching := {|
  transferMemoRE m :=
    if String.eqb m memo_out then Some (memo_prefix, "123456789"%string)
    else if String.eqb m memo_in then Some (memo_prefix, "987654321"%string)
    else None;
  retofcapMemoRE _ := None;
  mentions_return_of_capital _ := false;
  like column memo := String.prefix memo column |}.

(** The lot that [loadCsv] makes of the row [dumpCsv] writes for a lot,
    when the account and the security of the row are found. *)
Definition reloaded (l : Lot) : Lot :=
  set_washcost (Decimal.of_Z (Decimal.to_int (washcost l)))
    (newLot (account l) (security l) (units l) (cost l)
            (dtopen l) None (dtopen l) None).

(** The keys of [lookupByPk]: no two accounts of the table have the same
    [brokerid] and [acctid], no two securities the same [uniqueid] and
    [uniqueidtype]. *)
Definition unique_accounts (s : Session) : Prop :=
  forall a b, a ∈ accounts s -> b ∈ accounts s ->
    INVACCTFROM.brokerid a = INVACCTFROM.brokerid b ->
    INVACCTFROM.acctid a = INVACCTFROM.acctid b -> a = b.

Definition unique_secinfos (s : Session) : Prop :=
  forall a b, a ∈ secinfos s -> b ∈ secinfos s ->
    SECINFO.uniqueid a = SECINFO.uniqueid b ->
    SECINFO.uniqueidtype a = SECINFO.uniqueidtype b -> a = b.

(** The chains of predecessors: [chain L k a] when the lot of key [a] is
    reached from the lot of key [k] by following [predecessor]. *)
Inductive chain (L : list Lot) : nat -> nat -> Prop :=
| chain_here k : chain L k k
| chain_step k l p a :
    L !! k = Some l -> predecessor l = Some p -> chain L p a -> chain L k a.

(** The two sides of the merger of ACME into NEWCO, 1 for 2, and the ledger
    of [bought] with both of them to process. *)
Definition transfer_out : INVTRAN.t :=
  INVTRAN.mk 2 acctfrom ACME (date 2005 11 1) memo_out
             (INVTRAN.TRANSFER (dec (-300) 0)).

Definition transfer_in : INVTRAN.t :=
  INVTRAN.mk 3 acctfrom NEWCO (date 2005 11 1) memo_in
             (INVTRAN.TRANSFER (dec 150 0)).

Definition merger : Session :=
  returned_or (ledger [transfer_out; transfer_in])
    (trade (ledger [transfer_out; transfer_in])
           (buysell 1 (date 2005 10 3) (dec 300 0) (dec (-300999) 2))).

(** The handlers' loops write to the lots and to the gains only. *)
Definition frame (s s' : Session) : Prop :=
  ofxlog s' = ofxlog s /\ invtrans s' = invtrans s
  /\ accounts s' = accounts s /\ secinfos s' = secinfos s.

(** The log only grows, and the transactions are not written to. *)
Definition grows (s s' : Session) : Prop :=
  (forall x, logged s x = true -> logged s' x = true)
  /\ invtrans s' = invtrans s.

(** A transaction that no handler takes. *)
Definition unhandled `{MemoMatching} (inv : INVTRAN.t) : Prop :=
  forall s, doInvtran s inv = Ok s.

(** [ORDER BY key, id]: the row of key [i] comes before the row of key
    [j]. *)
Definition ordered_before (key : nat -> Z) (i j : nat) : Prop :=
  key i < key j \/ (key i = key j /\ (i < j)%nat).

(** The query of [Lot.trade]: the lots of the account and of the security
    of the trade that are current as of its date, with units of the sign
    opposite to its units. *)
Definition openLots (inv : INVTRAN.t) (tunits : Decimal) : Query := fun i l =>
  asOf (INVTRAN.dttrade inv)
       (Some (INVTRAN.acctfrom inv)) (Some (INVTRAN.secinfo inv)) i l
  && opposite tunits l.

(** The lot was closed, and ended, by the transaction. *)
Definition closed_by (inv : INVTRAN.t) (l : Lot) : Prop :=
  dtclose l = Some (INVTRAN.dttrade inv) /\ closer l = Some inv
  /\ dtend l = Some (INVTRAN.dttrade inv) /\ ender l = Some inv.

(** The columns of a lot that say where it comes from. *)
Definition same_origin (l l' : Lot) : Prop :=
  account l' = account l /\ security l' = security l
  /\ dtopen l' = dtopen l /\ opener l' = opener l
  /\ dtstart l' = dtstart l /\ starter l' = starter l
  /\ predecessor l' = predecessor l.

(** [s'] has every lot of [s], under its key and with its origin, the
    gains of [s], unchanged, before any other gain, and the transactions,
    the accounts and the securities of [s]. *)
Definition append_only (s s' : Session) : Prop :=
  (forall k l, lots s !! k = Some l ->
               exists l', lots s' !! k = Some l' /\ same_origin l l')
  /\ gains s `prefix_of` gains s'
  /\ invtrans s' = invtrans s
  /\ accounts s' = accounts s /\ secinfos s' = secinfos s.

(** [s'] is [s] after lots that were current as of [D] were ended on [D],
    each with a successor that starts on [D]. *)
Definition superseded_at (D : datetime) (s s' : Session) : Prop :=
  exists t succ ids,
    successors (set_end (Some D) t) succ ids (lots s) (lots s')
    /\ (forall i, i ∈ ids ->
          exists l, lots s !! i = Some l
                    /\ forall e, dtend l = Some e -> to_us D < to_us e)
    /\ (forall i l, i ∈ ids -> dtstart (succ i l) = D).

(** The transactions that [doInvtran] hands to a handler: the trades, the
    returns of capital and the splits of any broker, and the transfers and
    the income of broker 4705. *)
Definition handled (inv : INVTRAN.t) : bool :=
  match INVTRAN.sub inv with
  | INVTRAN.INVBUYSELL _ _ | INVTRAN.RETOFCAP _ | INVTRAN.SPLIT _ _ _ _ => true
  | INVTRAN.TRANSFER _ | INVTRAN.INCOME _ =>
      String.eqb (INVACCTFROM.brokerid (INVTRAN.acctfrom inv)) "4705"
  | _ => false
  end.

(** [dtstart <= dttrade <= dtend] *)
Definition in_window (dtstart dtend : datetime) (t : INVTRAN.t) : bool :=
  dt_leb dtstart (INVTRAN.dttrade t) && dt_leb (INVTRAN.dttrade t) dtend.

(** The lot that [loadCsv] makes of a row, but for the rows of the tables
    that its account and its security are. *)
Definition loaded_from (r : row) (l : Lot) : Prop :=
  INVACCTFROM.brokerid (account l) = row_brokerid r
  /\ INVACCTFROM.acctid (account l) = row_acctid r
  /\ SECINFO.uniqueid (security l) = row_uniqueid r
  /\ SECINFO.uniqueidtype (security l) = row_uniqueidtype r
  /\ units l = row_units r /\ cost l = row_cost r
  /\ washcost l = Decimal.of_Z (row_washcost r)
  /\ dtopen l = row_dtopen r /\ dtstart l = row_dtopen r
  /\ dtclose l = None /\ dtend l = None
  /\ opener l = None /\ predecessor l = None.

(** A gain that [doWashSale] leaves alone: its lot is open, or a loss was
    disallowed on it before, or it is not a loss, or its transaction is not
    the one that closed its lot, or no lot is a replacement lot of its
    lot. *)
Definition nothing_to_wash (s : Session) (g : Gain) : Prop :=
  exists l,
    lots s !! lot g = Some l
    /\ (dtclose l = None
        \/ Decimal.nonzero (washloss g) = true
        \/ Decimal.leb Decimal.zero (Decimal.sub (proceeds g) (cost l)) = true
        \/ (forall c, closer l = Some c ->
                      INVTRAN.same c (transaction g) = false)
        \/ (forall dtc i l', dtclose l = Some dtc -> lots s !! i = Some l' ->
              replacementLots (lot g) (account l) (security l) (units l) dtc
                              i l' = false)).

(** [s'] is [s] but for amounts: every lot of [s] is there under its key
    with its origin, its closing and its end, every gain of [s] is there
    under its key on its lot and with its transaction, and the other tables
    are those of [s]. *)
Definition only_amounts (s s' : Session) : Prop :=
  (forall k l, lots s !! k = Some l ->
     exists l', lots s' !! k = Some l' /\ same_origin l l'
                /\ dtclose l' = dtclose l /\ closer l' = closer l
                /\ dtend l' = dtend l /\ ender l' = ender l)
  /\ (forall k g, gains s !! k = Some g ->
        exists g', gains s' !! k = Some g'
                   /\ lot g' = lot g /\ transaction g' = transaction g)
  /\ ofxlog s' = ofxlog s /\ invtrans s' = invtrans s
  /\ accounts s' = accounts s /\ secinfos s' = secinfos s.

(** ** [Lot.dumpCsv] with [consolidate=True] *)

(** A row of the consolidated file: the columns [dtopen] and [washcost]
    are left empty. *)
Record position_row : Set := mkPosition {
  pos_brokerid : string;
  pos_acctid : string;
  pos_ticker : string;
  pos_secname : string;
  pos_uniqueidtype : string;
  pos_uniqueid : string;
  pos_units : Decimal;
  pos_cost : Decimal }.

(** The keys of the dictionary [p]: an account and a security, which are
    rows of their tables. *)
Definition same_position (a b : INVACCTFROM.t * SECINFO.t) : bool :=
  same_account (fst a) (fst b) && same_security (snd a) (snd b).

(** [p[key].append(v)] on a [defaultdict(list)], whose items are kept in
    the order in which their keys were first used. *)
Fixpoint append_to (key : INVACCTFROM.t * SECINFO.t) (v : Decimal * Decimal)
    (p : list ((INVACCTFROM.t * SECINFO.t) * list (Decimal * Decimal)))
    : list ((INVACCTFROM.t * SECINFO.t) * list (Decimal * Decimal)) :=
  match p with
  | [] => [(key, [v])]
  | (k, vs) :: rest =>
      if same_position k key then (k, vs ++ [v]) :: rest
      else (k, vs) :: append_to key v rest
  end.

(** [for lot in lots: p[(lot.account, secinfo)].append((lot.units,
    lot.cost))] *)
Definition consolidate (ls : list Lot)
    : list ((INVACCTFROM.t * SECINFO.t) * list (Decimal * Decimal)) :=
  fold_left (fun p l => append_to (account l, security l) (units l, cost l) p)
            ls [].

(** The row written for an item of [p]. *)
Definition secposition
    (item : (INVACCTFROM.t * SECINFO.t) * list (Decimal * Decimal))
    : position_row :=
  let '((a, x), vs) := item in
  {| pos_brokerid := INVACCTFROM.brokerid a;
     pos_acctid := INVACCTFROM.acctid a;
     pos_ticker := SECINFO.ticker x;
     pos_secname := SECINFO.secname x;
     pos_uniqueidtype := SECINFO.uniqueidtype x;
     pos_uniqueid := SECINFO.uniqueid x;
     pos_units := Decimal.sum (map fst vs);
     pos_cost := Decimal.sum (map snd vs) |}.

(** [Lot.dumpCsv(DBSession, csvfile, dtasof, consolidate=True)]: the rows
    under the header. *)
Definition dumpCsv_consolidated (s : Session) (dtasof : option datetime)
    : list position_row :=
  let dtasof := default datetime_max dtasof in
  map secposition (consolidate (rows_of s (fetch s (asOf dtasof None None)))).

(** The list that [p] has for a key; no list when the key was not used. *)
Fixpoint position_of (key : INVACCTFROM.t * SECINFO.t)
    (p : list ((INVACCTFROM.t * SECINFO.t) * list (Decimal * Decimal)))
    : list (Decimal * Decimal) :=
  match p with
  | [] => []
  | (k, vs) :: rest => if same_position k key then vs else position_of key rest
  end.

(** No two items of [p] have the same key. *)
Fixpoint distinct_keys
    (p : list ((INVACCTFROM.t * SECINFO.t) * list (Decimal * Decimal)))
    : Prop :=
  match p with
  | [] => True
  | (k, _) :: rest =>
      (forall e, e ∈ rest -> same_position k (fst e) = false)
      /\ distinct_keys rest
  end.

(** The test of [IBKR.doIncome] for a reversal of the income [inv] of
    amount [total], whose memo starts with [memo]: an [INVEXPENSE] of the
    same date and of the opposite amount whose memo starts with it too. *)
Definition reverses `{MemoMatching} (inv : INVTRAN.t) (total : Decimal)
    (memo : string) (t : INVTRAN.t) : bool :=
  match INVTRAN.sub t with
  | INVTRAN.INVEXPENSE x =>
      dt_eqb (INVTRAN.dttrade t) (INVTRAN.dttrade inv)
      && Decimal.eqb x (Decimal.neg total)
      && like (INVTRAN.memo t) memo
  | _ => false
  end.

(** An income of ACME that its memo says is a return of capital, and a
    matching that knows this memo. *)
Definition memo_roc : string := "ACME CASH DIVIDEND (Return of Capital)".

Definition roc_memos : MemoMatching := {|
  transferMemoRE _ := None;
  retofcapMemoRE m :=
    if String.eqb m memo_roc then Some "ACME CASH DIVIDEND"%string else None;
  mentions_return_of_capital m := String.eqb m memo_roc;
  like column memo := String.prefix memo column |}.

Definition income_roc : INVTRAN.t :=
  INVTRAN.mk 2 acctfrom ACME (date 2005 11 1) memo_roc
             (INVTRAN.INCOME (dec 1000 0)).

(** [ORDER BY dttrade, id]: [t] is not after [u]. *)
Definition not_after (t u : INVTRAN.t) : Prop :=
  to_us (INVTRAN.dttrade t) < to_us (INVTRAN.dttrade u)
  \/ (to_us (INVTRAN.dttrade t) = to_us (INVTRAN.dttrade u)
      /\ (INVTRAN.id t <= INVTRAN.id u)%nat).

(** The ledger of [testWashSale1] after its trades and the wash sale
    pass. *)
Definition washed : Session :=
  returned_or (ledger testWashSale1)
    (s1 ← trades testWashSale1 (ledger testWashSale1);
     doWashSales s1 None None).

(** 300 units bought for 3000 and 100 units bought for 500, five days
    later; the 300 units sold for 1500 within the month. *)
Definition rewash : list INVTRAN.t :=
  [ buysell 1 (date 2005 11 15) (dec 300 0) (dec (-3000) 0);
    buysell 2 (date 2005 11 20) (dec 100 0) (dec (-500) 0);
    buysell 3 (date 2005 12 1) (dec (-300) 0) (dec 1500 0) ].

(** * Properties *)

(** A conjunction of facts about a concrete ledger, each one settled by
    evaluation, from left to right. *)
Ltac by_computation :=
  repeat match goal with
         | |- _ /\ _ => split; [vm_compute; reflexivity |]
         end;
  try (vm_compute; reflexivity).

(** ** Concrete ledgers *)

(** C3.  Scenario S1, partial close under FIFO: on an empty ledger, the buy
    of 300 units for 3009.99 on 2005-10-03 and the sale of 200 units for
    2390.01 on 2005-12-01 leave two lots, the first of 200 units, closed,
    with cost 2006.66 and one gain of proceeds 2390.01 and value 383.35,
    short term, the second of 100 units, open, with cost 1003.33. *)
Theorem S1_partial_close_fifo :
  exists s closed open g v,
    trades testTrade (ledger testTrade) = Ok s
    /\ lots s = [closed; open] /\ gains s = [g]
    /\ dtclose closed = Some (date 2005 12 1)
    /\ Decimal.eqb (units closed) (dec 200 0) = true
    /\ Decimal.eqb (cost closed) (dec 200666 2) = true
    /\ lot g = 0%nat
    /\ Decimal.eqb (proceeds g) (dec 239001 2) = true
    /\ value s g = Ok v /\ Decimal.eqb v (dec 38335 2) = true
    /\ isLongTerm s g = Ok false
    /\ dtclose open = None
    /\ Decimal.eqb (units open) (dec 100 0) = true
    /\ Decimal.eqb (cost open) (dec 100333 2) = true.
Proof.
  do 5 eexists. by_computation.
Qed.

(** C1.  The query of the wash sale pass compares the bounds of the window
    with [dtopen], not with [dtclose].  In the ledger of [testWashSale1]
    the two gains are on lots closed on 2005-12-01, the first one at a loss.
    Over December 2005 the pass selects no gain and changes nothing, though
    both lots were closed in that window; over October 2005 it selects the
    first gain, whose lot was opened then and closed outside of the window,
    and disallows its loss. *)
Theorem doWashSales_window_on_dtopen :
  exists s g l v,
    trades testWashSale1 (ledger testWashSale1) = Ok s
    /\ gains s !! 0%nat = Some g /\ lots s !! lot g = Some l
    /\ dtclose l = Some (date 2005 12 1)
    /\ Decimal.is_zero (washloss g) = true
    /\ value s g = Ok v /\ Decimal.ltb v Decimal.zero = true
    /\ gains_needing_washsale s (date 2005 12 1) (date 2005 12 31) = []
    /\ doWashSales s (Some (date 2005 12 1)) (Some (date 2005 12 31)) = Ok s
    /\ gains_needing_washsale s (date 2005 10 1) (date 2005 10 31) = [0%nat]
    /\ exists s' g',
         doWashSales s (Some (date 2005 10 1)) (Some (date 2005 10 31)) = Ok s'
         /\ gains s' !! 0%nat = Some g'
         /\ Decimal.eqb (washloss g') (dec (-6174825) 4) = true.
Proof.
  do 4 eexists. by_computation.
  do 2 eexists. by_computation.
Qed.

(** C4.  The lesser magnitude goes through a binary float: for replacement
    units of 0.1 and a loss lot of 0.5 units the source computes
    0.1000000000000000055511151231257827021181583404541015625, which is
    not 0.1. *)
Theorem signed_min_through_float :
  signed_min (dec 1 1) (dec 5 1) = Ok tenth_as_float
  /\ Decimal.min (Decimal.abs (dec 1 1)) (Decimal.abs (dec 5 1)) = dec 1 1
  /\ Decimal.eqb tenth_as_float (dec 1 1) = false.
Proof. by_computation. Qed.

(** C2.  The final assertions of [doWashSale] fail on the ledger
    [fractional]: the loss on half a unit has a tenth of a unit of
    replacement; the counter starts from the float of 0.1 and is left at
    5.551115123125782702118158340E-18 after the only replacement lot, and
    the disallowed loss at -2.77555756156E-16. *)
Theorem doWashSale_final_assertions_fail :
  exists s g l r,
    trades fractional (ledger fractional) = Ok s
    /\ gains s !! 0%nat = Some g /\ lots s !! lot g = Some l
    /\ Decimal.eqb (units l) (dec 5 1) = true
    /\ units_of s (fetch s (replacementLots (lot g) (account l) (security l)
                              (units l) (date 2005 12 1))) = [dec 1 1]
    /\ doWashSale_roll s 0 g l (date 2005 12 1) = Ok (Some r)
    /\ replacementUnits r = Decimal.mk 5551115123125782702118158340 (-45)
    /\ disallowedLoss r = Decimal.mk (-277555756156) (-27)
    /\ final_assertions r = false
    /\ doWashSale s 0 = Raise AssertionError.
Proof.
  do 4 eexists. by_computation.
Qed.

(** The last assertion also fails without any float, by the rounding of
    the products to 28 digits: in the ledger [sevenths] the loss of 1 on 7
    units is rolled into lots of 3 and 4 units; the counter ends at zero and
    the disallowed loss at 3E-28. *)
Lemma doWashSale_rounding :
  exists s g l r,
    trades sevenths (ledger sevenths) = Ok s
    /\ gains s !! 0%nat = Some g /\ lots s !! lot g = Some l
    /\ doWashSale_roll s 0 g l (date 2005 12 1) = Ok (Some r)
    /\ Decimal.eqb (replacementUnits r) Decimal.zero = true
    /\ disallowedLoss r = Decimal.mk 3 (-28)
    /\ doWashSale s 0 = Raise AssertionError.
Proof.
  do 4 eexists. by_computation.
Qed.

(** ** Results and sequencing *)

Lemma bind_Ok {A B : Type} (r : result A) (k : A -> result B) (b : B) :
  (r ≫= k) = Ok b -> exists a, r = Ok a /\ k a = Ok b.
Proof. destruct r as [a|e]; simpl; [eauto | discriminate]. Qed.

Lemma orRaise_Ok {A : Type} (e : exn) (o : option A) (a : A) :
  orRaise e o = Ok a -> o = Some a.
Proof. destruct o; simpl; congruence. Qed.

(** Inversion of a computation that returned: every statement before the
    return did. *)
Ltac returned :=
  repeat match goal with
         | H : (_ ≫= _) = Ok _ |- _ =>
             apply bind_Ok in H; destruct H as (? & ? & H)
         | H : orRaise _ _ = Ok _ |- _ => apply orRaise_Ok in H
         | H : Ok _ = Ok _ |- _ => injection H as H; try subst
         | H : Raise _ = Ok _ |- _ => discriminate H
         | H : (let '(_, _) := ?p in _) = Ok _ |- _ => destruct p eqn:?
         | H : (if ?b then _ else _) = Ok _ |- _ => destruct b eqn:?
         | H : (_, _) = (_, _) |- _ => injection H as ? ?; try subst
         end.

(** ** What the loops leave alone *)

Lemma frame_refl s : frame s s.
Proof. repeat split. Qed.

Lemma frame_trans s1 s2 s3 : frame s1 s2 -> frame s2 s3 -> frame s1 s3.
Proof. unfold frame. intuition congruence. Qed.

Lemma frame_set_lots ls s : frame s (set_lots ls s).
Proof. repeat split. Qed.

Lemma frame_set_gains gs s : frame s (set_gains gs s).
Proof. repeat split. Qed.

Create HintDb frame.
#[local] Hint Resolve frame_refl frame_set_lots frame_set_gains : frame.

Lemma frame_update_lot i f s : frame s (update_lot i f s).
Proof. apply frame_set_lots. Qed.

Lemma frame_add_lot l s : frame s (snd (add_lot l s)).
Proof. apply frame_set_lots. Qed.

Lemma frame_add_gain g s : frame s (add_gain g s).
Proof. apply frame_set_gains. Qed.

Lemma frame_update_gain i f s : frame s (update_gain i f s).
Proof. apply frame_set_gains. Qed.

#[local] Hint Resolve frame_update_lot frame_add_lot frame_add_gain
  frame_update_gain : frame.

Lemma frame_logged s s' inv : frame s s' -> logged s' inv = logged s inv.
Proof. intros (Hl & _). unfold logged. now rewrite Hl. Qed.

Lemma trade_step_frame inv tu tt i l s u s' u' :
  trade_step inv tu tt i l s u = Ok (s', u') -> frame s s'.
Proof.
  unfold trade_step. intros H. returned; simpl;
    repeat (eapply frame_trans; [| apply frame_add_gain]);
    repeat (eapply frame_trans; [| apply frame_update_lot]);
    auto with frame.
Qed.

Lemma trade_loop_frame inv tu tt ids : forall s u s' u',
  trade_loop inv tu tt ids s u = Ok (s', u') -> frame s s'.
Proof.
  induction ids as [|i rest IH]; simpl; intros s u s' u' H.
  - returned. apply frame_refl.
  - destruct (Decimal.is_zero u); [returned; apply frame_refl |].
    returned. destruct x0 as [s1 u1].
    eapply frame_trans; [eapply trade_step_frame | eapply IH]; eassumption.
Qed.

Lemma returnOfCapital_step_frame inv u i l s :
  frame s (returnOfCapital_step inv u i l s).
Proof.
  unfold returnOfCapital_step. simpl.
  destruct (Decimal.ltb _ _); repeat split.
Qed.

Lemma returnOfCapital_loop_frame inv u ids : forall s s',
  returnOfCapital_loop inv u ids s = Ok s' -> frame s s'.
Proof.
  induction ids as [|i rest IH]; simpl; intros s s' H; returned.
  - apply frame_refl.
  - eapply frame_trans; [apply returnOfCapital_step_frame | eapply IH; eassumption].
Qed.

Lemma split_loop_frame inv ratio ids : forall s n s' n',
  split_loop inv ratio ids s n = Ok (s', n') -> frame s s'.
Proof.
  induction ids as [|i rest IH]; simpl; intros s n s' n' H; returned.
  - apply frame_refl.
  - eapply frame_trans; [| eapply IH; eassumption]. repeat split.
Qed.

Lemma doTransfer_loop_frame dt out inn sec ratio ids : forall s s',
  doTransfer_loop dt out inn sec ratio ids s = Ok s' -> frame s s'.
Proof.
  induction ids as [|i rest IH]; simpl; intros s s' H; returned.
  - apply frame_refl.
  - eapply frame_trans; [| eapply IH; eassumption]. repeat split.
Qed.

(** ** The event log *)

Lemma grows_refl s : grows s s.
Proof. split; auto. Qed.

Lemma grows_trans s1 s2 s3 : grows s1 s2 -> grows s2 s3 -> grows s1 s3.
Proof. intros [H1 E1] [H2 E2]. split; [auto | congruence]. Qed.

Lemma frame_grows s s' : frame s s' -> grows s s'.
Proof.
  intros F. split; [| apply F].
  intros x. now rewrite (frame_logged _ _ x F).
Qed.

Lemma get_or_create_logged s inv :
  logged s inv = true -> get_or_create s inv = (false, s).
Proof. unfold get_or_create. now intros ->. Qed.

Lemma get_or_create_new s inv :
  logged s inv = false ->
  get_or_create s inv
  = (true, set_ofxlog (ofxlog s ++ [INVTRAN.id inv]) s).
Proof. unfold get_or_create. now intros ->. Qed.

Lemma logged_app s ids x :
  logged (set_ofxlog (ofxlog s ++ ids) s) x
  = logged s x || existsb (Nat.eqb (INVTRAN.id x)) ids.
Proof. unfold logged. simpl. apply existsb_app. Qed.

Lemma get_or_create_grows s inv c s1 :
  get_or_create s inv = (c, s1) ->
  grows s s1 /\ logged s1 inv = true /\ lots s1 = lots s /\ gains s1 = gains s.
Proof.
  unfold get_or_create. destruct (logged s inv) eqn:E; intros [= <- <-].
  - repeat split; auto.
  - repeat split; auto.
    + intros x Hx. rewrite logged_app, Hx. reflexivity.
    + rewrite logged_app. simpl. rewrite Nat.eqb_refl. apply orb_true_iff. auto.
Qed.

Lemma after_frame s s1 s' inv :
  grows s s1 -> logged s1 inv = true -> frame s1 s' ->
  grows s s' /\ logged s' inv = true.
Proof.
  intros G L F. split.
  - eapply grows_trans; [eassumption | now apply frame_grows].
  - now rewrite (frame_logged _ _ inv F).
Qed.

Lemma trade_grows s inv s' :
  trade s inv = Ok s' -> grows s s' /\ logged s' inv = true.
Proof.
  unfold trade. destruct (INVTRAN.sub inv); try discriminate.
  destruct (get_or_create s inv) as [c s1] eqn:G.
  apply get_or_create_grows in G as (G & L & _).
  destruct c; simpl; intros H; returned; auto;
    (eapply after_frame; [eassumption | eassumption |]);
    (eapply frame_trans; [eapply trade_loop_frame; eassumption |]);
    auto with frame.
Qed.

Lemma returnOfCapital_grows s inv checklog s' :
  returnOfCapital s inv checklog = Ok s' ->
  grows s s' /\ logged s' inv = true.
Proof.
  unfold returnOfCapital.
  destruct (get_or_create s inv) as [c s1] eqn:G.
  apply get_or_create_grows in G as (G & L & _).
  intros H; returned; auto;
    (eapply after_frame; [eassumption | eassumption |]);
    eapply returnOfCapital_loop_frame; eassumption.
Qed.

Lemma split_grows s inv s' :
  split s inv = Ok s' -> grows s s' /\ logged s' inv = true.
Proof.
  unfold split. destruct (INVTRAN.sub inv); try discriminate.
  destruct (get_or_create s inv) as [c s1] eqn:G.
  apply get_or_create_grows in G as (G & L & _).
  destruct c; simpl; intros H; returned; auto.
  eapply after_frame; [eassumption | eassumption |].
  eapply split_loop_frame; eassumption.
Qed.

Section Quirks.
Context `{MemoMatching}.

Lemma doTransfer_grows s inv s' :
  doTransfer s inv = Ok s' -> grows s s' /\ logged s' inv = true.
Proof.
  unfold doTransfer. destruct (INVTRAN.sub inv); try discriminate.
  destruct (get_or_create s inv) as [c s1] eqn:G.
  apply get_or_create_grows in G as (G & L & _).
  destruct c; simpl; intros H0; returned; auto.
  destruct x0 as [twin|]; [| returned; auto].
  destruct (get_or_create s1 twin) as [c2 s3] eqn:G2.
  apply get_or_create_grows in G2 as (G2 & _).
  assert (G3 : grows s s3) by (eapply grows_trans; eassumption).
  assert (L3 : logged s3 inv = true) by (apply G2, L).
  destruct c2; simpl in H0; returned; auto;
    (eapply after_frame; [eassumption | eassumption |]);
    eapply doTransfer_loop_frame; eassumption.
Qed.

Lemma doIncome_grows s inv s' :
  doIncome s inv = Ok s' -> grows s s' /\ logged s' inv = true.
Proof.
  unfold doIncome. destruct (INVTRAN.sub inv); try discriminate.
  destruct (get_or_create s inv) as [c s1] eqn:G.
  apply get_or_create_grows in G as (G & L & _).
  destruct c; simpl; intros H0; returned; auto.
  destruct (fold_right insert_invtran [] _) as [|r rest].
  - apply returnOfCapital_grows in H0 as [G2 L2].
    split; [eapply grows_trans; eassumption | assumption].
  - returned.
    destruct (get_or_create s1 r) as [c2 s2] eqn:G2.
    apply get_or_create_grows in G2 as (G2 & _). simpl.
    split; [eapply grows_trans; eassumption | apply G2, L].
Qed.

Lemma doInvtran_grows s inv s' :
  doInvtran s inv = Ok s' ->
  grows s s' /\ (logged s' inv = true \/ unhandled inv).
Proof.
  unfold unhandled, doInvtran, brokerquirks.
  destruct (String.eqb _ _), (INVTRAN.sub inv) eqn:E; intros H0;
    try (injection H0 as <-; split; [apply grows_refl | now right]);
    try (apply trade_grows in H0 as []; now auto);
    try (apply split_grows in H0 as []; now auto);
    try (apply returnOfCapital_grows in H0 as []; now auto);
    try (apply doTransfer_grows in H0 as []; now auto);
    try (apply doIncome_grows in H0 as []; now auto).
Qed.

End Quirks.

(** ** A logged transaction is not processed again *)

Lemma trade_logged s inv u t :
  INVTRAN.sub inv = INVTRAN.INVBUYSELL u t ->
  logged s inv = true -> trade s inv = Ok s.
Proof.
  intros E L. unfold trade. rewrite E, (get_or_create_logged _ _ L).
  reflexivity.
Qed.

Lemma returnOfCapital_logged s inv :
  logged s inv = true -> returnOfCapital s inv true = Ok s.
Proof.
  intros L. unfold returnOfCapital. rewrite (get_or_create_logged _ _ L).
  reflexivity.
Qed.

Lemma split_logged s inv o n nu d :
  INVTRAN.sub inv = INVTRAN.SPLIT o n nu d ->
  logged s inv = true -> split s inv = Ok s.
Proof.
  intros E L. unfold split. rewrite E, (get_or_create_logged _ _ L).
  reflexivity.
Qed.

Section AtMostOnce.
Context `{MemoMatching}.

Lemma doInvtran_logged s inv :
  logged s inv = true -> doInvtran s inv = Ok s.
Proof.
  intros L. unfold doInvtran, brokerquirks, doTransfer, doIncome.
  destruct (String.eqb _ _), (INVTRAN.sub inv) eqn:E;
    try reflexivity;
    try (eapply trade_logged; eassumption);
    try (eapply split_logged; eassumption);
    try (now apply returnOfCapital_logged);
    rewrite E, (get_or_create_logged _ _ L); reflexivity.
Qed.

(** After a run every transaction of the stream is either in the log or
    of a kind that no handler takes. *)
Lemma doInvtran_each_done l : forall s s',
  doInvtran_each l s = Ok s' ->
  grows s s'
  /\ Forall (fun inv => logged s' inv = true \/ unhandled inv) l.
Proof.
  induction l as [|inv rest IH]; simpl; intros s s' H0; returned.
  - split; [apply grows_refl | constructor].
  - apply doInvtran_grows in H1 as [G1 D1].
    apply IH in H0 as [G2 D2].
    split; [eapply grows_trans; eassumption |].
    constructor; [| assumption].
    destruct D1 as [D1 | D1]; [left; now apply G2 | now right].
Qed.

Lemma doInvtran_each_again l s :
  Forall (fun inv => logged s inv = true \/ unhandled inv) l ->
  doInvtran_each l s = Ok s.
Proof.
  induction 1 as [|inv rest [L | U] _ IH]; simpl; [reflexivity | |].
  - now rewrite (doInvtran_logged _ _ L).
  - now rewrite (U s).
Qed.

End AtMostOnce.

(** The event log.  A trade, a return of capital or a split that the event
    log already holds returns without any change to the session, and so does
    the dispatch of any logged transaction; a second run of [Lot.doInvtrans]
    over the window of a first run that returned leaves the session as it
    was. *)
Theorem at_most_once `{MemoMatching} :
  (forall s inv,
      logged s inv = true ->
      (forall u t, INVTRAN.sub inv = INVTRAN.INVBUYSELL u t ->
                   trade s inv = Ok s)
      /\ returnOfCapital s inv true = Ok s
      /\ (forall o n nu d, INVTRAN.sub inv = INVTRAN.SPLIT o n nu d ->
                           split s inv = Ok s)
      /\ doInvtran s inv = Ok s)
  /\ (forall s dtstart dtend s',
         doInvtrans s dtstart dtend = Ok s' ->
         doInvtrans s' dtstart dtend = Ok s').
Proof.
  split.
  - intros s inv L. repeat split.
    + intros u t E. eapply trade_logged; eassumption.
    + now apply returnOfCapital_logged.
    + intros o n nu d E. eapply split_logged; eassumption.
    + now apply doInvtran_logged.
  - unfold doInvtrans. intros s dtstart dtend s' R.
    apply doInvtran_each_done in R as [[_ E] D].
    unfold invtrans_in. rewrite E. now apply doInvtran_each_again.
Qed.

(** The ledger of [testTrade] run twice. *)
Lemma at_most_once_witness :
  let s' := returned_or (ledger []) (doInvtrans (ledger testTrade) None None) in
  doInvtrans (ledger testTrade) None None = Ok s'
  /\ doInvtrans s' None None = Ok s'
  /\ logged s' (buysell 2 (date 2005 12 1) (dec (-200) 0) (dec 239001 2)) = true
  /\ trade s' (buysell 2 (date 2005 12 1) (dec (-200) 0) (dec 239001 2)) = Ok s'.
Proof.
  intros s'.
  assert (R : doInvtrans (ledger testTrade) None None = Ok s')
    by (vm_compute; reflexivity).
  assert (L : logged s' (buysell 2 (date 2005 12 1) (dec (-200) 0)
                                 (dec 239001 2)) = true)
    by (vm_compute; reflexivity).
  destruct at_most_once as [once again].
  split; [exact R |].
  split; [exact (again _ _ _ _ R) |].
  split; [exact L |].
  exact (proj1 (once _ _ L) _ _ eq_refl).
Defined.

(** C9.  A second run of [calc] over the same window is not without effect.
    On the ledger [rewash], [calc] returns a ledger of four lots and three
    gains in which one lot has washcost 500 and one gain has washloss -500;
    [calc] on that ledger, over the same window, returns another ledger, in
    which three lots have washcost 500 and the three gains have washloss
    -500.  The transactions are not processed again: [Lot.doInvtrans] on
    the first ledger returns it as it is; what the second run adds is the
    work of [Gain.doWashSales]. *)
Theorem calc_twice_washes_twice :
  exists s1 s2,
    @calc memos (ledger rewash) None None = Ok s1
    /\ @calc memos s1 None None = Ok s2
    /\ @doInvtrans memos s1 None None = Ok s1
    /\ doWashSales s1 None None = Ok s2
    /\ map (fun l => Decimal.eqb (washcost l) (dec 500 0)) (lots s1)
       = [false; false; true; false]
    /\ map (fun l => Decimal.eqb (washcost l) Decimal.zero) (lots s1)
       = [true; true; false; true]
    /\ map (fun g => Decimal.eqb (washloss g) (dec (-500) 0)) (gains s1)
       = [true; false; false]
    /\ map (fun g => Decimal.eqb (washloss g) Decimal.zero) (gains s1)
       = [false; true; true]
    /\ map (fun l => Decimal.eqb (washcost l) (dec 500 0)) (lots s2)
       = [true; true; true; false]
    /\ map (fun g => Decimal.eqb (washloss g) (dec (-500) 0)) (gains s2)
       = [true; true; true]
    /\ s2 <> s1.
Proof.
  do 2 eexists. by_computation.
  intros E.
  apply (f_equal (fun s => map (fun l => Decimal.is_zero (washcost l))
                               (lots s))) in E.
  vm_compute in E. discriminate E.
Qed.


(** ** Zero *)

Lemma mul_zero_r a b :
  Decimal.is_zero b = true -> Decimal.coeff (Decimal.mul a b) = 0.
Proof.
  unfold Decimal.is_zero, Decimal.mul, Decimal.fix_. intros E.
  apply Z.eqb_eq in E. rewrite E, Z.mul_0_r. reflexivity.
Qed.

Lemma ltb_zero_coeff a :
  Decimal.coeff a = 0 -> Decimal.ltb a Decimal.zero = false.
Proof.
  unfold Decimal.ltb, Decimal.compare, Decimal.align. simpl.
  intros ->. reflexivity.
Qed.

Lemma opposite_zero u l : Decimal.is_zero u = true -> opposite u l = false.
Proof. intros E. apply ltb_zero_coeff, mul_zero_r, E. Qed.

Lemma nonzero_is_zero u : Decimal.nonzero u = negb (Decimal.is_zero u).
Proof. reflexivity. Qed.

(** ** Queries *)

Lemma select_empty (q : Query) s :
  (forall i l, lots s !! i = Some l -> q i l = false) -> select q s = [].
Proof.
  intros E. unfold select.
  induction (seq 0 (length (lots s))) as [|i r IH]; simpl; [reflexivity |].
  destruct (lots s !! i) as [l|] eqn:L; [rewrite (E _ _ L) |]; exact IH.
Qed.

(** C10.  A trade of zero units that is not in the log leaves the lots and
    the gains as they are: the session it returns is the one it was given
    with the transaction appended to the log, and a second submission
    returns that session unchanged. *)
Theorem trade_zero_units s inv u t :
  INVTRAN.sub inv = INVTRAN.INVBUYSELL u t ->
  Decimal.is_zero u = true ->
  logged s inv = false ->
  let s' := set_ofxlog (ofxlog s ++ [INVTRAN.id inv]) s in
  trade s inv = Ok s'
  /\ lots s' = lots s /\ gains s' = gains s
  /\ trade s' inv = Ok s'.
Proof.
  intros E Z L s'.
  assert (T : trade s inv = Ok s').
  { unfold trade. rewrite E, (get_or_create_new _ _ L). simpl.
    unfold fetch. rewrite select_empty.
    - simpl. rewrite nonzero_is_zero, Z. reflexivity.
    - intros i l _. rewrite (opposite_zero _ _ Z). apply andb_false_r. }
  repeat split; [exact T |].
  apply trade_grows in T as [_ L']. eapply trade_logged; eassumption.
Qed.

(** A sale of no unit, on the ledger of [testTrade] after its two trades. *)
Lemma trade_zero_units_witness :
  let s := returned_or (ledger []) (trades testTrade (ledger testTrade)) in
  let inv := buysell 3 (date 2005 12 2) (Decimal.mk 0 (-2)) (dec 0 0) in
  Decimal.is_zero (Decimal.mk 0 (-2)) = true
  /\ logged s inv = false
  /\ trade s inv = Ok (set_ofxlog (ofxlog s ++ [3%nat]) s)
  /\ trade (set_ofxlog (ofxlog s ++ [3%nat]) s) inv
     = Ok (set_ofxlog (ofxlog s ++ [3%nat]) s).
Proof.
  intros s inv.
  assert (Z : Decimal.is_zero (Decimal.mk 0 (-2)) = true) by reflexivity.
  assert (L : logged s inv = false) by (vm_compute; reflexivity).
  destruct (trade_zero_units s inv _ _ eq_refl Z L) as (T1 & _ & _ & T2).
  repeat split; assumption.
Defined.

(** ** The rows of a query *)

Lemma elem_of_select (q : Query) s i :
  i ∈ select q s <-> exists l, lots s !! i = Some l /\ q i l = true.
Proof.
  unfold select. rewrite list_elem_of_In, filter_In, in_seq. split.
  - intros [_ Hq]. destruct (lots s !! i) as [l|]; [eauto | discriminate].
  - intros (l & Hl & Hq). rewrite Hl. split; [| assumption].
    apply lookup_lt_Some in Hl. lia.
Qed.

Lemma NoDup_select (q : Query) s : NoDup (select q s).
Proof.
  unfold select.
  apply NoDup_ListNoDup, List.NoDup_filter, NoDup_ListNoDup, NoDup_seq.
Qed.

Lemma insert_by_Permutation key i l : insert_by key i l ≡ₚ i :: l.
Proof.
  induction l as [|j r IH]; simpl; [reflexivity |].
  destruct (key i <=? key j); [reflexivity |].
  rewrite IH. apply Permutation_swap.
Qed.

Lemma order_by_Permutation key l : order_by key l ≡ₚ l.
Proof.
  induction l as [|i r IH]; simpl; [reflexivity |].
  rewrite insert_by_Permutation. now constructor.
Qed.

Lemma elem_of_fetch (q : Query) s i :
  i ∈ fetch s q <-> exists l, lots s !! i = Some l /\ q i l = true.
Proof. unfold fetch. now rewrite order_by_Permutation, elem_of_select. Qed.

Lemma NoDup_fetch (q : Query) s : NoDup (fetch s q).
Proof. unfold fetch. rewrite order_by_Permutation. apply NoDup_select. Qed.

Lemma fetch_lt (q : Query) s i :
  i ∈ fetch s q -> (i < length (lots s))%nat.
Proof. rewrite elem_of_fetch. intros (l & Hl & _). eapply lookup_lt_Some, Hl. Qed.

(** A query reads the lots only. *)
Lemma fetch_ext (q : Query) s s' : lots s' = lots s -> fetch s' q = fetch s q.
Proof.
  intros E. unfold fetch, select, lot_dtopen_key. rewrite E. reflexivity.
Qed.

(** ** Loops that supersede lots *)

Lemma successors_nil E succ L : successors E succ [] L L.
Proof.
  split; [simpl; lia |]. split; [reflexivity |].
  intros n i l Hn. now rewrite lookup_nil in Hn.
Qed.

Lemma successors_cons E succ i rest L L' l :
  i ∉ rest ->
  (forall j, j ∈ rest -> (j < length L)%nat) ->
  L !! i = Some l ->
  successors E succ rest (alter E i L ++ [succ i l]) L' ->
  successors E succ (i :: rest) L L'.
Proof.
  intros Hi Hrest Hl (Hlen & Hout & Hin).
  assert (Hlt : (i < length L)%nat) by (eapply lookup_lt_Some, Hl).
  rewrite length_app, length_alter in Hlen. simpl in Hlen.
  rewrite length_app, length_alter in Hout, Hin. simpl in Hout, Hin.
  assert (Hfresh : length L ∉ rest) by (intros F; apply Hrest in F; lia).
  assert (Hold : forall j, j ≠ i -> (j < length L)%nat ->
                           (alter E i L ++ [succ i l]) !! j = L !! j).
  { intros j Hne Hj. rewrite lookup_app_l by (rewrite length_alter; lia).
    now apply list_lookup_alter_ne. }
  split; [simpl; lia |]. split.
  - intros j Hj Hjlt. apply not_elem_of_cons in Hj as [Hne Hj].
    rewrite Hout by (auto; lia). now apply Hold.
  - intros [|n] i' l' Hn Hl'; simpl in Hn.
    + injection Hn as <-. rewrite Hl' in Hl. injection Hl as ->.
      split.
      * rewrite Hout by (auto; lia).
        rewrite lookup_app_l by (rewrite length_alter; lia).
        now rewrite list_lookup_alter_eq, Hl'.
      * rewrite Nat.add_0_r, Hout by (auto; lia).
        rewrite lookup_app_r by (rewrite length_alter; lia).
        now rewrite length_alter, Nat.sub_diag.
    + assert (Hne : i' ≠ i)
        by (intros ->; apply Hi; eapply list_elem_of_lookup_2, Hn).
      assert (Hlt' : (i' < length L)%nat) by (eapply lookup_lt_Some, Hl').
      replace (length L + S n)%nat with (length L + 1 + n)%nat by lia.
      apply Hin; [assumption |]. now rewrite Hold.
Qed.

Lemma alter_last {A : Type} (f : A -> A) (l : list A) (x : A) :
  alter f (length l) (l ++ [x]) = l ++ [f x].
Proof.
  rewrite <- (Nat.add_0_r (length l)) at 1. now rewrite alter_app_r.
Qed.

Lemma agree_after_step E i rest L x :
  i ∉ rest -> (forall j, j ∈ rest -> (j < length L)%nat) ->
  agree rest L (alter E i L ++ [x]).
Proof.
  intros Hi Hrest j Hj.
  rewrite lookup_app_l by (rewrite length_alter; auto).
  apply list_lookup_alter_ne. intros ->. auto.
Qed.

Lemma agree_tail i rest L L' : agree (i :: rest) L L' -> agree rest L L'.
Proof. intros H j Hj. apply H. now right. Qed.

Lemma omap_agree ids L L' :
  agree ids L L' ->
  omap (fun i => L' !! i) ids = omap (fun i => L !! i) ids.
Proof.
  induction ids as [|i rest IH]; intros H; simpl; [reflexivity |].
  rewrite (H i) by left.
  destruct (L !! i); [f_equal |]; apply IH; eapply agree_tail, H.
Qed.

(** *** [returnOfCapital] *)

Lemma returnOfCapital_step_lots inv u i l s :
  lots (returnOfCapital_step inv u i l s)
  = alter (set_end (Some (INVTRAN.dttrade inv)) (Some inv)) i (lots s)
    ++ [returnOfCapital_successor inv u i l].
Proof.
  unfold returnOfCapital_step, returnOfCapital_successor, adjCost. simpl.
  destruct (Decimal.ltb _ _); simpl; [| reflexivity].
  now rewrite alter_last.
Qed.

Lemma returnOfCapital_step_gains inv u i l s :
  lots s !! i = Some l ->
  gains (returnOfCapital_step inv u i l s)
  = gains s ++ returnOfCapital_gains inv u (lots s) (length (lots s)) [i].
Proof.
  intros Hl. unfold returnOfCapital_step. simpl. rewrite Hl.
  unfold adjCost. rewrite length_alter.
  destruct (Decimal.ltb _ _); simpl; [reflexivity | now rewrite app_nil_r].
Qed.

Lemma returnOfCapital_gains_agree inv u ids : forall L L' k,
  agree ids L L' ->
  returnOfCapital_gains inv u L' k ids = returnOfCapital_gains inv u L k ids.
Proof.
  induction ids as [|i rest IH]; intros L L' k H; simpl; [reflexivity |].
  rewrite (H i) by left. rewrite (IH L L') by (eapply agree_tail, H).
  reflexivity.
Qed.

Lemma returnOfCapital_loop_spec inv u ids : forall s,
  NoDup ids ->
  (forall i, i ∈ ids -> (i < length (lots s))%nat) ->
  exists s',
    returnOfCapital_loop inv u ids s = Ok s'
    /\ successors (set_end (Some (INVTRAN.dttrade inv)) (Some inv))
                  (returnOfCapital_successor inv u) ids (lots s) (lots s')
    /\ gains s'
       = gains s ++ returnOfCapital_gains inv u (lots s) (length (lots s)) ids.
Proof.
  induction ids as [|i rest IH]; intros s Hnd Hlt; simpl.
  - eexists. split; [reflexivity |].
    split; [apply successors_nil | now rewrite app_nil_r].
  - apply NoDup_cons in Hnd as [Hi Hnd].
    assert (Hrest : forall j, j ∈ rest -> (j < length (lots s))%nat)
      by (intros j Hj; apply Hlt; now right).
    destruct (lookup_lt_is_Some_2 (lots s) i) as [l Hl];
      [apply Hlt; left |].
    rewrite Hl. simpl.
    destruct (IH (returnOfCapital_step inv u i l s) Hnd) as (s' & R & S & G).
    { intros j Hj. rewrite returnOfCapital_step_lots, length_app, length_alter.
      apply Hrest in Hj. lia. }
    exists s'. split; [exact R |].
    rewrite returnOfCapital_step_lots in S, G. split.
    + eapply successors_cons; eassumption.
    + rewrite G, (returnOfCapital_step_gains _ _ _ _ _ Hl).
      rewrite length_app, length_alter. simpl.
      rewrite Hl, <- !app_assoc, Nat.add_1_r. simpl. do 2 f_equal.
      apply returnOfCapital_gains_agree.
      now apply agree_after_step.
Qed.

(** *** [split] *)

Lemma split_loop_spec inv ratio ids : forall s n,
  NoDup ids ->
  (forall i, i ∈ ids -> (i < length (lots s))%nat) ->
  exists s',
    split_loop inv ratio ids s n
    = Ok (s', fold_left (fun acc l => Decimal.add acc (Decimal.mul (units l) ratio))
                        (rows_of s ids) n)
    /\ successors (set_end (Some (INVTRAN.dttrade inv)) (Some inv))
                  (split_successor inv ratio) ids (lots s) (lots s')
    /\ gains s' = gains s.
Proof.
  induction ids as [|i rest IH]; intros s n Hnd Hlt; simpl.
  - eexists. split; [reflexivity |]. split; [apply successors_nil | reflexivity].
  - apply NoDup_cons in Hnd as [Hi Hnd].
    assert (Hrest : forall j, j ∈ rest -> (j < length (lots s))%nat)
      by (intros j Hj; apply Hlt; now right).
    destruct (lookup_lt_is_Some_2 (lots s) i) as [l Hl];
      [apply Hlt; left |].
    rewrite Hl. simpl.
    match goal with
    | |- exists s', split_loop _ _ _ ?s1 ?n1 = _ /\ _ =>
        destruct (IH s1 n1 Hnd) as (s' & R & S & G)
    end.
    { intros j Hj. simpl. rewrite length_app, length_alter.
      apply Hrest in Hj. lia. }
    exists s'. split; [| split].
    + rewrite R. unfold rows_of. simpl.
      erewrite omap_agree; [reflexivity | now apply agree_after_step].
    + eapply successors_cons; eassumption.
    + exact G.
Qed.

(** *** [doTransfer] *)

Lemma doTransfer_loop_spec dt out inn sec ratio ids : forall s,
  NoDup ids ->
  (forall i, i ∈ ids -> (i < length (lots s))%nat) ->
  exists s',
    doTransfer_loop dt out inn sec ratio ids s = Ok s'
    /\ successors (set_end (Some dt) (Some out))
                  (transfer_successor dt inn sec ratio) ids (lots s) (lots s')
    /\ gains s' = gains s.
Proof.
  induction ids as [|i rest IH]; intros s Hnd Hlt; simpl.
  - eexists. split; [reflexivity |]. split; [apply successors_nil | reflexivity].
  - apply NoDup_cons in Hnd as [Hi Hnd].
    assert (Hrest : forall j, j ∈ rest -> (j < length (lots s))%nat)
      by (intros j Hj; apply Hlt; now right).
    destruct (lookup_lt_is_Some_2 (lots s) i) as [l Hl];
      [apply Hlt; left |].
    rewrite Hl. simpl.
    match goal with
    | |- exists s', doTransfer_loop _ _ _ _ _ _ ?s1 = _ /\ _ =>
        destruct (IH s1 Hnd) as (s' & R & S & G)
    end.
    { intros j Hj. simpl. rewrite length_app, length_alter.
      apply Hrest in Hj. lia. }
    exists s'. split; [exact R |]. split; [| exact G].
    eapply successors_cons; eassumption.
Qed.

Lemma div_defined a b :
  Decimal.is_zero b = false -> exists q, Decimal.div a b = Some q.
Proof.
  unfold Decimal.is_zero, Decimal.div. intros ->.
  destruct (Decimal.coeff a =? 0); [eauto |].
  repeat match goal with
         | |- context [let '(_, _) := ?p in _] => destruct p
         end.
  eauto.
Qed.


Lemma returnOfCapital_gains_elem inv u L ids : forall k n i l,
  ids !! n = Some i -> L !! i = Some l ->
  Decimal.ltb (adjCost u l) Decimal.zero = true ->
  mkGain (k + n) inv (Decimal.neg (adjCost u l)) Decimal.zero
    ∈ returnOfCapital_gains inv u L k ids.
Proof.
  induction ids as [|j rest IH]; intros k [|n] i l Hn Hl Hneg;
    simpl in *; try discriminate.
  - injection Hn as ->. rewrite Hl, Hneg, Nat.add_0_r. left.
  - apply elem_of_app. right.
    replace (k + S n)%nat with (S k + n)%nat by lia. eapply IH; eassumption.
Qed.

Lemma returnOfCapital_gains_inv inv u L ids : forall k g,
  g ∈ returnOfCapital_gains inv u L k ids ->
  exists i l, i ∈ ids /\ L !! i = Some l
              /\ Decimal.ltb (adjCost u l) Decimal.zero = true
              /\ proceeds g = Decimal.neg (adjCost u l)
              /\ transaction g = inv
              /\ (k <= lot g)%nat.
Proof.
  induction ids as [|j rest IH]; intros k g Hg; simpl in Hg.
  - now apply elem_of_nil in Hg.
  - apply elem_of_app in Hg as [Hg | Hg].
    + destruct (L !! j) as [l|] eqn:Hl; [| now apply elem_of_nil in Hg].
      destruct (Decimal.ltb _ _) eqn:Hneg; [| now apply elem_of_nil in Hg].
      apply list_elem_of_singleton in Hg as ->.
      exists j, l. repeat split; simpl; auto. left.
    + apply IH in Hg as (i & l & Hi & Hl & Hneg & Hp & Ht & Hk).
      exists i, l. repeat split; auto; [now right | lia].
Qed.

(** C6.  A return of capital of total [T] on date [D], not in the log yet,
    over the long lots of the security current as of [D]: when their units
    sum to zero it raises the assertion error; otherwise, with [u] the
    return per unit, it ends each of these lots and creates for it a
    successor with the same units, washcost, dtopen and opener, which
    starts on [D]; the cost of the successor is [lot.cost - lot.units * u],
    or zero when that is negative, and then a gain of the excess is created
    on the successor.  No other lot changes and no other gain is created. *)
Theorem returnOfCapital_spec s inv T :
  INVTRAN.sub inv = INVTRAN.RETOFCAP T ->
  logged s inv = false ->
  let D := INVTRAN.dttrade inv in
  let ids := fetch s (longsAsOf D None (Some (INVTRAN.secinfo inv))) in
  let totalUnits := Decimal.sum (units_of s ids) in
  (Decimal.is_zero totalUnits = true ->
     returnOfCapital s inv true = Raise AssertionError)
  /\ (Decimal.is_zero totalUnits = false ->
      exists u s',
        Decimal.div T totalUnits = Some u
        /\ returnOfCapital s inv true = Ok s'
        /\ (forall j, j ∉ ids -> (j < length (lots s))%nat ->
                      lots s' !! j = lots s !! j)
        /\ (forall i l, i ∈ ids -> lots s !! i = Some l ->
              lots s' !! i = Some (set_end (Some D) (Some inv) l)
              /\ exists k l',
                   lots s !! k = None /\ lots s' !! k = Some l'
                   /\ predecessor l' = Some i
                   /\ units l' = units l /\ washcost l' = washcost l
                   /\ dtopen l' = dtopen l /\ opener l' = opener l
                   /\ dtstart l' = D /\ starter l' = Some inv
                   /\ dtend l' = None
                   /\ let adj := Decimal.sub (cost l) (Decimal.mul (units l) u) in
                      if Decimal.ltb adj Decimal.zero
                      then cost l' = Decimal.zero
                           /\ mkGain k inv (Decimal.neg adj) Decimal.zero
                                ∈ gains s'
                      else cost l' = adj)
        /\ (forall g, g ∈ gains s' ->
              g ∈ gains s
              \/ exists i l, i ∈ ids /\ lots s !! i = Some l
                   /\ let adj := Decimal.sub (cost l) (Decimal.mul (units l) u) in
                      Decimal.ltb adj Decimal.zero = true
                      /\ proceeds g = Decimal.neg adj
                      /\ transaction g = inv
                      /\ lots s !! lot g = None)).
Proof.
  intros Hsub Hlog D ids totalUnits.
  unfold returnOfCapital. rewrite (get_or_create_new _ _ Hlog). simpl.
  change (fetch (set_ofxlog _ s) ?q) with (fetch s q).
  change (units_of (set_ofxlog _ s) ?l) with (units_of s l).
  fold D. fold ids. fold totalUnits.
  split; [now intros -> |]. intros Hnz. rewrite Hnz.
  unfold INVTRAN.total. rewrite Hsub. simpl.
  destruct (div_defined T totalUnits Hnz) as [u Hu]. rewrite Hu. simpl.
  destruct (returnOfCapital_loop_spec inv u ids
              (set_ofxlog (ofxlog s ++ [INVTRAN.id inv]) s))
    as (s' & R & (Hlen & Hout & Hin) & G).
  { apply NoDup_fetch. }
  { intros i Hi. eapply fetch_lt, Hi. }
  simpl in Hlen, Hout, Hin, G.
  exists u, s'. split; [reflexivity |]. split; [exact R |].
  split; [exact Hout |]. split.
  - intros i l Hi Hl.
    apply list_elem_of_lookup_1 in Hi as [n Hn].
    destruct (Hin n i l Hn Hl) as [Hended Hnew].
    split; [exact Hended |].
    exists (length (lots s) + n)%nat, (returnOfCapital_successor inv u i l).
    split; [apply lookup_ge_None; lia |].
    split; [exact Hnew |].
    do 8 (split; [reflexivity |]).
    simpl. fold (adjCost u l).
    destruct (Decimal.ltb (adjCost u l) Decimal.zero) eqn:Hneg;
      [| reflexivity].
    split; [reflexivity |].
    rewrite G. apply elem_of_app. right.
    eapply returnOfCapital_gains_elem; eassumption.
  - intros g Hg. rewrite G in Hg. apply elem_of_app in Hg as [Hg | Hg];
      [now left | right].
    apply returnOfCapital_gains_inv in Hg
      as (i & l & Hi & Hl & Hneg & Hp & Ht & Hk).
    exists i, l. repeat split; auto.
    now apply lookup_ge_None.
Qed.

(** The second return of capital of [testReturnOfCapital], of 1000 on a
    cost of 9.99. *)
Lemma returnOfCapital_spec_witness :
  let inv := retofcap 3 (date 2005 10 5) (dec 1000 0) in
  let s := testReturnOfCapital in
  logged s inv = false
  /\ Decimal.is_zero
       (Decimal.sum (units_of s (fetch s (longsAsOf (date 2005 10 5) None
                                                   (Some ACME))))) = false
  /\ exists u s',
       Decimal.div (dec 1000 0) (dec 300 0) = Some u
       /\ returnOfCapital s inv true = Ok s'.
Proof.
  intros inv s.
  assert (L : logged s inv = false) by (vm_compute; reflexivity).
  split; [exact L |].
  split; [vm_compute; reflexivity |].
  destruct (returnOfCapital_spec s inv (dec 1000 0) eq_refl L) as [_ Hok].
  destruct Hok as (u & s' & Hu & R & _); [vm_compute; reflexivity |].
  exists u, s'. split; [| exact R].
  rewrite <- Hu. vm_compute. reflexivity.
Defined.

(** ** Splits *)


(** What [split] does of a split that is not in the log, by the cases of
    its checks. *)
Lemma split_cases s inv old new num den :
  INVTRAN.sub inv = INVTRAN.SPLIT old new num den ->
  logged s inv = false ->
  let ids := fetch s (asOf (INVTRAN.dttrade inv) None
                           (Some (INVTRAN.secinfo inv))) in
  match Decimal.div new old, Decimal.div num den with
  | Some r, Some f =>
      if Decimal.eqb r f
      then
        if Decimal.ltb (Decimal.abs
                          (Decimal.sub (units_after_split r (rows_of s ids)) new))
                       tolerance
        then exists s',
               split s inv = Ok s'
               /\ successors (set_end (Some (INVTRAN.dttrade inv)) (Some inv))
                             (split_successor inv r) ids (lots s) (lots s')
               /\ gains s' = gains s
        else split s inv = Raise AssertionError
      else split s inv = Raise ValueError
  | _, _ => split s inv = Raise DivisionByZero
  end.
Proof.
  intros Hsub Hlog ids.
  unfold split. rewrite Hsub, (get_or_create_new _ _ Hlog). simpl.
  destruct (Decimal.div new old) as [r|]; simpl; [| reflexivity].
  destruct (Decimal.div num den) as [f|]; simpl; [| reflexivity].
  destruct (Decimal.eqb r f); simpl; [| reflexivity].
  change (fetch (set_ofxlog _ s) ?q) with (fetch s q). fold ids.
  destruct (split_loop_spec inv r ids
              (set_ofxlog (ofxlog s ++ [INVTRAN.id inv]) s) Decimal.zero)
    as (s' & R & S & G).
  { apply NoDup_fetch. }
  { intros i Hi. eapply fetch_lt, Hi. }
  rewrite R. simpl.
  change (rows_of (set_ofxlog _ s) ?l) with (rows_of s l).
  fold (units_after_split r (rows_of s ids)).
  destruct (Decimal.ltb _ tolerance); [| reflexivity].
  exists s'. auto.
Qed.




(** ** The holding period of the successors *)

Lemma get_or_create_lots s inv c s1 :
  get_or_create s inv = (c, s1) -> lots s1 = lots s /\ gains s1 = gains s.
Proof.
  unfold get_or_create. destruct (logged s inv); intros E;
    injection E as _ <-; split; reflexivity.
Qed.

Lemma keeps_opening_split inv r : keeps_opening (split_successor inv r).
Proof. intros i l. repeat split. Qed.

Lemma keeps_opening_returnOfCapital inv u :
  keeps_opening (returnOfCapital_successor inv u).
Proof. intros i l. repeat split. Qed.

Lemma keeps_opening_transfer dt inn sec ratio :
  keeps_opening (transfer_successor dt inn sec ratio).
Proof. intros i l. repeat split. Qed.

Lemma superseded_refl L : superseded L L.
Proof.
  exists None, None, (split_successor (buysell 0 datetime_min Decimal.zero Decimal.zero)
                                      Decimal.zero), [].
  split; [apply successors_nil |].
  split; [intros i Hi; now apply elem_of_nil in Hi | apply keeps_opening_split].
Qed.

(** The lots that were there keep their opening and their predecessor. *)
Lemma superseded_old L L' k l :
  superseded L L' -> L !! k = Some l ->
  exists l', L' !! k = Some l'
             /\ dtopen l' = dtopen l /\ opener l' = opener l
             /\ predecessor l' = predecessor l.
Proof.
  intros (d & t & succ & ids & (Hlen & Hout & Hin) & Hlt & Hk) Hl.
  destruct (decide (k ∈ ids)) as [Hi | Hi].
  - apply list_elem_of_lookup_1 in Hi as [n Hn].
    destruct (Hin n k l Hn Hl) as [He _].
    exists (set_end d t l). now rewrite He.
  - exists l. rewrite Hout; [auto | assumption |].
    eapply lookup_lt_Some, Hl.
Qed.

(** The new lots are successors, with the opening of their predecessor. *)
Lemma superseded_new L L' k l' :
  superseded L L' -> L !! k = None -> L' !! k = Some l' ->
  exists p lp, predecessor l' = Some p /\ L !! p = Some lp
               /\ dtopen l' = dtopen lp /\ opener l' = opener lp.
Proof.
  intros (d & t & succ & ids & (Hlen & Hout & Hin) & Hlt & Hk) Hnone Hl'.
  apply lookup_ge_None in Hnone.
  apply lookup_lt_Some in Hl' as Hk'. rewrite Hlen in Hk'.
  destruct (lookup_lt_is_Some_2 ids (k - length L)) as [i Hi]; [lia |].
  assert (Hil : (i < length L)%nat)
    by (apply Hlt; eapply list_elem_of_lookup_2, Hi).
  destruct (lookup_lt_is_Some_2 L i Hil) as [lp Hlp].
  destruct (Hin _ i lp Hi Hlp) as [_ Hnew].
  replace (length L + (k - length L))%nat with k in Hnew by lia.
  rewrite Hl' in Hnew. injection Hnew as ->.
  destruct (Hk i lp) as (Hp & Ho & Hop).
  exists i, lp. auto.
Qed.

Lemma superseded_holding_period L L' :
  superseded L L' -> holding_period_kept L -> holding_period_kept L'.
Proof.
  intros S HL k l p Hl Hp.
  destruct (L !! k) as [l0|] eqn:Hk.
  - destruct (superseded_old L L' k l0 S Hk) as (l1 & Hl1 & Hd & Ho & Hpr).
    rewrite Hl in Hl1. injection Hl1 as <-.
    destruct (HL k l0 p Hk) as (lp & Hlp & Hd' & Ho'); [congruence |].
    destruct (superseded_old L L' p lp S Hlp) as (lp' & Hlp' & Hd2 & Ho2 & _).
    exists lp'. split; [exact Hlp' |]. split; congruence.
  - destruct (superseded_new L L' k l S Hk Hl) as (p0 & lp & Hp0 & Hlp & Hd & Ho).
    assert (p0 = p) as -> by congruence.
    destruct (superseded_old L L' p lp S Hlp) as (lp' & Hlp' & Hd2 & Ho2 & _).
    exists lp'. split; [exact Hlp' |]. split; congruence.
Qed.

Lemma chain_holding_period L k a :
  holding_period_kept L -> chain L k a ->
  forall l la, L !! k = Some l -> L !! a = Some la ->
               dtopen l = dtopen la /\ opener l = opener la.
Proof.
  intros HL C. induction C as [k | k l0 p a Hl0 Hp C IH]; intros l la Hl Hla.
  - split; congruence.
  - assert (l0 = l) as -> by congruence.
    destruct (HL k l p Hl Hp) as (lp & Hlp & Hd & Ho).
    destruct (IH lp la Hlp Hla) as [Hd' Ho']. split; congruence.
Qed.

Lemma split_superseded s inv s' :
  split s inv = Ok s' -> superseded (lots s) (lots s').
Proof.
  intros H0.
  destruct (INVTRAN.sub inv) eqn:Hsub;
    try (unfold split in H0; rewrite Hsub in H0; discriminate H0).
  destruct (logged s inv) eqn:L.
  - unfold split in H0. rewrite Hsub, (get_or_create_logged _ _ L) in H0.
    simpl in H0. injection H0 as <-. apply superseded_refl.
  - pose proof (split_cases s inv _ _ _ _ Hsub L) as C. simpl in C. revert C.
    destruct (Decimal.div _ _); [| congruence].
    destruct (Decimal.div _ _); [| congruence].
    destruct (Decimal.eqb _ _); [| congruence].
    destruct (Decimal.ltb _ _); [| congruence].
    intros (s'' & R & S & _). assert (s'' = s') as -> by congruence.
    eexists _, _, _, _. split; [exact S |].
    split; [intros i Hi; eapply fetch_lt, Hi | apply keeps_opening_split].
Qed.

Lemma returnOfCapital_superseded s inv checklog s' :
  returnOfCapital s inv checklog = Ok s' -> superseded (lots s) (lots s').
Proof.
  unfold returnOfCapital.
  destruct (get_or_create s inv) as [created s1] eqn:G.
  apply get_or_create_lots in G as [<- _].
  destruct (checklog && negb created); intros H0.
  - injection H0 as <-. apply superseded_refl.
  - returned.
    match type of H0 with
    | returnOfCapital_loop _ ?u ?ids _ = _ =>
        destruct (returnOfCapital_loop_spec inv u ids s1) as (s'' & R & S & _)
    end.
    { apply NoDup_fetch. }
    { intros i Hi. eapply fetch_lt, Hi. }
    assert (s'' = s') as -> by congruence.
    eexists _, _, _, _. split; [exact S |].
    split; [intros i Hi; eapply fetch_lt, Hi
           | apply keeps_opening_returnOfCapital].
Qed.

Lemma doTransfer_loop_superseded dt out inn sec ratio s q s' :
  doTransfer_loop dt out inn sec ratio (fetch s q) s = Ok s' ->
  superseded (lots s) (lots s').
Proof.
  intros H0.
  destruct (doTransfer_loop_spec dt out inn sec ratio (fetch s q) s)
    as (s'' & R & S & _).
  { apply NoDup_fetch. }
  { intros i Hi. eapply fetch_lt, Hi. }
  assert (s'' = s') as -> by congruence.
  eexists _, _, _, _. split; [exact S |].
  split; [intros i Hi; eapply fetch_lt, Hi | apply keeps_opening_transfer].
Qed.

Lemma doTransfer_superseded `{MemoMatching} s inv s' :
  doTransfer s inv = Ok s' -> superseded (lots s) (lots s').
Proof.
  unfold doTransfer. destruct (INVTRAN.sub inv); try discriminate.
  destruct (get_or_create s inv) as [c s1] eqn:G.
  apply get_or_create_lots in G as [<- _].
  destruct c; simpl; intros H0; returned; try apply superseded_refl.
  destruct x0 as [twin|]; [| returned; apply superseded_refl].
  destruct (get_or_create s1 twin) as [c2 s3] eqn:G2.
  apply get_or_create_lots in G2 as [<- _].
  destruct c2; simpl in H0; returned; try apply superseded_refl;
    eapply doTransfer_loop_superseded; eassumption.
Qed.

(** C8.  After a split, a return of capital or a transfer that returned,
    every lot it created is the successor of a lot that was there, with the
    [dtopen] and the [opener] of that lot, and every lot that was there has
    kept its [dtopen], its [opener] and its [predecessor]; so, where every
    lot had the [dtopen] and the [opener] of its predecessor before, any two
    lots on one chain of predecessors have the same [dtopen] and the same
    [opener] after. *)
Theorem successors_keep_opening `{MemoMatching} s inv checklog s' :
  split s inv = Ok s' \/ returnOfCapital s inv checklog = Ok s'
  \/ doTransfer s inv = Ok s' ->
  (forall k l', lots s !! k = None -> lots s' !! k = Some l' ->
     exists p lp, predecessor l' = Some p /\ lots s !! p = Some lp
                  /\ dtopen l' = dtopen lp /\ opener l' = opener lp)
  /\ (forall k l, lots s !! k = Some l ->
        exists l', lots s' !! k = Some l'
                   /\ dtopen l' = dtopen l /\ opener l' = opener l
                   /\ predecessor l' = predecessor l)
  /\ (holding_period_kept (lots s) ->
      forall k a l la,
        chain (lots s') k a ->
        lots s' !! k = Some l -> lots s' !! a = Some la ->
        dtopen l = dtopen la /\ opener l = opener la).
Proof.
  intros Hop.
  assert (S : superseded (lots s) (lots s')).
  { destruct Hop as [Hs | [Hr | Ht]].
    - eapply split_superseded, Hs.
    - eapply returnOfCapital_superseded, Hr.
    - eapply doTransfer_superseded, Ht. }
  split; [intros k l' Hk Hl'; eapply superseded_new; eassumption |].
  split; [intros k l Hl; eapply superseded_old; eassumption |].
  intros HL k a l la C Hl Hla.
  eapply chain_holding_period; [| exact C | exact Hl | exact Hla].
  eapply superseded_holding_period; eassumption.
Qed.

(** The merger of ACME into NEWCO on the ledger [merger]: the 150 units of
    NEWCO were opened when the 300 units of ACME were. *)
Lemma successors_keep_opening_witness :
  let s' := returned_or merger (@doTransfer memos merger transfer_out) in
  @doTransfer memos merger transfer_out = Ok s'
  /\ forall k l', lots merger !! k = None -> lots s' !! k = Some l' ->
       exists p lp, predecessor l' = Some p /\ lots merger !! p = Some lp
                    /\ dtopen l' = dtopen lp /\ opener l' = opener lp.
Proof.
  intros s'.
  assert (E : @doTransfer memos merger transfer_out = Ok s')
    by (vm_compute; reflexivity).
  split; [exact E |].
  exact (proj1 (@successors_keep_opening memos merger transfer_out true s'
                  (or_intror (or_intror E)))).
Defined.

(** ** The lots file *)

Lemma find_unique {A : Type} (f : A -> bool) (same : A -> A -> Prop)
    (L : list A) (a : A) :
  (forall x, x ∈ L -> f x = true -> same x a) ->
  (forall x, x ∈ L -> same x a -> x = a) ->
  f a = true -> a ∈ L -> List.find f L = Some a.
Proof.
  intros Hf Hu Ha. induction L as [|x L IH]; intros Hin.
  - now apply elem_of_nil in Hin.
  - simpl. destruct (f x) eqn:Fx.
    + f_equal. apply Hu; [left | apply Hf; [left | exact Fx]].
    + apply IH.
      * intros y Hy. apply Hf. now right.
      * intros y Hy. apply Hu. now right.
      * apply elem_of_cons in Hin as [-> | Hin]; [congruence | exact Hin].
Qed.

Lemma lookup_account_found s a :
  unique_accounts s -> a ∈ accounts s ->
  lookup_account s (INVACCTFROM.brokerid a) (INVACCTFROM.acctid a) = Some a.
Proof.
  intros U Ha. unfold lookup_account.
  apply find_unique with
    (same := fun x y => INVACCTFROM.brokerid x = INVACCTFROM.brokerid y
                        /\ INVACCTFROM.acctid x = INVACCTFROM.acctid y).
  - intros x _ Hx. apply andb_prop in Hx as [H1 H2].
    now apply String.eqb_eq in H1, H2.
  - intros x Hx [H1 H2]. now apply U.
  - now rewrite !String.eqb_refl.
  - exact Ha.
Qed.

Lemma lookup_secinfo_found s a :
  unique_secinfos s -> a ∈ secinfos s ->
  lookup_secinfo s (SECINFO.uniqueid a) (SECINFO.uniqueidtype a) = Some a.
Proof.
  intros U Ha. unfold lookup_secinfo.
  apply find_unique with
    (same := fun x y => SECINFO.uniqueid x = SECINFO.uniqueid y
                        /\ SECINFO.uniqueidtype x = SECINFO.uniqueidtype y).
  - intros x _ Hx. apply andb_prop in Hx as [H1 H2].
    now apply String.eqb_eq in H1, H2.
  - intros x Hx [H1 H2]. now apply U.
  - now rewrite !String.eqb_refl.
  - exact Ha.
Qed.

(** The rows written are those of the lots current as of [dtasof]. *)
Lemma dumpCsv_rows s dtasof :
  dumpCsv s dtasof
  = map position
        (rows_of s (fetch s (asOf (default datetime_max dtasof) None None))).
Proof.
  unfold dumpCsv, rows_of.
  induction (fetch s _) as [|i ids IH]; [reflexivity |].
  cbn [omap list_omap]. destruct (lots s !! i); simpl;
    [f_equal |]; exact IH.
Qed.

Lemma loadCsv_row_position l s :
  unique_accounts s -> unique_secinfos s ->
  account l ∈ accounts s -> security l ∈ secinfos s ->
  microsecond (dtopen l) = 0 ->
  loadCsv_row (position l) s
  = Ok (length (lots s), set_lots (lots s ++ [reloaded l]) s).
Proof.
  intros Ua Us Ha Hs Hm. unfold loadCsv_row, position. simpl.
  rewrite (lookup_account_found s _ Ua Ha), (lookup_secinfo_found s _ Us Hs).
  unfold strptime_str. rewrite Hm. reflexivity.
Qed.

Lemma loadCsv_positions ls : forall s,
  unique_accounts s -> unique_secinfos s ->
  (forall l, l ∈ ls -> account l ∈ accounts s /\ security l ∈ secinfos s
                       /\ microsecond (dtopen l) = 0) ->
  loadCsv (map position ls) s
  = Ok (seq (length (lots s)) (length ls),
        set_lots (lots s ++ map reloaded ls) s).
Proof.
  induction ls as [|l ls IH]; intros s Ua Us Hls.
  - simpl. rewrite app_nil_r. now destruct s.
  - destruct (Hls l) as (Ha & Hs & Hm); [left |].
    cbn [map loadCsv].
    rewrite (loadCsv_row_position l s Ua Us Ha Hs Hm). simpl.
    rewrite IH; [| exact Ua | exact Us | intros x Hx; apply Hls; now right].
    simpl. rewrite length_app, <- app_assoc. simpl.
    now replace (length (lots s) + 1)%nat with (S (length (lots s))) by lia.
Qed.

Lemma to_int_whole (w : Decimal) :
  Decimal.expo w = 0 -> Decimal.of_Z (Decimal.to_int w) = w.
Proof.
  destruct w as [c e]. simpl. intros ->.
  unfold Decimal.to_int, Decimal.of_Z. simpl. f_equal. lia.
Qed.

(** What [dumpCsv] followed by [loadCsv] makes of the lots.  Where no two
    accounts and no two securities share their key, it returns, for each lot
    current as of [dtasof] (its account and its security being in their
    tables, its [dtopen] being without microseconds), in their order, a new
    lot with its account, security, [dtopen], [units] and [cost]; the
    [dtstart] of the new lot is the [dtopen] of the row, and its [washcost]
    is the integer that [dumpCsv] wrote, [int(lot.washcost)]. *)
Theorem csv_round_trip s dtasof :
  let ids := fetch s (asOf (default datetime_max dtasof) None None) in
  let dumped := rows_of s ids in
  unique_accounts s -> unique_secinfos s ->
  (forall l, l ∈ dumped -> account l ∈ accounts s /\ security l ∈ secinfos s
                           /\ microsecond (dtopen l) = 0) ->
  exists s',
    loadCsv (dumpCsv s dtasof) s
    = Ok (seq (length (lots s)) (length dumped), s')
    /\ length (lots s') = (length (lots s) + length dumped)%nat
    /\ (forall k, (k < length (lots s))%nat -> lots s' !! k = lots s !! k)
    /\ forall n l, dumped !! n = Some l ->
         exists l',
           lots s' !! (length (lots s) + n)%nat = Some l'
           /\ account l' = account l /\ security l' = security l
           /\ dtopen l' = dtopen l /\ dtstart l' = dtopen l
           /\ units l' = units l /\ cost l' = cost l
           /\ washcost l' = Decimal.of_Z (Decimal.to_int (washcost l))
           /\ (Decimal.expo (washcost l) = 0 -> washcost l' = washcost l).
Proof.
  intros ids dumped Ua Us Hls.
  exists (set_lots (lots s ++ map reloaded dumped) s).
  split; [rewrite dumpCsv_rows; now apply loadCsv_positions |].
  simpl. split; [now rewrite length_app, length_map |].
  split; [intros k Hk; now apply lookup_app_l |].
  intros n l Hn. exists (reloaded l).
  split.
  - rewrite lookup_app_r by lia.
    replace (length (lots s) + n - length (lots s))%nat with n by lia.
    now rewrite list_lookup_fmap, Hn.
  - simpl. do 7 (split; [reflexivity |]). apply to_int_whole.
Qed.


(** The round trip of the ledger of [testReturnOfCapital], whose current
    lot is the successor of the lot bought. *)
Lemma csv_round_trip_witness :
  let s := testReturnOfCapital in
  exists s' l l',
    loadCsv (dumpCsv s None) s = Ok ([2%nat], s')
    /\ lots s !! 1%nat = Some l /\ lots s' !! 2%nat = Some l'
    /\ units l' = units l /\ cost l' = cost l /\ dtopen l' = dtopen l.
Proof.
  intros s.
  assert (EA : accounts s = [acctfrom]) by (vm_compute; reflexivity).
  assert (ES : secinfos s = [ACME]) by (vm_compute; reflexivity).
  assert (EL : length (lots s) = 2%nat) by (vm_compute; reflexivity).
  assert (E : exists l,
             rows_of s (fetch s (asOf (default datetime_max None) None None))
             = [l]
             /\ lots s !! 1%nat = Some l
             /\ account l = acctfrom /\ security l = ACME
             /\ microsecond (dtopen l) = 0).
  { eexists. by_computation. }
  destruct E as (l & E & Hl & Ha & Hs & Hm).
  assert (Ua : unique_accounts s).
  { intros a b Ha' Hb' _ _. rewrite EA in Ha', Hb'.
    apply list_elem_of_singleton in Ha', Hb'. congruence. }
  assert (Us : unique_secinfos s).
  { intros a b Ha' Hb' _ _. rewrite ES in Ha', Hb'.
    apply list_elem_of_singleton in Ha', Hb'. congruence. }
  pose proof (csv_round_trip s None Ua Us) as T. cbv zeta in T.
  rewrite E, EL in T.
  destruct T as (s' & R & _ & _ & Hnew).
  { intros x Hx. apply list_elem_of_singleton in Hx. subst x.
    rewrite EA, ES, Ha, Hs.
    split; [now left |]. split; [now left | exact Hm]. }
  destruct (Hnew 0%nat l eq_refl)
    as (l' & Hl' & _ & _ & Hd & _ & Hu & Hc & _).
  exists s', l, l'. split; [exact R |]. split; [exact Hl |].
  split; [exact Hl' |]. split; [exact Hu |]. split; [exact Hc | exact Hd].
Defined.

(** The file has no column for [dtstart].  In the ledger of
    [testReturnOfCapital] the lot that is current, of key 1, started on
    2005-10-04, when capital was returned on the lot opened on 2005-10-03;
    the lot loaded from its row, of key 2, starts on 2005-10-03. *)
Lemma loadCsv_starts_on_dtopen :
  exists s' l l',
    loadCsv (dumpCsv testReturnOfCapital None) testReturnOfCapital
    = Ok ([2%nat], s')
    /\ lots testReturnOfCapital !! 1%nat = Some l
    /\ lots s' !! 2%nat = Some l'
    /\ dumpCsv testReturnOfCapital None = [position l]
    /\ dtstart l = date 2005 10 4
    /\ dtstart l' = date 2005 10 3
    /\ dtstart l' <> dtstart l.
Proof.
  do 3 eexists. by_computation.
  vm_compute. discriminate.
Qed.

(** C5.  [dumpCsv] writes [int(lot.washcost)], where it writes the units
    and the cost as they are.  In the ledger [washed] the lot that is
    current, of key 2, has 200 units, cost 1006.66 and washcost 411.655;
    the lot loaded from its row, of key 3, has its units, cost, [dtopen]
    and [dtstart], and washcost 411. *)
Theorem dumpCsv_truncates_washcost :
  exists l s' l',
    fetch washed (asOf datetime_max None None) = [2%nat]
    /\ lots washed !! 2%nat = Some l
    /\ Decimal.eqb (units l) (dec 200 0) = true
    /\ Decimal.eqb (cost l) (dec 100666 2) = true
    /\ Decimal.eqb (washcost l) (dec 411655 3) = true
    /\ dumpCsv washed None = [position l]
    /\ row_washcost (position l) = 411
    /\ loadCsv (dumpCsv washed None) washed = Ok ([3%nat], s')
    /\ lots s' !! 3%nat = Some l'
    /\ units l' = units l /\ cost l' = cost l
    /\ dtopen l' = dtopen l /\ dtstart l' = dtstart l
    /\ washcost l' = dec 411 0
    /\ Decimal.eqb (washcost l') (washcost l) = false.
Proof.
  do 3 eexists.
  split; [vm_compute; reflexivity |].
  split; [vm_compute; reflexivity |].
  by_computation.
Qed.


(** * More of the ledger *)

(** ** The order of a query *)

Lemma StronglySorted_seq a n : StronglySorted lt (seq a n).
Proof.
  revert a. induction n as [|n IH]; intros a; simpl; constructor.
  - apply IH.
  - apply Forall_forall. intros x Hx.
    apply list_elem_of_In, in_seq in Hx. lia.
Qed.

Lemma StronglySorted_filter {A : Type} (R : A -> A -> Prop) (f : A -> bool) l :
  StronglySorted R l -> StronglySorted R (List.filter f l).
Proof.
  induction 1 as [|x l Hl IH Hx]; simpl; [constructor |].
  destruct (f x); [| exact IH].
  constructor; [exact IH |].
  apply Forall_forall. intros y Hy.
  apply list_elem_of_In, filter_In in Hy as [Hy _].
  rewrite Forall_forall in Hx. apply Hx. now apply list_elem_of_In.
Qed.

Lemma ordered_before_trans key i j k :
  ordered_before key i j -> ordered_before key j k -> ordered_before key i k.
Proof. unfold ordered_before. lia. Qed.

Lemma insert_by_sorted key i l :
  StronglySorted (ordered_before key) l ->
  Forall (lt i) l ->
  StronglySorted (ordered_before key) (insert_by key i l).
Proof.
  induction 1 as [|j r Hr IH Hj]; intros Hi; simpl.
  - repeat constructor.
  - apply Forall_cons in Hi as [Hij Hi].
    destruct (key i <=? key j) eqn:K.
    + apply Z.leb_le in K.
      assert (Oij : ordered_before key i j) by (unfold ordered_before; lia).
      constructor; [now constructor |].
      constructor; [exact Oij |].
      eapply Forall_impl; [exact Hj |].
      intros x Hx. eapply ordered_before_trans; eassumption.
    + apply Z.leb_gt in K.
      constructor; [now apply IH |].
      rewrite insert_by_Permutation.
      constructor; [unfold ordered_before; lia | exact Hj].
Qed.

Lemma order_by_sorted key l :
  StronglySorted lt l -> StronglySorted (ordered_before key) (order_by key l).
Proof.
  induction 1 as [|i r Hr IH Hi]; simpl; [constructor |].
  apply insert_by_sorted; [exact IH |].
  now rewrite order_by_Permutation.
Qed.

Lemma StronglySorted_lookup {A : Type} (R : A -> A -> Prop) l :
  StronglySorted R l ->
  forall m n x y, (m < n)%nat -> l !! m = Some x -> l !! n = Some y -> R x y.
Proof.
  induction 1 as [|a l Hl IH Ha]; intros m n x y Hmn Hm Hn.
  - now rewrite lookup_nil in Hm.
  - destruct n as [|n]; [lia |]. simpl in Hn.
    destruct m as [|m]; simpl in Hm.
    + injection Hm as <-. rewrite Forall_forall in Ha.
      eapply Ha, list_elem_of_lookup_2, Hn.
    + eapply (IH m n); [lia | eassumption | eassumption].
Qed.

Lemma fetch_sorted (q : Query) s :
  StronglySorted (ordered_before (lot_dtopen_key s)) (fetch s q).
Proof.
  unfold fetch, select.
  apply order_by_sorted, StronglySorted_filter, StronglySorted_seq.
Qed.

(** X1.  [Lot.asOf(dtasof, account, security)] returns each lot that
    started on or before [dtasof], has not ended by then, and is of the
    account and of the security when these are given; each once, and no
    other row; ordered by [dtopen], and by key where the [dtopen] are the
    same. *)
Theorem asOf_rows s dtasof acct sec :
  let ids := fetch s (asOf dtasof acct sec) in
  NoDup ids
  /\ (forall i,
        i ∈ ids <->
        exists l, lots s !! i = Some l
                  /\ to_us (dtstart l) <= to_us dtasof
                  /\ (forall e, dtend l = Some e -> to_us dtasof < to_us e)
                  /\ (forall a, acct = Some a ->
                                INVACCTFROM.id (account l) = INVACCTFROM.id a)
                  /\ (forall x, sec = Some x ->
                                SECINFO.id (security l) = SECINFO.id x))
  /\ (forall m n i j,
        (m < n)%nat -> ids !! m = Some i -> ids !! n = Some j ->
        exists li lj,
          lots s !! i = Some li /\ lots s !! j = Some lj
          /\ (to_us (dtopen li) < to_us (dtopen lj)
              \/ (to_us (dtopen li) = to_us (dtopen lj) /\ (i < j)%nat))).
Proof.
  intros ids. split; [apply NoDup_fetch |]. split.
  - intros i. unfold ids. rewrite elem_of_fetch.
    split; intros (l & Hl & Hq); exists l; (split; [exact Hl |]).
    + unfold asOf in Hq.
      apply andb_prop in Hq as [Hq Hs]. apply andb_prop in Hq as [Hq Ha].
      apply andb_prop in Hq as [Hd He].
      split; [now apply Z.leb_le in Hd |].
      split; [intros e Ee; rewrite Ee in He; now apply Z.ltb_lt in He |].
      split.
      * intros a ->. now apply Nat.eqb_eq in Ha.
      * intros x ->. now apply Nat.eqb_eq in Hs.
    + destruct Hq as (Hd & He & Ha & Hs). unfold asOf.
      repeat (apply andb_true_intro; split).
      * now apply Z.leb_le.
      * destruct (dtend l) as [e|]; [| reflexivity].
        apply Z.ltb_lt. now apply He.
      * destruct acct as [a|]; [| reflexivity].
        apply Nat.eqb_eq. now apply Ha.
      * destruct sec as [x|]; [| reflexivity].
        apply Nat.eqb_eq. now apply Hs.
  - intros m n i j Hmn Hm Hn.
    pose proof (StronglySorted_lookup _ _ (fetch_sorted (asOf dtasof acct sec) s)
                  m n i j Hmn Hm Hn) as O.
    assert (Hi : i ∈ ids) by (eapply list_elem_of_lookup_2, Hm).
    assert (Hj : j ∈ ids) by (eapply list_elem_of_lookup_2, Hn).
    apply elem_of_fetch in Hi as (li & Hli & _).
    apply elem_of_fetch in Hj as (lj & Hlj & _).
    exists li, lj. split; [exact Hli |]. split; [exact Hlj |].
    unfold ordered_before, lot_dtopen_key in O. now rewrite Hli, Hlj in O.
Qed.

(** ** Trades *)

Lemma mul_zero_l a b :
  Decimal.is_zero a = true -> Decimal.coeff (Decimal.mul a b) = 0.
Proof.
  unfold Decimal.is_zero, Decimal.mul, Decimal.fix_. intros E.
  apply Z.eqb_eq in E. rewrite E, Z.mul_0_l. reflexivity.
Qed.

(** Units of opposite signs are not zero. *)
Lemma opposite_nonzero u l :
  opposite u l = true ->
  Decimal.is_zero u = false /\ Decimal.is_zero (units l) = false.
Proof.
  intros O. split.
  - destruct (Decimal.is_zero u) eqn:Z; [| reflexivity].
    now rewrite (opposite_zero u l Z) in O.
  - destruct (Decimal.is_zero (units l)) eqn:Z; [| reflexivity].
    unfold opposite in O.
    now rewrite (ltb_zero_coeff _ (mul_zero_l _ u Z)) in O.
Qed.

(** One pass of the loop of [trade]: the lot is closed and gets a gain;
    when it is divided, the units that stay open go to one new lot, and
    nothing is left of the trade. *)
Lemma trade_step_spec inv tunits total i l s u :
  lots s !! i = Some l ->
  Decimal.is_zero tunits = false ->
  Decimal.is_zero (units l) = false ->
  exists s' u' l' g,
    trade_step inv tunits total i l s u = Ok (s', u')
    /\ lots s' !! i = Some l' /\ closed_by inv l'
    /\ gains s' = gains s ++ [g]
    /\ lot g = i /\ transaction g = inv /\ washloss g = Decimal.zero
    /\ (forall j, j <> i -> (j < length (lots s))%nat ->
                  lots s' !! j = lots s !! j)
    /\ (length (lots s') = length (lots s)
        \/ (length (lots s') = S (length (lots s)) /\ u' = Decimal.zero
            /\ exists uo co,
                 lots s' !! length (lots s)
                 = Some (newLot (account l) (security l) uo co
                                (dtopen l) (opener l) (dtstart l) (starter l)))).
Proof.
  intros Hl Zt Zl. unfold trade_step.
  destruct (Decimal.leb _ _).
  - simpl. rewrite list_lookup_alter_eq, Hl. simpl.
    destruct (div_defined (units l) tunits Zt) as [q Hq]. rewrite Hq. simpl.
    eexists _, _, _, _. split; [reflexivity |]. simpl.
    rewrite list_lookup_alter_eq, Hl. simpl.
    split; [reflexivity |]. split; [repeat split |].
    split; [reflexivity |]. do 3 (split; [reflexivity |]).
    split; [intros j Hj _; now apply list_lookup_alter_ne |].
    left. now rewrite length_alter.
  - unfold unitCost.
    destruct (div_defined (cost l) (units l) Zl) as [uc Huc].
    rewrite Huc. simpl.
    assert (Hi : (i < length (lots s))%nat) by (eapply lookup_lt_Some, Hl).
    rewrite list_lookup_alter_eq, lookup_app_l by (now rewrite length_alter).
    rewrite list_lookup_alter_eq, Hl. simpl.
    match goal with
    | |- context [Decimal.div ?a tunits] =>
        destruct (div_defined a tunits Zt) as [q Hq]; rewrite Hq
    end.
    simpl.
    eexists _, _, _, _. split; [reflexivity |]. simpl.
    rewrite list_lookup_alter_eq, lookup_app_l by (now rewrite length_alter).
    rewrite list_lookup_alter_eq, Hl. simpl.
    split; [reflexivity |]. split; [repeat split |].
    split; [reflexivity |]. do 3 (split; [reflexivity |]).
    split.
    + intros j Hj Hlt. rewrite list_lookup_alter_ne by congruence.
      rewrite lookup_app_l by (now rewrite length_alter).
      now apply list_lookup_alter_ne.
    + right. rewrite length_alter, length_app, length_alter. simpl.
      split; [lia |]. split; [reflexivity |].
      eexists _, _.
      rewrite list_lookup_alter_ne by lia.
      rewrite lookup_app_r by (rewrite length_alter; lia).
      now rewrite length_alter, Nat.sub_diag.
Qed.

(** The loop of [trade] closes the first [n] lots of the query, in its
    order, and leaves the others as they are. *)
Lemma trade_loop_spec inv tunits total ids : forall s u,
  NoDup ids ->
  (forall i, i ∈ ids ->
     exists l, lots s !! i = Some l /\ Decimal.is_zero (units l) = false) ->
  Decimal.is_zero tunits = false ->
  exists n s' u' gs,
    trade_loop inv tunits total ids s u = Ok (s', u')
    /\ (n <= length ids)%nat
    /\ (forall m i, ids !! m = Some i -> (m < n)%nat ->
          exists l', lots s' !! i = Some l' /\ closed_by inv l')
    /\ (forall m i, ids !! m = Some i -> (n <= m)%nat ->
          lots s' !! i = lots s !! i)
    /\ (forall j, j ∉ ids -> (j < length (lots s))%nat ->
                  lots s' !! j = lots s !! j)
    /\ gains s' = gains s ++ gs
    /\ map lot gs = take n ids
    /\ (forall g, g ∈ gs -> transaction g = inv /\ washloss g = Decimal.zero)
    /\ (Decimal.is_zero u = true -> s' = s /\ u' = u)
    /\ (length (lots s') = length (lots s)
        \/ (length (lots s') = S (length (lots s))
            /\ Decimal.is_zero u' = true
            /\ exists i l uo co,
                 i ∈ ids /\ lots s !! i = Some l
                 /\ lots s' !! length (lots s)
                    = Some (newLot (account l) (security l) uo co
                                   (dtopen l) (opener l)
                                   (dtstart l) (starter l)))).
Proof.
  induction ids as [|i rest IH]; intros s u Hnd Hids Zt.
  - exists 0%nat, s, u, []. simpl. rewrite app_nil_r.
    split; [reflexivity |]. split; [lia |].
    split; [intros m i Hm; now rewrite lookup_nil in Hm |].
    split; [reflexivity |]. split; [reflexivity |].
    split; [reflexivity |]. split; [reflexivity |].
    split; [intros g Hg; now apply elem_of_nil in Hg |].
    split; [auto |]. now left.
  - apply NoDup_cons in Hnd as [Hi Hnd]. simpl.
    destruct (Decimal.is_zero u) eqn:Zu.
    + exists 0%nat, s, u, []. simpl. rewrite app_nil_r.
      split; [reflexivity |]. split; [lia |].
      split; [intros m j _ Hm; lia |].
      split; [reflexivity |]. split; [reflexivity |].
      split; [reflexivity |]. split; [reflexivity |].
      split; [intros g Hg; now apply elem_of_nil in Hg |].
      split; [auto |]. now left.
    + destruct (Hids i) as (l & Hl & Zl); [left |].
      rewrite Hl. simpl.
      destruct (trade_step_spec inv tunits total i l s u Hl Zt Zl)
        as (s1 & u1 & l1 & g & R & Hl1 & Hc & Hg & Hgl & Hgt & Hgw & Hout & Hlen).
      rewrite R. simpl.
      assert (Hle : (length (lots s) <= length (lots s1))%nat)
        by (destruct Hlen as [-> | [-> _]]; lia).
      assert (Hi' : (i < length (lots s))%nat) by (eapply lookup_lt_Some, Hl).
      destruct (IH s1 u1 Hnd) as
        (n & s' & u' & gs & R' & Hn & Hclosed & Hlater & Hother & Hgs & Hlot
           & Htr & Hz & Hlen'); [| exact Zt |].
      { intros j Hj. destruct (Hids j) as (lj & Hlj & Zj); [now right |].
        exists lj. split; [| exact Zj].
        rewrite Hout; [exact Hlj | intros ->; contradiction |].
        eapply lookup_lt_Some, Hlj. }
      exists (S n), s', u', (g :: gs).
      split; [exact R' |]. split; [simpl; lia |].
      split.
      { intros [|m] j Hm Hlt; simpl in Hm.
        - injection Hm as <-. exists l1. split; [| exact Hc].
          rewrite Hother; [exact Hl1 | exact Hi | lia].
        - eapply Hclosed; [exact Hm | lia]. }
      split.
      { intros [|m] j Hm Hge; [lia |]. simpl in Hm.
        rewrite (Hlater m j Hm) by lia.
        apply Hout.
        - intros ->. apply Hi. eapply list_elem_of_lookup_2, Hm.
        - destruct (Hids j) as (lj & Hlj & _);
            [right; eapply list_elem_of_lookup_2, Hm |].
          eapply lookup_lt_Some, Hlj. }
      split.
      { intros j Hj Hlt. apply not_elem_of_cons in Hj as [Hne Hj].
        rewrite Hother by (auto; lia). now apply Hout. }
      split; [rewrite Hgs, Hg, <- app_assoc; reflexivity |].
      split; [simpl; now rewrite Hgl, Hlot |].
      split.
      { intros g' Hg'. apply elem_of_cons in Hg' as [-> | Hg'];
          [split; assumption | now apply Htr]. }
      split; [intros Z; discriminate Z |].
      destruct Hlen as [E | (E & -> & uo & co & Hnew)].
      * rewrite <- E.
        destruct Hlen' as [E' | (E' & Z' & j & lj & uo & co & Hj & Hlj & Hnew)];
          [now left | right].
        split; [exact E' |]. split; [exact Z' |].
        exists j, lj, uo, co. split; [now right |].
        split; [| exact Hnew].
        rewrite <- Hlj. symmetry. apply Hout.
        -- intros ->. contradiction.
        -- destruct (Hids j) as (l0 & Hl0 & _); [now right |].
           eapply lookup_lt_Some, Hl0.
      * destruct (Hz eq_refl) as [-> ->]. right.
        split; [exact E |]. split; [reflexivity |].
        exists i, l, uo, co. split; [left |]. split; [exact Hl | exact Hnew].
Qed.



(** ** What the handlers never do *)

Lemma same_origin_refl l : same_origin l l.
Proof. repeat split. Qed.

Lemma same_origin_trans l1 l2 l3 :
  same_origin l1 l2 -> same_origin l2 l3 -> same_origin l1 l3.
Proof.
  unfold same_origin. intros (? & ? & ? & ? & ? & ? & ?) (? & ? & ? & ? & ? & ? & ?).
  repeat split; congruence.
Qed.

Lemma append_only_refl s : append_only s s.
Proof.
  split; [intros k l Hl; exists l; split; [exact Hl | apply same_origin_refl] |].
  split; [reflexivity | repeat split].
Qed.

Lemma append_only_trans s1 s2 s3 :
  append_only s1 s2 -> append_only s2 s3 -> append_only s1 s3.
Proof.
  intros (L1 & G1 & I1 & A1 & S1) (L2 & G2 & I2 & A2 & S2).
  split; [| split; [etransitivity; eassumption | repeat split; congruence]].
  intros k l Hl. destruct (L1 k l Hl) as (l2 & Hl2 & O2).
  destruct (L2 k l2 Hl2) as (l3 & Hl3 & O3).
  exists l3. split; [exact Hl3 | eapply same_origin_trans; eassumption].
Qed.

Lemma append_only_update_lot i f s :
  (forall l, same_origin l (f l)) -> append_only s (update_lot i f s).
Proof.
  intros Hf. split; [| split; [reflexivity | repeat split]].
  intros k l Hl. simpl. destruct (decide (k = i)) as [-> | Hne].
  - exists (f l). rewrite list_lookup_alter_eq, Hl. split; [reflexivity | apply Hf].
  - exists l. rewrite list_lookup_alter_ne by congruence.
    split; [exact Hl | apply same_origin_refl].
Qed.

Lemma append_only_add_lot l s : append_only s (snd (add_lot l s)).
Proof.
  split; [| split; [reflexivity | repeat split]].
  intros k l0 Hl. exists l0. simpl.
  rewrite lookup_app_l by (eapply lookup_lt_Some, Hl).
  split; [exact Hl | apply same_origin_refl].
Qed.

Lemma append_only_set_lots_app L l s :
  L = lots s -> append_only s (set_lots (L ++ [l]) s).
Proof. intros ->. apply append_only_add_lot. Qed.

Lemma append_only_add_gain g s : append_only s (add_gain g s).
Proof.
  split; [| split; [now apply prefix_app_r | repeat split]].
  intros k l Hl. exists l. split; [exact Hl | apply same_origin_refl].
Qed.

Lemma append_only_set_ofxlog x s : append_only s (set_ofxlog x s).
Proof.
  split; [| split; [reflexivity | repeat split]].
  intros k l Hl. exists l. split; [exact Hl | apply same_origin_refl].
Qed.

Lemma append_only_get_or_create s inv c s1 :
  get_or_create s inv = (c, s1) -> append_only s s1.
Proof.
  unfold get_or_create. destruct (logged s inv); intros E; injection E as _ <-.
  - apply append_only_refl.
  - apply append_only_set_ofxlog.
Qed.

(** A session made of assignments to the columns that [same_origin] leaves
    out, of new lots and of new gains. *)
Ltac appended :=
  repeat first
    [ apply append_only_refl
    | eapply append_only_trans; [| apply append_only_add_gain]
    | eapply append_only_trans; [| apply append_only_add_lot]
    | eapply append_only_trans;
        [| apply append_only_set_lots_app; reflexivity]
    | eapply append_only_trans;
        [| apply append_only_update_lot; intros ?; repeat split ] ].

Lemma trade_step_append_only inv tu tt i l s u s' u' :
  trade_step inv tu tt i l s u = Ok (s', u') -> append_only s s'.
Proof.
  unfold trade_step. intros H. returned; appended.
Qed.

Lemma trade_loop_append_only inv tu tt ids : forall s u s' u',
  trade_loop inv tu tt ids s u = Ok (s', u') -> append_only s s'.
Proof.
  induction ids as [|i rest IH]; simpl; intros s u s' u' H.
  - returned. apply append_only_refl.
  - destruct (Decimal.is_zero u); [returned; apply append_only_refl |].
    returned. destruct x0 as [s1 u1].
    eapply append_only_trans;
      [eapply trade_step_append_only | eapply IH]; eassumption.
Qed.

Lemma returnOfCapital_step_append_only inv u i l s :
  append_only s (returnOfCapital_step inv u i l s).
Proof.
  unfold returnOfCapital_step.
  change (add_lot ?x ?y) with (length (lots y), snd (add_lot x y)).
  cbv beta iota. destruct (Decimal.ltb _ _); appended.
Qed.

Lemma returnOfCapital_loop_append_only inv u ids : forall s s',
  returnOfCapital_loop inv u ids s = Ok s' -> append_only s s'.
Proof.
  induction ids as [|i rest IH]; simpl; intros s s' H; returned.
  - apply append_only_refl.
  - eapply append_only_trans;
      [apply returnOfCapital_step_append_only | eapply IH; eassumption].
Qed.

Lemma split_loop_append_only inv ratio ids : forall s n s' n',
  split_loop inv ratio ids s n = Ok (s', n') -> append_only s s'.
Proof.
  induction ids as [|i rest IH]; simpl; intros s n s' n' H; returned.
  - apply append_only_refl.
  - eapply append_only_trans; [| eapply IH; eassumption].
    unfold split_step in *. returned. appended.
Qed.

Lemma doTransfer_loop_append_only dt out inn sec ratio ids : forall s s',
  doTransfer_loop dt out inn sec ratio ids s = Ok s' -> append_only s s'.
Proof.
  induction ids as [|i rest IH]; simpl; intros s s' H; returned.
  - apply append_only_refl.
  - eapply append_only_trans; [| eapply IH; eassumption].
    unfold doTransfer_step. appended.
Qed.

Lemma trade_append_only s inv s' : trade s inv = Ok s' -> append_only s s'.
Proof.
  unfold trade. destruct (INVTRAN.sub inv); try discriminate.
  destruct (get_or_create s inv) as [c s1] eqn:G.
  apply append_only_get_or_create in G.
  destruct c; simpl; intros H0; returned; auto;
    (eapply append_only_trans; [exact G |]);
    (eapply append_only_trans; [eapply trade_loop_append_only; eassumption |]);
    appended.
Qed.

Lemma returnOfCapital_append_only s inv checklog s' :
  returnOfCapital s inv checklog = Ok s' -> append_only s s'.
Proof.
  unfold returnOfCapital.
  destruct (get_or_create s inv) as [c s1] eqn:G.
  apply append_only_get_or_create in G.
  intros H0; returned; auto;
    (eapply append_only_trans; [exact G |]);
    eapply returnOfCapital_loop_append_only; eassumption.
Qed.

Lemma split_append_only s inv s' : split s inv = Ok s' -> append_only s s'.
Proof.
  unfold split. destruct (INVTRAN.sub inv); try discriminate.
  destruct (get_or_create s inv) as [c s1] eqn:G.
  apply append_only_get_or_create in G.
  destruct c; simpl; intros H0; returned; auto.
  eapply append_only_trans; [exact G |].
  eapply split_loop_append_only; eassumption.
Qed.

Lemma doTransfer_append_only `{MemoMatching} s inv s' :
  doTransfer s inv = Ok s' -> append_only s s'.
Proof.
  unfold doTransfer. destruct (INVTRAN.sub inv); try discriminate.
  destruct (get_or_create s inv) as [c s1] eqn:G.
  apply append_only_get_or_create in G.
  destruct c; simpl; intros H0; returned; auto.
  destruct x0 as [twin|]; [| returned; auto].
  destruct (get_or_create s1 twin) as [c2 s3] eqn:G2.
  apply append_only_get_or_create in G2.
  assert (G3 : append_only s s3) by (eapply append_only_trans; eassumption).
  destruct c2; simpl in H0; returned; auto;
    (eapply append_only_trans; [exact G3 |]);
    eapply doTransfer_loop_append_only; eassumption.
Qed.

Lemma doIncome_append_only `{MemoMatching} s inv s' :
  doIncome s inv = Ok s' -> append_only s s'.
Proof.
  unfold doIncome. destruct (INVTRAN.sub inv); try discriminate.
  destruct (get_or_create s inv) as [c s1] eqn:G.
  apply append_only_get_or_create in G.
  destruct c; simpl; intros H0; returned; auto.
  destruct (fold_right insert_invtran [] _) as [|r rest].
  - apply returnOfCapital_append_only in H0.
    eapply append_only_trans; eassumption.
  - returned.
    destruct (get_or_create s1 r) as [c2 s2] eqn:G2.
    apply append_only_get_or_create in G2. simpl.
    eapply append_only_trans; eassumption.
Qed.

Lemma doInvtran_append_only `{MemoMatching} s inv s' :
  doInvtran s inv = Ok s' -> append_only s s'.
Proof.
  unfold doInvtran, brokerquirks.
  destruct (String.eqb _ _), (INVTRAN.sub inv) eqn:E; intros H0;
    try (injection H0 as <-; apply append_only_refl);
    try (now apply trade_append_only in H0);
    try (now apply split_append_only in H0);
    try (now apply returnOfCapital_append_only in H0);
    try (now apply doTransfer_append_only in H0);
    try (now apply doIncome_append_only in H0).
Qed.

Lemma doInvtran_each_append_only `{MemoMatching} l : forall s s',
  doInvtran_each l s = Ok s' -> append_only s s'.
Proof.
  induction l as [|inv rest IH]; simpl; intros s s' H0; returned.
  - apply append_only_refl.
  - eapply append_only_trans; [eapply doInvtran_append_only | eapply IH];
      eassumption.
Qed.

(** X3.  Processing the transactions of a window never removes a lot or a
    gain and never rewrites where a lot comes from: every lot that was there
    is still there under its key, with its account, security, [dtopen],
    [opener], [dtstart], [starter] and [predecessor]; the gains that were
    there are unchanged and come before the new ones; the transactions, the
    accounts and the securities are as they were, and what was in the event
    log still is. *)
Theorem doInvtrans_append_only `{MemoMatching} s from to s' :
  doInvtrans s from to = Ok s' ->
  (forall k l, lots s !! k = Some l ->
     exists l', lots s' !! k = Some l'
                /\ account l' = account l /\ security l' = security l
                /\ dtopen l' = dtopen l /\ opener l' = opener l
                /\ dtstart l' = dtstart l /\ starter l' = starter l
                /\ predecessor l' = predecessor l)
  /\ (exists gs, gains s' = gains s ++ gs)
  /\ invtrans s' = invtrans s
  /\ accounts s' = accounts s /\ secinfos s' = secinfos s
  /\ (forall inv, logged s inv = true -> logged s' inv = true).
Proof.
  unfold doInvtrans. intros H0.
  pose proof (doInvtran_each_append_only _ _ _ H0) as (L & G & I & A & S).
  apply doInvtran_each_done in H0 as [[Hlog _] _].
  split; [exact L |]. split; [exact G |].
  split; [exact I |]. split; [exact A |]. split; [exact S | exact Hlog].
Qed.

(** The two trades of [testTrade], processed by the driver. *)
Lemma doInvtrans_append_only_witness :
  let s := ledger testTrade in
  let s' := returned_or s (@doInvtrans memos s None None) in
  @doInvtrans memos s None None = Ok s'
  /\ invtrans s' = invtrans s
  /\ exists gs, gains s' = gains s ++ gs.
Proof.
  intros s s'.
  assert (E : @doInvtrans memos s None None = Ok s')
    by (vm_compute; reflexivity).
  split; [exact E |].
  destruct (@doInvtrans_append_only memos s None None s' E)
    as (_ & G & I & _).
  split; [exact I | exact G].
Defined.

(** ** Queries as of an earlier date *)

Lemma insert_by_ext key key' i l :
  key i = key' i -> (forall j, j ∈ l -> key j = key' j) ->
  insert_by key i l = insert_by key' i l.
Proof.
  intros Hi. induction l as [|j r IH]; intros Hl; simpl; [reflexivity |].
  rewrite Hi, (Hl j) by left.
  destruct (key' i <=? key' j); [reflexivity |].
  f_equal. apply IH. intros x Hx. apply Hl. now right.
Qed.

Lemma order_by_ext key key' l :
  (forall j, j ∈ l -> key j = key' j) -> order_by key l = order_by key' l.
Proof.
  induction l as [|i r IH]; intros Hl; simpl; [reflexivity |].
  rewrite <- IH by (intros j Hj; apply Hl; now right).
  apply insert_by_ext; [apply Hl; left |].
  intros j Hj. rewrite order_by_Permutation in Hj. apply Hl. now right.
Qed.

Lemma filter_seq_ext (f g : nat -> bool) a n :
  (forall k, (a <= k < a + n)%nat -> f k = g k) ->
  List.filter f (seq a n) = List.filter g (seq a n).
Proof.
  intros E. apply filter_ext_in. intros k Hk. apply in_seq in Hk. now apply E.
Qed.

Lemma filter_seq_none (f : nat -> bool) a n :
  (forall k, (a <= k < a + n)%nat -> f k = false) ->
  List.filter f (seq a n) = [].
Proof.
  intros E. rewrite (filter_seq_ext f (fun _ => false) a n E).
  induction (seq a n) as [|x r IH]; [reflexivity | exact IH].
Qed.

Lemma asOf_current d acct sec i l :
  asOf d acct sec i l = true ->
  to_us (dtstart l) <= to_us d
  /\ forall e, dtend l = Some e -> to_us d < to_us e.
Proof.
  unfold asOf. intros Hq.
  apply andb_prop in Hq as [Hq _]. apply andb_prop in Hq as [Hq _].
  apply andb_prop in Hq as [Hd He].
  split; [now apply Z.leb_le in Hd |].
  intros e Ee. rewrite Ee in He. now apply Z.ltb_lt in He.
Qed.

(** Ending a lot that is current as of [D] on [D] does not change what a
    query as of an earlier date makes of it. *)
Lemma asOf_set_end d D t acct sec i l :
  to_us d < to_us D ->
  (forall e, dtend l = Some e -> to_us D < to_us e) ->
  asOf d acct sec i (set_end (Some D) t l) = asOf d acct sec i l.
Proof.
  intros Hd Hcur. unfold asOf. simpl.
  assert (E : dt_ltb d D = true) by (now apply Z.ltb_lt).
  rewrite E. destruct (dtend l) as [e|] eqn:Ee; [| reflexivity].
  assert (E' : dt_ltb d e = true)
    by (apply Z.ltb_lt; specialize (Hcur e eq_refl); lia).
  now rewrite E'.
Qed.

Lemma asOf_not_started d acct sec i l :
  to_us d < to_us (dtstart l) -> asOf d acct sec i l = false.
Proof.
  intros Hd. unfold asOf.
  assert (E : dt_leb (dtstart l) d = false) by (now apply Z.leb_gt).
  now rewrite E.
Qed.

(** The rows of a query as of a date before [D] are those before the lots
    were superseded, with their units, cost and washcost. *)
Lemma fetch_before D s s' d acct sec :
  superseded_at D s s' -> to_us d < to_us D ->
  fetch s' (asOf d acct sec) = fetch s (asOf d acct sec)
  /\ forall i l, lots s !! i = Some l ->
       exists l', lots s' !! i = Some l'
                  /\ units l' = units l /\ cost l' = cost l
                  /\ washcost l' = washcost l /\ dtopen l' = dtopen l
                  /\ dtstart l' = dtstart l /\ dtclose l' = dtclose l.
Proof.
  intros (t & succ & ids & (Hlen & Hout & Hin) & Hcur & Hst) Hd.
  assert (Hold : forall i l, lots s !! i = Some l ->
            lots s' !! i = Some l
            \/ (lots s' !! i = Some (set_end (Some D) t l)
                /\ forall e, dtend l = Some e -> to_us D < to_us e)).
  { intros i l Hl. destruct (decide (i ∈ ids)) as [Hi | Hi].
    - right. destruct (Hcur i Hi) as (l0 & Hl0 & Hc).
      assert (l0 = l) as -> by congruence.
      apply list_elem_of_lookup_1 in Hi as [n Hn].
      destruct (Hin n i l Hn Hl) as [He _]. auto.
    - left. rewrite Hout; [exact Hl | exact Hi |].
      eapply lookup_lt_Some, Hl. }
  split.
  - unfold fetch, select. rewrite Hlen, seq_app, List.filter_app. simpl.
    rewrite (filter_seq_none _ (length (lots s)) (length ids)).
    2:{ intros k Hk.
        destruct (lookup_lt_is_Some_2 ids (k - length (lots s))) as [i Hi];
          [lia |].
        destruct (Hcur i) as (l & Hl & _);
          [eapply list_elem_of_lookup_2, Hi |].
        destruct (Hin _ i l Hi Hl) as [_ Hnew].
        replace (length (lots s) + (k - length (lots s)))%nat with k
          in Hnew by lia.
        rewrite Hnew. apply asOf_not_started.
        rewrite Hst; [exact Hd | eapply list_elem_of_lookup_2, Hi]. }
    rewrite app_nil_r.
    rewrite (filter_seq_ext _
               (fun i => match lots s !! i with
                         | Some l => asOf d acct sec i l
                         | None => false
                         end) 0 (length (lots s))).
    2:{ intros k Hk.
        destruct (lookup_lt_is_Some_2 (lots s) k) as [l Hl]; [lia |].
        rewrite Hl.
        destruct (Hold k l Hl) as [-> | [-> Hc]]; [reflexivity |].
        now apply asOf_set_end. }
    apply order_by_ext. intros j Hj.
    apply list_elem_of_In, filter_In in Hj as [Hj _]. apply in_seq in Hj.
    destruct (lookup_lt_is_Some_2 (lots s) j) as [l Hl]; [lia |].
    unfold lot_dtopen_key. rewrite Hl.
    destruct (Hold j l Hl) as [-> | [-> _]]; reflexivity.
  - intros i l Hl. destruct (Hold i l Hl) as [E | [E _]].
    + exists l. split; [exact E |]. repeat split.
    + eexists. split; [exact E |]. repeat split.
Qed.

Lemma superseded_at_refl D s s' : lots s' = lots s -> superseded_at D s s'.
Proof.
  intros E. exists None, (fun _ l => l), []. rewrite E.
  split; [apply successors_nil |].
  split; intros i; [| intros l]; intros Hi; now apply elem_of_nil in Hi.
Qed.

(** The lots of a query as of [D] are current as of [D]. *)
Lemma fetch_current (q : Query) D acct sec s i :
  (forall j l, q j l = true -> asOf D acct sec j l = true) ->
  i ∈ fetch s q ->
  exists l, lots s !! i = Some l
            /\ forall e, dtend l = Some e -> to_us D < to_us e.
Proof.
  intros Hq Hi. apply elem_of_fetch in Hi as (l & Hl & Hql).
  exists l. split; [exact Hl |].
  now apply (asOf_current D acct sec i l), Hq.
Qed.

Lemma longsAsOf_asOf D acct sec j l :
  longsAsOf D acct sec j l = true -> asOf D acct sec j l = true.
Proof. unfold longsAsOf. intros Hq. now apply andb_prop in Hq as [Hq _]. Qed.

Lemma split_superseded_at s inv s' :
  split s inv = Ok s' -> superseded_at (INVTRAN.dttrade inv) s s'.
Proof.
  intros H0.
  destruct (INVTRAN.sub inv) eqn:Hsub;
    try (unfold split in H0; rewrite Hsub in H0; discriminate H0).
  destruct (logged s inv) eqn:L.
  - unfold split in H0. rewrite Hsub, (get_or_create_logged _ _ L) in H0.
    simpl in H0. injection H0 as <-. now apply superseded_at_refl.
  - pose proof (split_cases s inv _ _ _ _ Hsub L) as C. simpl in C. revert C.
    destruct (Decimal.div _ _); [| congruence].
    destruct (Decimal.div _ _); [| congruence].
    destruct (Decimal.eqb _ _); [| congruence].
    destruct (Decimal.ltb _ _); [| congruence].
    intros (s'' & R & S & _). assert (s'' = s') as -> by congruence.
    eexists _, _, _. split; [exact S |].
    split; [| intros i l _; reflexivity].
    intros i Hi.
    eapply fetch_current; [intros j l Hq; exact Hq | exact Hi].
Qed.

Lemma returnOfCapital_superseded_at s inv checklog s' :
  returnOfCapital s inv checklog = Ok s' ->
  superseded_at (INVTRAN.dttrade inv) s s'.
Proof.
  unfold returnOfCapital.
  destruct (get_or_create s inv) as [created s1] eqn:G.
  apply get_or_create_lots in G as [E1 _].
  destruct (checklog && negb created); intros H0.
  - injection H0 as <-. now apply superseded_at_refl.
  - returned.
    match type of H0 with
    | returnOfCapital_loop _ ?u ?ids _ = _ =>
        destruct (returnOfCapital_loop_spec inv u ids s1) as (s'' & R & S & _)
    end.
    { apply NoDup_fetch. }
    { intros i Hi. eapply fetch_lt, Hi. }
    assert (s'' = s') as -> by congruence.
    rewrite E1 in S.
    eexists _, _, _. split; [exact S |].
    split; [| intros i l _; reflexivity].
    intros i Hi. rewrite <- E1.
    eapply fetch_current; [| exact Hi]. apply longsAsOf_asOf.
Qed.

Lemma doTransfer_loop_superseded_at inv out inn sec ratio acct x s0 s s' :
  lots s = lots s0 ->
  doTransfer_loop (INVTRAN.dttrade inv) out inn sec ratio
    (fetch s (asOf (INVTRAN.dttrade inv) acct x)) s = Ok s' ->
  superseded_at (INVTRAN.dttrade inv) s0 s'.
Proof.
  intros E H0.
  destruct (doTransfer_loop_spec (INVTRAN.dttrade inv) out inn sec ratio
              (fetch s (asOf (INVTRAN.dttrade inv) acct x)) s)
    as (s'' & R & S & _).
  { apply NoDup_fetch. }
  { intros i Hi. eapply fetch_lt, Hi. }
  assert (s'' = s') as -> by congruence.
  rewrite E in S.
  eexists _, _, _. split; [exact S |].
  split; [| intros i l _; reflexivity].
  intros i Hi. rewrite <- E.
  eapply fetch_current; [intros j l Hq; exact Hq | exact Hi].
Qed.

Lemma doTransfer_superseded_at `{MemoMatching} s inv s' :
  doTransfer s inv = Ok s' -> superseded_at (INVTRAN.dttrade inv) s s'.
Proof.
  unfold doTransfer. destruct (INVTRAN.sub inv); try discriminate.
  destruct (get_or_create s inv) as [c s1] eqn:G.
  apply get_or_create_lots in G as [E1 _].
  destruct c; simpl; intros H0; returned; try (now apply superseded_at_refl).
  destruct x0 as [twin|]; [| returned; now apply superseded_at_refl].
  destruct (get_or_create s1 twin) as [c2 s3] eqn:G2.
  apply get_or_create_lots in G2 as [E2 _].
  assert (E3 : lots s3 = lots s) by congruence.
  destruct c2; simpl in H0; returned; try (now apply superseded_at_refl);
    eapply doTransfer_loop_superseded_at; eassumption.
Qed.

(** X4.  A split, a return of capital or a transfer rewrites nothing of the
    past: after it has returned, a query as of any date before the date of
    the transaction returns the lots it returned before, in the same order,
    and each lot that was there has its units, cost, washcost, [dtopen],
    [dtstart] and [dtclose]. *)
Theorem history_before `{MemoMatching} s inv checklog s' d acct sec :
  split s inv = Ok s' \/ returnOfCapital s inv checklog = Ok s'
  \/ doTransfer s inv = Ok s' ->
  to_us d < to_us (INVTRAN.dttrade inv) ->
  fetch s' (asOf d acct sec) = fetch s (asOf d acct sec)
  /\ forall i l, lots s !! i = Some l ->
       exists l', lots s' !! i = Some l'
                  /\ units l' = units l /\ cost l' = cost l
                  /\ washcost l' = washcost l /\ dtopen l' = dtopen l
                  /\ dtstart l' = dtstart l /\ dtclose l' = dtclose l.
Proof.
  intros Hop Hd. apply (fetch_before (INVTRAN.dttrade inv)); [| exact Hd].
  destruct Hop as [Hs | [Hr | Ht]].
  - eapply split_superseded_at, Hs.
  - eapply returnOfCapital_superseded_at, Hr.
  - eapply doTransfer_superseded_at, Ht.
Qed.

(** The 300 units of [bought], as of 2005-10-15, after the split of
    2005-11-01. *)
Lemma history_before_witness :
  let s' := returned_or bought (split bought two_for_one) in
  let d := date 2005 10 15 in
  split bought two_for_one = Ok s'
  /\ to_us d < to_us (INVTRAN.dttrade two_for_one)
  /\ fetch s' (asOf d None (Some ACME)) = fetch bought (asOf d None (Some ACME)).
Proof.
  intros s' d.
  assert (E : split bought two_for_one = Ok s') by (vm_compute; reflexivity).
  assert (Hd : to_us d < to_us (INVTRAN.dttrade two_for_one))
    by (vm_compute; reflexivity).
  split; [exact E |]. split; [exact Hd |].
  exact (proj1 (@history_before memos bought two_for_one true s' d None
                  (Some ACME) (or_introl E) Hd)).
Defined.

(** ** Queries as of the date of the transaction *)

Lemma filter_seq_all (f : nat -> bool) a n :
  (forall k, (a <= k < a + n)%nat -> f k = true) ->
  List.filter f (seq a n) = seq a n.
Proof.
  intros E. rewrite (filter_seq_ext f (fun _ => true) a n E).
  induction (seq a n) as [|x r IH]; [reflexivity | simpl; now rewrite IH].
Qed.

Lemma StronglySorted_seq_by (R : nat -> nat -> Prop) a n :
  (forall m m', (m < m' < n)%nat -> R (a + m)%nat (a + m')%nat) ->
  StronglySorted R (seq a n).
Proof.
  revert a. induction n as [|n IH]; intros a HR; simpl; constructor.
  - apply IH. intros m m' Hm.
    replace (S a + m)%nat with (a + S m)%nat by lia.
    replace (S a + m')%nat with (a + S m')%nat by lia.
    apply HR. lia.
  - apply Forall_forall. intros x Hx.
    apply list_elem_of_In, in_seq in Hx.
    replace a with (a + 0)%nat at 1 by lia.
    replace x with (a + (x - a))%nat by lia.
    apply HR. lia.
Qed.

(** [ORDER BY] leaves rows that are in order as they are. *)
Lemma order_by_sorted_id key l :
  StronglySorted (ordered_before key) l -> order_by key l = l.
Proof.
  induction 1 as [|i r Hr IH Hi]; simpl; [reflexivity |].
  rewrite IH. destruct r as [|j r']; [reflexivity |]. simpl.
  apply Forall_cons in Hi as [Hij _].
  assert (K : (key i <=? key j) = true)
    by (apply Z.leb_le; unfold ordered_before in Hij; lia).
  now rewrite K.
Qed.

(** When every row of a query is superseded, the rows of the query are the
    successors, in the order of their predecessors: provided an ended row
    is not of the query, and the successor of a row of the query is. *)
Lemma fetch_successors (q : Query) E succ s s' :
  successors E succ (fetch s q) (lots s) (lots s') ->
  (forall k l, q k (E l) = false) ->
  (forall i k l, q i l = true -> q k (succ i l) = true) ->
  (forall i l, dtopen (succ i l) = dtopen l) ->
  fetch s' q = seq (length (lots s)) (length (fetch s q)).
Proof.
  intros (Hlen & Hout & Hin) HE Hsucc Hopen.
  set (ids := fetch s q) in *.
  assert (Hnew : forall n, (n < length ids)%nat ->
            exists i l, ids !! n = Some i /\ lots s !! i = Some l
                        /\ q i l = true
                        /\ lots s' !! (length (lots s) + n)%nat
                           = Some (succ i l)).
  { intros n Hn. destruct (lookup_lt_is_Some_2 ids n Hn) as [i Hi].
    assert (Hi' : i ∈ fetch s q) by (eapply list_elem_of_lookup_2, Hi).
    apply elem_of_fetch in Hi' as (l & Hl & Hq).
    destruct (Hin n i l Hi Hl) as [_ Hs]. exists i, l. auto. }
  unfold fetch at 1. unfold select.
  rewrite Hlen, seq_app, List.filter_app. simpl.
  rewrite (filter_seq_none _ 0 (length (lots s))).
  2:{ intros k Hk.
      destruct (lookup_lt_is_Some_2 (lots s) k) as [l Hl]; [lia |].
      destruct (decide (k ∈ ids)) as [Hi | Hi].
      - apply list_elem_of_lookup_1 in Hi as [n Hn].
        destruct (Hin n k l Hn Hl) as [-> _]. apply HE.
      - rewrite Hout, Hl by (auto; lia).
        destruct (q k l) eqn:Hq; [| reflexivity].
        exfalso. apply Hi. apply elem_of_fetch. eauto. }
  rewrite (filter_seq_all _ (length (lots s)) (length ids)).
  2:{ intros k Hk.
      destruct (Hnew (k - length (lots s))%nat) as (i & l & _ & _ & Hq & Hs);
        [lia |].
      replace (length (lots s) + (k - length (lots s)))%nat with k in Hs by lia.
      rewrite Hs. now apply (Hsucc i). }
  simpl. apply order_by_sorted_id, StronglySorted_seq_by.
  intros m m' Hm.
  destruct (Hnew m) as (i & l & Hi & Hl & _ & Hs); [lia |].
  destruct (Hnew m') as (i' & l' & Hi' & Hl' & _ & Hs'); [lia |].
  pose proof (StronglySorted_lookup _ _ (fetch_sorted q s) m m' i i'
                (proj1 Hm) Hi Hi') as O.
  unfold ordered_before, lot_dtopen_key in *.
  rewrite Hs, Hs', !Hopen. rewrite Hl, Hl' in O. lia.
Qed.

Lemma asOf_ended D t acct sec k l :
  asOf D acct sec k (set_end (Some D) t l) = false.
Proof.
  unfold asOf. simpl. unfold dt_ltb. rewrite Z.ltb_irrefl.
  now rewrite andb_false_r.
Qed.

Lemma asOf_successor D acct sec i k l l' :
  asOf D acct sec i l = true ->
  dtstart l' = D -> dtend l' = None ->
  account l' = account l -> security l' = security l ->
  asOf D acct sec k l' = true.
Proof.
  unfold asOf. intros Hq -> -> -> ->.
  apply andb_prop in Hq as [Hq Hs]. apply andb_prop in Hq as [_ Ha].
  unfold dt_leb. now rewrite Z.leb_refl, Ha, Hs.
Qed.

(** X5.  After a split that was not in the log has returned, the lots of
    the security that are current as of the date of the split are the
    successors and no other lot, in the order of the lots they supersede;
    and so are the long lots after a return of capital. *)
Theorem position_after s inv s' :
  logged s inv = false ->
  let D := INVTRAN.dttrade inv in
  let sec := Some (INVTRAN.secinfo inv) in
  (split s inv = Ok s' ->
   fetch s' (asOf D None sec)
   = seq (length (lots s)) (length (fetch s (asOf D None sec))))
  /\ (returnOfCapital s inv true = Ok s' ->
      fetch s' (longsAsOf D None sec)
      = seq (length (lots s)) (length (fetch s (longsAsOf D None sec)))).
Proof.
  intros L D sec. split; intros H0.
  - destruct (INVTRAN.sub inv) eqn:Hsub;
      try (unfold split in H0; rewrite Hsub in H0; discriminate H0).
    pose proof (split_cases s inv _ _ _ _ Hsub L) as C. simpl in C. revert C.
    destruct (Decimal.div _ _); [| congruence].
    destruct (Decimal.div _ _); [| congruence].
    destruct (Decimal.eqb _ _); [| congruence].
    destruct (Decimal.ltb _ _); [| congruence].
    intros (s'' & R & S & _). assert (s'' = s') as -> by congruence.
    eapply fetch_successors; [exact S | | |].
    + intros k l. apply asOf_ended.
    + intros i k l Hq. now apply (asOf_successor _ _ _ i k l).
    + reflexivity.
  - unfold returnOfCapital in H0. rewrite (get_or_create_new _ _ L) in H0.
    simpl in H0. returned.
    change (fetch (set_ofxlog _ s) ?q) with (fetch s q) in *.
    match type of H0 with
    | returnOfCapital_loop _ ?u ?ids ?s1 = _ =>
        destruct (returnOfCapital_loop_spec inv u ids s1) as (s'' & R & S & _)
    end.
    { apply NoDup_fetch. }
    { intros i Hi. eapply fetch_lt, Hi. }
    assert (s'' = s') as -> by congruence.
    eapply fetch_successors; [exact S | | |].
    + intros k l. unfold longsAsOf. now rewrite asOf_ended.
    + intros i k l Hq. unfold longsAsOf in *.
      apply andb_prop in Hq as [Hq Hu].
      rewrite (asOf_successor _ _ _ i k l) by (auto; reflexivity).
      exact Hu.
    + reflexivity.
Qed.

(** The successor of the 300 units of [bought] after the split. *)
Lemma position_after_witness :
  let s' := returned_or bought (split bought two_for_one) in
  logged bought two_for_one = false
  /\ split bought two_for_one = Ok s'
  /\ fetch s' (asOf (date 2005 11 1) None (Some ACME)) = [1%nat].
Proof.
  intros s'.
  assert (L : logged bought two_for_one = false) by (vm_compute; reflexivity).
  assert (E : split bought two_for_one = Ok s') by (vm_compute; reflexivity).
  split; [exact L |]. split; [exact E |].
  exact (proj1 (position_after bought two_for_one s' L) E).
Defined.

(** ** The driver *)

Lemma insert_invtran_Permutation t l : insert_invtran t l ≡ₚ t :: l.
Proof.
  induction l as [|u r IH]; simpl; [reflexivity |].
  destruct (invtran_leb t u); [reflexivity |].
  rewrite IH. apply Permutation_swap.
Qed.

Lemma sorted_invtrans_Permutation l : fold_right insert_invtran [] l ≡ₚ l.
Proof.
  induction l as [|t r IH]; simpl; [reflexivity |].
  rewrite insert_invtran_Permutation. now constructor.
Qed.

Lemma elem_of_invtrans_in s a b t :
  t ∈ invtrans_in s a b <-> t ∈ invtrans s /\ in_window a b t = true.
Proof.
  unfold invtrans_in. rewrite sorted_invtrans_Permutation.
  rewrite list_elem_of_In, filter_In, <- list_elem_of_In. reflexivity.
Qed.

Lemma doInvtran_handled `{MemoMatching} s inv s' :
  doInvtran s inv = Ok s' -> handled inv = true -> logged s' inv = true.
Proof.
  unfold handled, doInvtran, brokerquirks.
  destruct (String.eqb _ _), (INVTRAN.sub inv) eqn:E; intros H0 Hh;
    try discriminate Hh;
    try (now apply trade_grows in H0 as []);
    try (now apply split_grows in H0 as []);
    try (now apply returnOfCapital_grows in H0 as []);
    try (now apply doTransfer_grows in H0 as []);
    try (now apply doIncome_grows in H0 as []).
Qed.

Lemma doInvtran_each_handled `{MemoMatching} l : forall s s',
  doInvtran_each l s = Ok s' ->
  forall t, t ∈ l -> handled t = true -> logged s' t = true.
Proof.
  induction l as [|inv rest IH]; simpl; intros s s' H0 t Ht Hh.
  - now apply elem_of_nil in Ht.
  - returned. apply elem_of_cons in Ht as [-> | Ht].
    + apply doInvtran_each_done in H0 as [[G _] _].
      apply G. eapply doInvtran_handled; eassumption.
    + eapply IH; eassumption.
Qed.

(** X6.  After [Lot.doInvtrans] has returned, every transaction of the
    window that a handler takes (a trade, a return of capital or a split;
    for broker 4705 also a transfer or an income) is in the event log. *)
Theorem doInvtrans_logs `{MemoMatching} s from to s' t :
  doInvtrans s from to = Ok s' ->
  t ∈ invtrans s ->
  to_us (default datetime_min from) <= to_us (INVTRAN.dttrade t) ->
  to_us (INVTRAN.dttrade t) <= to_us (default datetime_max to) ->
  handled t = true ->
  logged s' t = true.
Proof.
  unfold doInvtrans. intros H0 Ht Ha Hb Hh.
  eapply doInvtran_each_handled; [exact H0 | | exact Hh].
  apply elem_of_invtrans_in. split; [exact Ht |].
  unfold in_window, dt_leb. apply andb_true_intro.
  split; now apply Z.leb_le.
Qed.

(** The sale of [testTrade] after the driver has run. *)
Lemma doInvtrans_logs_witness :
  let s := ledger testTrade in
  let s' := returned_or s (@doInvtrans memos s None None) in
  let sale := buysell 2 (date 2005 12 1) (dec (-200) 0) (dec 239001 2) in
  @doInvtrans memos s None None = Ok s'
  /\ logged s sale = false /\ logged s' sale = true.
Proof.
  intros s s' sale.
  assert (E : @doInvtrans memos s None None = Ok s')
    by (vm_compute; reflexivity).
  split; [exact E |]. split; [vm_compute; reflexivity |].
  apply (@doInvtrans_logs memos s None None s' sale E).
  - right. left.
  - vm_compute. discriminate.
  - vm_compute. discriminate.
  - reflexivity.
Defined.

Lemma doInvtran_each_app `{MemoMatching} l1 l2 : forall s,
  doInvtran_each (l1 ++ l2) s
  = (s1 ← doInvtran_each l1 s; doInvtran_each l2 s1).
Proof.
  induction l1 as [|t r IH]; intros s; simpl; [reflexivity |].
  destruct (doInvtran s t) as [s1|e]; simpl; [apply IH | reflexivity].
Qed.

Lemma insert_invtran_app_l t l1 l2 :
  (forall y, y ∈ l2 -> invtran_leb t y = true) ->
  insert_invtran t (l1 ++ l2) = insert_invtran t l1 ++ l2.
Proof.
  intros H2. induction l1 as [|x r IH]; simpl.
  - destruct l2 as [|y r2]; [reflexivity |]. simpl.
    now rewrite (H2 y) by left.
  - destruct (invtran_leb t x); [reflexivity |]. simpl. now rewrite IH.
Qed.

Lemma insert_invtran_app_r t l1 l2 :
  (forall x, x ∈ l1 -> invtran_leb t x = false) ->
  insert_invtran t (l1 ++ l2) = l1 ++ insert_invtran t l2.
Proof.
  induction l1 as [|x r IH]; intros H1; simpl; [reflexivity |].
  rewrite (H1 x) by left. f_equal. apply IH.
  intros y Hy. apply H1. now right.
Qed.

(** The transactions of a window, in order, are those of its first part
    followed by those of the rest. *)
Lemma invtrans_in_app s a b b' c :
  to_us b < to_us b' -> to_us a <= to_us b' -> to_us b <= to_us c ->
  (forall t, t ∈ invtrans s ->
             ~ (to_us b < to_us (INVTRAN.dttrade t) < to_us b')) ->
  invtrans_in s a c = invtrans_in s a b ++ invtrans_in s b' c.
Proof.
  intros Hbb Hab Hbc Hgap. unfold invtrans_in.
  induction (invtrans s) as [|x L IH]; [reflexivity |].
  assert (HgapL : forall t, t ∈ L ->
            ~ (to_us b < to_us (INVTRAN.dttrade t) < to_us b'))
    by (intros t Ht; apply Hgap; now right).
  specialize (IH HgapL). simpl.
  fold (in_window a c x). fold (in_window a b x). fold (in_window b' c x).
  pose proof (Hgap x ltac:(left)) as Hx.
  unfold in_window, dt_leb in *.
  destruct (to_us a <=? to_us (INVTRAN.dttrade x)) eqn:E1;
    destruct (to_us (INVTRAN.dttrade x) <=? to_us c) eqn:E2;
    destruct (to_us (INVTRAN.dttrade x) <=? to_us b) eqn:E3;
    destruct (to_us b' <=? to_us (INVTRAN.dttrade x)) eqn:E4;
    simpl;
    try apply Z.leb_le in E1; try apply Z.leb_gt in E1;
    try apply Z.leb_le in E2; try apply Z.leb_gt in E2;
    try apply Z.leb_le in E3; try apply Z.leb_gt in E3;
    try apply Z.leb_le in E4; try apply Z.leb_gt in E4;
    try lia; try exact IH.
  - (* in the first part *)
    rewrite IH. apply insert_invtran_app_l.
    intros y Hy. rewrite sorted_invtrans_Permutation in Hy.
    apply list_elem_of_In, filter_In in Hy as [_ Hy].
    apply andb_prop in Hy as [Hy _]. apply Z.leb_le in Hy.
    unfold invtran_leb. apply orb_true_intro. left. apply Z.ltb_lt. lia.
  - (* in the rest *)
    rewrite IH. apply insert_invtran_app_r.
    intros y Hy. rewrite sorted_invtrans_Permutation in Hy.
    apply list_elem_of_In, filter_In in Hy as [_ Hy].
    apply andb_prop in Hy as [_ Hy]. apply Z.leb_le in Hy.
    unfold invtran_leb. apply orb_false_intro.
    + apply Z.ltb_ge. lia.
    + apply andb_false_intro1. apply Z.eqb_neq. lia.
Qed.

(** X7.  Processing a window in two runs is processing it in one: when no
    transaction is dated after [b] and before [b'], [Lot.doInvtrans] up to
    [b] followed by [Lot.doInvtrans] from [b'] returns what one run over the
    whole window returns, or raises as it does. *)
Theorem doInvtrans_in_two_runs `{MemoMatching} s from b b' to :
  to_us b < to_us b' ->
  to_us (default datetime_min from) <= to_us b' ->
  to_us b <= to_us (default datetime_max to) ->
  (forall t, t ∈ invtrans s ->
             ~ (to_us b < to_us (INVTRAN.dttrade t) < to_us b')) ->
  doInvtrans s from to
  = (s1 ← doInvtrans s from (Some b); doInvtrans s1 (Some b') to).
Proof.
  intros Hbb Hab Hbc Hgap. unfold doInvtrans. simpl.
  rewrite (invtrans_in_app s _ b b' _ Hbb Hab Hbc Hgap), doInvtran_each_app.
  destruct (doInvtran_each (invtrans_in s _ b) s) as [s1|e] eqn:R;
    [| reflexivity].
  simpl. apply doInvtran_each_done in R as [[_ I] _].
  unfold invtrans_in. now rewrite I.
Qed.

(** [testTrade], up to the end of October 2005 and from November on. *)
Lemma doInvtrans_in_two_runs_witness :
  let s := ledger testTrade in
  @doInvtrans memos s None None
  = (s1 ← @doInvtrans memos s None (Some (date 2005 10 31));
     @doInvtrans memos s1 (Some (date 2005 11 1)) None).
Proof.
  intros s.
  apply (@doInvtrans_in_two_runs memos s None (date 2005 10 31)
           (date 2005 11 1) None).
  - vm_compute. reflexivity.
  - vm_compute. discriminate.
  - vm_compute. discriminate.
  - intros t Ht.
    apply elem_of_cons in Ht as [-> | Ht];
      [| apply list_elem_of_singleton in Ht as ->];
      vm_compute; intros [H1 H2]; discriminate.
Defined.

(** ** Loading lots *)

(** The account of a row: the one of the table that has its key, or a new
    one, after which the keys of the table are still unique. *)
Lemma loadCsv_account s b a :
  unique_accounts s ->
  let t := match lookup_account s b a with
           | Some x => accounts s
           | None => accounts s
                     ++ [INVACCTFROM.mk (fresh (map INVACCTFROM.id (accounts s)))
                                        b a]
           end in
  let x := match lookup_account s b a with
           | Some x => x
           | None => INVACCTFROM.mk (fresh (map INVACCTFROM.id (accounts s))) b a
           end in
  x ∈ t /\ INVACCTFROM.brokerid x = b /\ INVACCTFROM.acctid x = a
  /\ accounts s `prefix_of` t
  /\ forall y z, y ∈ t -> z ∈ t ->
       INVACCTFROM.brokerid y = INVACCTFROM.brokerid z ->
       INVACCTFROM.acctid y = INVACCTFROM.acctid z -> y = z.
Proof.
  intros U. unfold lookup_account.
  destruct (List.find _ (accounts s)) as [x|] eqn:F; simpl.
  - apply find_some in F as [Hx Hk]. apply andb_prop in Hk as [H1 H2].
    apply String.eqb_eq in H1, H2.
    split; [now apply list_elem_of_In |]. split; [exact H1 |].
    split; [exact H2 |]. split; [reflexivity | exact U].
  - pose proof (find_none _ _ F) as N.
    assert (Hnew : forall y, y ∈ accounts s ->
              INVACCTFROM.brokerid y = b -> INVACCTFROM.acctid y = a -> False).
    { intros y Hy H1 H2. apply list_elem_of_In in Hy.
      specialize (N y Hy). simpl in N.
      rewrite H1, H2, !String.eqb_refl in N. discriminate N. }
    split; [apply elem_of_app; right; left |].
    split; [reflexivity |]. split; [reflexivity |].
    split; [now apply prefix_app_r |].
    intros y z Hy Hz H1 H2.
    apply elem_of_app in Hy as [Hy | Hy], Hz as [Hz | Hz];
      try apply list_elem_of_singleton in Hy;
      try apply list_elem_of_singleton in Hz; subst; simpl in *.
    + now apply U.
    + exfalso. eapply Hnew; eauto.
    + exfalso. eapply Hnew; eauto.
    + reflexivity.
Qed.

Lemma loadCsv_secinfo s u t tk nm :
  unique_secinfos s ->
  let tab := match lookup_secinfo s u t with
             | Some x => secinfos s
             | None => secinfos s
                       ++ [SECINFO.mk (fresh (map SECINFO.id (secinfos s)))
                                      t u tk nm]
             end in
  let x := match lookup_secinfo s u t with
           | Some x => x
           | None => SECINFO.mk (fresh (map SECINFO.id (secinfos s))) t u tk nm
           end in
  x ∈ tab /\ SECINFO.uniqueid x = u /\ SECINFO.uniqueidtype x = t
  /\ secinfos s `prefix_of` tab
  /\ forall y z, y ∈ tab -> z ∈ tab ->
       SECINFO.uniqueid y = SECINFO.uniqueid z ->
       SECINFO.uniqueidtype y = SECINFO.uniqueidtype z -> y = z.
Proof.
  intros U. unfold lookup_secinfo.
  destruct (List.find _ (secinfos s)) as [x|] eqn:F; simpl.
  - apply find_some in F as [Hx Hk]. apply andb_prop in Hk as [H1 H2].
    apply String.eqb_eq in H1, H2.
    split; [now apply list_elem_of_In |]. split; [exact H1 |].
    split; [exact H2 |]. split; [reflexivity | exact U].
  - pose proof (find_none _ _ F) as N.
    assert (Hnew : forall y, y ∈ secinfos s ->
              SECINFO.uniqueid y = u -> SECINFO.uniqueidtype y = t -> False).
    { intros y Hy H1 H2. apply list_elem_of_In in Hy.
      specialize (N y Hy). simpl in N.
      rewrite H1, H2, !String.eqb_refl in N. discriminate N. }
    split; [apply elem_of_app; right; left |].
    split; [reflexivity |]. split; [reflexivity |].
    split; [now apply prefix_app_r |].
    intros y z Hy Hz H1 H2.
    apply elem_of_app in Hy as [Hy | Hy], Hz as [Hz | Hz];
      try apply list_elem_of_singleton in Hy;
      try apply list_elem_of_singleton in Hz; subst; simpl in *.
    + now apply U.
    + exfalso. eapply Hnew; eauto.
    + exfalso. eapply Hnew; eauto.
    + reflexivity.
Qed.

Lemma loadCsv_row_spec r s k s1 :
  unique_accounts s -> unique_secinfos s ->
  loadCsv_row r s = Ok (k, s1) ->
  k = length (lots s)
  /\ (exists l, lots s1 = lots s ++ [l] /\ loaded_from r l
                /\ account l ∈ accounts s1 /\ security l ∈ secinfos s1)
  /\ unique_accounts s1 /\ unique_secinfos s1
  /\ accounts s `prefix_of` accounts s1
  /\ secinfos s `prefix_of` secinfos s1
  /\ gains s1 = gains s /\ ofxlog s1 = ofxlog s /\ invtrans s1 = invtrans s.
Proof.
  intros Ua Us. unfold loadCsv_row.
  pose proof (loadCsv_account s (row_brokerid r) (row_acctid r) Ua) as HA.
  pose proof (loadCsv_secinfo s (row_uniqueid r) (row_uniqueidtype r)
                (row_ticker r) (row_secname r) Us) as HS.
  cbv zeta in HA, HS.
  unfold strptime_str.
  destruct (microsecond (row_dtopen r) =? 0); [| simpl;
    destruct (lookup_account s _ _), (lookup_secinfo _ _ _); discriminate].
  revert HA. destruct (lookup_account s _ _) as [a|]; intros HA; simpl;
    change (lookup_secinfo (set_accounts _ s) ?u ?t)
      with (lookup_secinfo s u t);
    revert HS; destruct (lookup_secinfo s _ _) as [x|]; intros HS; simpl;
    intros E; injection E as <- <-; simpl;
    destruct HA as (A1 & A2 & A3 & A4 & A5);
    destruct HS as (S1 & S2 & S3 & S4 & S5);
    (split; [reflexivity |]);
    (split; [eexists; split; [reflexivity |]; simpl;
             split; [repeat split; assumption | split; assumption] |]);
    repeat split; assumption.
Qed.

(** X8.  [Lot.loadCsv] on tables whose keys are unique, when it returns:
    it has appended one lot per row, in the order of the rows, and returns
    their keys; each lot has the units, the cost, the washcost and the
    [dtopen] of its row, starts on its [dtopen], and is of the account and of
    the security of the tables that have the keys of the row, each created
    at the end of its table when no row had the key; the keys of both tables
    are still unique, no lot that was there has changed, and the gains, the
    event log and the transactions are as they were. *)
Theorem loadCsv_appends rows : forall s ks s',
  unique_accounts s -> unique_secinfos s ->
  loadCsv rows s = Ok (ks, s') ->
  ks = seq (length (lots s)) (length rows)
  /\ (exists new,
        lots s' = lots s ++ new /\ length new = length rows
        /\ forall n r l, rows !! n = Some r -> new !! n = Some l ->
             loaded_from r l
             /\ account l ∈ accounts s' /\ security l ∈ secinfos s')
  /\ unique_accounts s' /\ unique_secinfos s'
  /\ accounts s `prefix_of` accounts s'
  /\ secinfos s `prefix_of` secinfos s'
  /\ gains s' = gains s /\ ofxlog s' = ofxlog s /\ invtrans s' = invtrans s.
Proof.
  induction rows as [|r rest IH]; intros s ks s' Ua Us H0; simpl in H0.
  - injection H0 as <- <-. split; [reflexivity |].
    split.
    { exists []. rewrite app_nil_r. split; [reflexivity |].
      split; [reflexivity |]. intros n r l Hn. now rewrite lookup_nil in Hn. }
    split; [exact Ua |]. split; [exact Us |].
    split; [reflexivity |]. split; [reflexivity |]. repeat split.
  - returned.
    match goal with
    | Hr : loadCsv_row r s = Ok (?k, ?s1), Hl : loadCsv rest ?s1 = Ok _ |- _ =>
        apply (loadCsv_row_spec r s k s1 Ua Us) in Hr
          as (-> & (lot1 & Hl1 & Hfrom & Hacc & Hsec) & Ua1 & Us1 & Pa & Ps
                 & G1 & O1 & I1);
        apply (IH s1 _ s' Ua1 Us1) in Hl
          as (-> & (new & Hnew & Hlen & Hrows) & Ua2 & Us2 & Pa2 & Ps2
                 & G2 & O2 & I2)
    end.
    split.
    { simpl. rewrite Hl1, length_app. simpl.
      now replace (length (lots s) + 1)%nat with (S (length (lots s))) by lia. }
    split.
    { exists (lot1 :: new). split; [rewrite Hnew, Hl1, <- app_assoc; reflexivity |].
      split; [simpl; now rewrite Hlen |].
      intros [|n] r' l' Hn Hn'; simpl in Hn, Hn'.
      - injection Hn as <-. injection Hn' as <-.
        split; [exact Hfrom |]. split.
        + destruct Pa2 as [t ->]. apply elem_of_app. now left.
        + destruct Ps2 as [t ->]. apply elem_of_app. now left.
      - eapply Hrows; eassumption. }
    split; [exact Ua2 |]. split; [exact Us2 |].
    split; [etransitivity; eassumption |].
    split; [etransitivity; eassumption |].
    repeat split; congruence.
Qed.

(** The round trip of [testReturnOfCapital]: one row, one new lot. *)
Lemma loadCsv_appends_witness :
  let s := testReturnOfCapital in
  let r := loadCsv (dumpCsv s None) s in
  exists ks s',
    r = Ok (ks, s') /\ ks = [2%nat]
    /\ accounts s `prefix_of` accounts s' /\ gains s' = gains s.
Proof.
  intros s r.
  assert (EA : accounts s = [acctfrom]) by (vm_compute; reflexivity).
  assert (ES : secinfos s = [ACME]) by (vm_compute; reflexivity).
  assert (Ua : unique_accounts s).
  { intros a b Ha' Hb' _ _. rewrite EA in Ha', Hb'.
    apply list_elem_of_singleton in Ha', Hb'. congruence. }
  assert (Us : unique_secinfos s).
  { intros a b Ha' Hb' _ _. rewrite ES in Ha', Hb'.
    apply list_elem_of_singleton in Ha', Hb'. congruence. }
  assert (E : exists ks s', r = Ok (ks, s') /\ ks = [2%nat]).
  { eexists _, _. split; vm_compute; reflexivity. }
  destruct E as (ks & s' & E & Hks).
  exists ks, s'. split; [exact E |]. split; [exact Hks |].
  destruct (loadCsv_appends _ s ks s' Ua Us E)
    as (_ & _ & _ & _ & Pa & _ & G & _).
  split; [exact Pa | exact G].
Defined.

(** ** The two sides of a transfer *)

Lemma one_or_none_Some {A : Type} (l : list A) (x : A) :
  one_or_none l = Ok (Some x) -> l = [x].
Proof.
  destruct l as [|a [|b r]]; simpl; intros E; try discriminate E.
  now injection E as ->.
Qed.

Lemma doTransfer_logged `{MemoMatching} s inv :
  is_TRANSFER inv = true -> logged s inv = true -> doTransfer s inv = Ok s.
Proof.
  unfold is_TRANSFER, doTransfer. destruct (INVTRAN.sub inv); try discriminate.
  intros _ L. now rewrite (get_or_create_logged _ _ L).
Qed.

(** X9.  A transfer that [IBKR.doTransfer] has processed is in the event
    log, and no gain was made.  Unless the lots are as they were, the other
    side of the transfer (another transfer of the account, of the same date,
    that was not in the log) is in the log as well, so that processing it
    afterwards changes nothing. *)
Theorem doTransfer_pair `{MemoMatching} s inv s' :
  doTransfer s inv = Ok s' ->
  logged s' inv = true
  /\ gains s' = gains s
  /\ (lots s' = lots s
      \/ exists twin,
           twin ∈ invtrans s
           /\ is_TRANSFER twin = true
           /\ INVTRAN.id twin <> INVTRAN.id inv
           /\ INVACCTFROM.id (INVTRAN.acctfrom twin)
              = INVACCTFROM.id (INVTRAN.acctfrom inv)
           /\ to_us (INVTRAN.dttrade twin) = to_us (INVTRAN.dttrade inv)
           /\ logged s twin = false
           /\ logged s' twin = true
           /\ doTransfer s' twin = Ok s').
Proof.
  intros H0.
  pose proof (doTransfer_grows s inv s' H0) as [_ Linv].
  split; [exact Linv |].
  unfold doTransfer in H0. destruct (INVTRAN.sub inv); try discriminate.
  destruct (get_or_create s inv) as [c s1] eqn:G.
  pose proof (get_or_create_lots _ _ _ _ G) as [L1 G1].
  apply get_or_create_grows in G as (Gr & _ & _).
  destruct c; simpl in H0; returned; try (split; [assumption | now left]).
  destruct x0 as [twin|]; [| returned; split; [assumption | now left]].
  match goal with
  | Hone : one_or_none ?l = Ok (Some twin) |- _ =>
      apply one_or_none_Some in Hone;
      assert (Htwin : twin ∈ l) by (rewrite Hone; left)
  end.
  apply list_elem_of_In, filter_In in Htwin as [Hin Hp].
  apply andb_prop in Hp as [Hp _]. apply andb_prop in Hp as [Hp Hdt].
  apply andb_prop in Hp as [Hp Hacc]. apply andb_prop in Hp as [Htr Hne].
  destruct (get_or_create s1 twin) as [c2 s3] eqn:G2.
  pose proof (get_or_create_lots _ _ _ _ G2) as [L3 G3].
  assert (Lt : logged s1 twin = negb c2).
  { unfold get_or_create in G2. destruct (logged s1 twin);
      injection G2 as <- _; reflexivity. }
  apply get_or_create_grows in G2 as (Gr2 & Lt3 & _).
  destruct c2; simpl in H0; [| discriminate H0].
  assert (Twin : forall s4, frame s3 s4 ->
            exists t, t ∈ invtrans s /\ is_TRANSFER t = true
              /\ INVTRAN.id t <> INVTRAN.id inv
              /\ INVACCTFROM.id (INVTRAN.acctfrom t)
                 = INVACCTFROM.id (INVTRAN.acctfrom inv)
              /\ to_us (INVTRAN.dttrade t) = to_us (INVTRAN.dttrade inv)
              /\ logged s t = false /\ logged s4 t = true
              /\ doTransfer s4 t = Ok s4).
  { intros s4 F. exists twin.
    destruct Gr as [Gl Gi].
    split; [rewrite <- Gi; now apply list_elem_of_In |].
    split; [exact Htr |].
    split; [apply negb_true_iff, Nat.eqb_neq in Hne; exact Hne |].
    split; [now apply Nat.eqb_eq in Hacc |].
    split; [now apply Z.eqb_eq in Hdt |].
    assert (L4 : logged s4 twin = true)
      by (now rewrite (frame_logged _ _ twin F)).
    split.
    { destruct (logged s twin) eqn:E; [| reflexivity].
      apply Gl in E. rewrite Lt in E. discriminate E. }
    split; [exact L4 |]. now apply doTransfer_logged. }
  returned;
    try (split; [congruence | left; congruence]);
    match goal with
    | Hloop : doTransfer_loop ?dt ?out ?inn ?sec ?r ?ids ?sa = Ok s' |- _ =>
        pose proof (doTransfer_loop_frame _ _ _ _ _ _ _ _ Hloop) as F;
        destruct (doTransfer_loop_spec dt out inn sec r ids sa)
          as (s'' & R & _ & Gs);
        [apply NoDup_fetch | intros j Hj; eapply fetch_lt, Hj |];
        assert (s'' = s') as -> by congruence;
        split; [congruence | right; now apply Twin]
    end.
Qed.

(** The merger of ACME into NEWCO, from the side of ACME. *)
Lemma doTransfer_pair_witness :
  let s' := returned_or merger (@doTransfer memos merger transfer_out) in
  @doTransfer memos merger transfer_out = Ok s'
  /\ logged s' transfer_out = true /\ gains s' = gains merger.
Proof.
  intros s'.
  assert (E : @doTransfer memos merger transfer_out = Ok s')
    by (vm_compute; reflexivity).
  split; [exact E |].
  destruct (@doTransfer_pair memos merger transfer_out s' E) as (L & G & _).
  split; [exact L | exact G].
Defined.

(** ** Gains the wash sale pass leaves alone *)

Lemma doWashSale_nothing s k g :
  gains s !! k = Some g -> nothing_to_wash s g -> doWashSale s k = Ok s.
Proof.
  intros Hg (l & Hl & Hcase). unfold doWashSale, value, gain_lot.
  rewrite Hg. simpl. rewrite Hl. simpl.
  destruct (dtclose l) as [dtc|] eqn:Hc; [| reflexivity].
  destruct (Decimal.nonzero (washloss g)) eqn:Hw; [reflexivity |].
  destruct (Decimal.leb _ _) eqn:Hv; [reflexivity |].
  destruct Hcase as [H0 | [H0 | [H0 | [H0 | H0]]]]; try congruence.
  - destruct (closer l) as [c|]; [| reflexivity].
    now rewrite (H0 c eq_refl).
  - destruct (negb _); [reflexivity |].
    unfold doWashSale_roll, fetch.
    rewrite select_empty by (intros i l' Hl'; now apply (H0 dtc)).
    reflexivity.
Qed.

Lemma doWashSale_each_nothing s ks :
  (forall k, k ∈ ks -> exists g, gains s !! k = Some g /\ nothing_to_wash s g) ->
  doWashSale_each ks s = Ok s.
Proof.
  induction ks as [|k rest IH]; intros Hks; simpl; [reflexivity |].
  destruct (Hks k) as (g & Hg & Hn); [left |].
  rewrite (doWashSale_nothing s k g Hg Hn). simpl.
  apply IH. intros j Hj. apply Hks. now right.
Qed.

(** X10.  [Gain.doWashSales] changes nothing when there is nothing to wash:
    when each gain is on an open lot, or has a loss disallowed already, or
    is not a loss, or was not made by the transaction that closed its lot,
    or has no replacement lot (another lot of the account and security, of
    units of the same sign and without washcost, opened within 30 days of
    the day the lot was closed). *)
Theorem doWashSales_nothing s from to :
  (forall k g, gains s !! k = Some g -> nothing_to_wash s g) ->
  doWashSales s from to = Ok s.
Proof.
  intros Hall. unfold doWashSales. apply doWashSale_each_nothing.
  intros k Hk. unfold gains_needing_washsale in Hk.
  rewrite order_by_Permutation in Hk.
  apply list_elem_of_In, filter_In in Hk as [_ Hk].
  destruct (gains s !! k) as [g|] eqn:Hg; [| discriminate Hk].
  exists g. split; [reflexivity | now apply (Hall k)].
Qed.

(** The ledger of [testTrade], whose only gain is a profit. *)
Lemma doWashSales_nothing_witness :
  let s := returned_or (ledger testTrade) (trades testTrade (ledger testTrade)) in
  doWashSales s None None = Ok s.
Proof.
  intros s. apply (doWashSales_nothing s None None).
  intros k g Hg. destruct k as [|k]; vm_compute in Hg; [| discriminate Hg].
  injection Hg as <-.
  eexists. split; [vm_compute; reflexivity |].
  right. right. left. vm_compute. reflexivity.
Defined.

(** ** A trade that opens a position *)

(** X11.  A buy or a sell of units other than zero, not in the log, when
    no lot of its account and security that is current as of its date has
    units of the opposite sign: it opens one lot, of the units of the trade
    and of cost [-total], opened and started by the trade on its date; no
    lot that was there changes and no gain is made. *)
Theorem trade_opens s inv tunits total :
  INVTRAN.sub inv = INVTRAN.INVBUYSELL tunits total ->
  logged s inv = false ->
  Decimal.is_zero tunits = false ->
  (forall i l, lots s !! i = Some l ->
     asOf (INVTRAN.dttrade inv) (Some (INVTRAN.acctfrom inv))
          (Some (INVTRAN.secinfo inv)) i l = true ->
     opposite tunits l = false) ->
  exists s',
    trade s inv = Ok s'
    /\ lots s'
       = lots s
         ++ [newLot (INVTRAN.acctfrom inv) (INVTRAN.secinfo inv)
                    tunits (Decimal.neg total)
                    (INVTRAN.dttrade inv) (Some inv)
                    (INVTRAN.dttrade inv) (Some inv)]
    /\ gains s' = gains s
    /\ ofxlog s' = ofxlog s ++ [INVTRAN.id inv].
Proof.
  intros Hsub Hlog Zt Hnone.
  eexists. split.
  - unfold trade. rewrite Hsub, (get_or_create_new _ _ Hlog). simpl.
    unfold fetch. rewrite select_empty.
    + simpl. rewrite nonzero_is_zero, Zt. reflexivity.
    + intros i l Hl. simpl in Hl.
      destruct (asOf _ _ _ i l) eqn:Hq; [| reflexivity].
      now rewrite (Hnone i l Hl Hq).
  - simpl. repeat split.
Qed.

(** The first buy of [testTrade], on the empty ledger. *)
Lemma trade_opens_witness :
  let buy := buysell 1 (date 2005 10 3) (dec 300 0) (dec (-300999) 2) in
  exists s',
    trade (ledger []) buy = Ok s'
    /\ lots s' = [newLot acctfrom ACME (dec 300 0) (dec 300999 2)
                         (date 2005 10 3) (Some buy)
                         (date 2005 10 3) (Some buy)].
Proof.
  intros buy.
  destruct (trade_opens (ledger []) buy _ _ eq_refl eq_refl eq_refl)
    as (s' & T & L & _).
  - intros i l Hl. simpl in Hl. now rewrite lookup_nil in Hl.
  - exists s'. split; [exact T | exact L].
Defined.

(** ** What the wash sale pass never does *)

Lemma only_amounts_refl s : only_amounts s s.
Proof.
  split; [intros k l Hl; exists l; repeat split; exact Hl |].
  split; [intros k g Hg; exists g; repeat split; exact Hg |].
  repeat split.
Qed.

Lemma only_amounts_trans s1 s2 s3 :
  only_amounts s1 s2 -> only_amounts s2 s3 -> only_amounts s1 s3.
Proof.
  intros (L1 & G1 & O1 & I1 & A1 & S1) (L2 & G2 & O2 & I2 & A2 & S2).
  split; [| split; [| repeat split; congruence]].
  - intros k l Hl.
    destruct (L1 k l Hl) as (l2 & Hl2 & Or2 & C2 & Cr2 & E2 & Er2).
    destruct (L2 k l2 Hl2) as (l3 & Hl3 & Or3 & C3 & Cr3 & E3 & Er3).
    exists l3. split; [exact Hl3 |].
    split; [eapply same_origin_trans; eassumption |].
    repeat split; congruence.
  - intros k g Hg.
    destruct (G1 k g Hg) as (g2 & Hg2 & Lg2 & Tg2).
    destruct (G2 k g2 Hg2) as (g3 & Hg3 & Lg3 & Tg3).
    exists g3. repeat split; [exact Hg3 | congruence | congruence].
Qed.

Lemma only_amounts_update_lot i f s :
  (forall l, same_origin l (f l) /\ dtclose (f l) = dtclose l
             /\ closer (f l) = closer l /\ dtend (f l) = dtend l
             /\ ender (f l) = ender l) ->
  only_amounts s (update_lot i f s).
Proof.
  intros Hf.
  split; [| split; [intros k g Hg; exists g; repeat split; exact Hg
                   | repeat split]].
  intros k l Hl. simpl. destruct (decide (k = i)) as [-> | Hne].
  - exists (f l). rewrite list_lookup_alter_eq, Hl.
    split; [reflexivity | apply Hf].
  - exists l. rewrite list_lookup_alter_ne by congruence.
    split; [exact Hl |]. repeat split.
Qed.

Lemma only_amounts_update_gain i f s :
  (forall g, lot (f g) = lot g /\ transaction (f g) = transaction g) ->
  only_amounts s (update_gain i f s).
Proof.
  intros Hf.
  split; [intros k l Hl; exists l; repeat split; exact Hl |].
  split; [| repeat split].
  intros k g Hg. simpl. destruct (decide (k = i)) as [-> | Hne].
  - exists (f g). rewrite list_lookup_alter_eq, Hg.
    split; [reflexivity | apply Hf].
  - exists g. rewrite list_lookup_alter_ne by congruence.
    repeat split. exact Hg.
Qed.

Lemma only_amounts_set_lots_app L l s :
  L = lots s -> only_amounts s (set_lots (L ++ [l]) s).
Proof.
  intros ->.
  split; [| split; [intros k g Hg; exists g; repeat split; exact Hg
                   | repeat split]].
  intros k l0 Hl. exists l0. simpl.
  rewrite lookup_app_l by (eapply lookup_lt_Some, Hl).
  split; [exact Hl |]. repeat split.
Qed.

Lemma only_amounts_add_lot l s : only_amounts s (snd (add_lot l s)).
Proof. now apply only_amounts_set_lots_app. Qed.

Lemma only_amounts_add_gain g s : only_amounts s (add_gain g s).
Proof.
  split; [intros k l Hl; exists l; repeat split; exact Hl |].
  split; [| repeat split].
  intros k g0 Hg. exists g0. simpl.
  rewrite lookup_app_l by (eapply lookup_lt_Some, Hg).
  repeat split. exact Hg.
Qed.

(** A session made of assignments of amounts, of new lots and of new
    gains. *)
Ltac amounts_only :=
  repeat first
    [ apply only_amounts_refl
    | eapply only_amounts_trans; [| apply only_amounts_add_gain]
    | eapply only_amounts_trans; [| apply only_amounts_add_lot]
    | eapply only_amounts_trans;
        [| apply only_amounts_set_lots_app; reflexivity]
    | eapply only_amounts_trans;
        [| apply only_amounts_update_gain; intros ?; split; reflexivity]
    | eapply only_amounts_trans;
        [| apply only_amounts_update_lot; intros ?; repeat split ] ].

Lemma split_loss_gains_only_amounts self i k wp uu gs : forall s s',
  split_loss_gains self i k wp uu gs s = Ok s' -> only_amounts s s'.
Proof.
  induction gs as [|gk rest IH]; simpl; intros s s' H0; returned.
  - apply only_amounts_refl.
  - eapply only_amounts_trans; [| eapply IH; eassumption]. amounts_only.
Qed.

Lemma split_replacement_gains_only_amounts k gs : forall s s',
  split_replacement_gains k gs s = Ok s' -> only_amounts s s'.
Proof.
  induction gs as [|gk rest IH]; simpl; intros s s' H0; returned.
  - apply only_amounts_refl.
  - eapply only_amounts_trans; [| eapply IH; eassumption]. amounts_only.
Qed.

Lemma roll_step_only_amounts ul i l r r' :
  roll_step ul i l r = Ok r' -> only_amounts (session r) (session r').
Proof.
  unfold roll_step. intros H0. returned; simpl.
  - amounts_only.
  - match goal with
    | Hp : add_lot _ _ = (_, _) |- _ =>
        unfold add_lot in Hp; injection Hp as <- <-
    end.
    eapply only_amounts_trans;
      [| eapply split_replacement_gains_only_amounts; eassumption].
    amounts_only.
Qed.

Lemma roll_loop_only_amounts ul ids : forall r r',
  roll_loop ul ids r = Ok r' -> only_amounts (session r) (session r').
Proof.
  induction ids as [|i rest IH]; simpl; intros r r' H0.
  - returned. apply only_amounts_refl.
  - destruct (Decimal.eqb _ _); [returned; apply only_amounts_refl |].
    returned.
    eapply only_amounts_trans;
      [eapply roll_step_only_amounts | eapply IH]; eassumption.
Qed.

Lemma doWashSale_only_amounts s k s' :
  doWashSale s k = Ok s' -> only_amounts s s'.
Proof.
  unfold doWashSale. intros H0. returned; try apply only_amounts_refl.
  destruct (dtclose _) as [dtc|]; [| returned; apply only_amounts_refl].
  returned; try apply only_amounts_refl.
  destruct x2 as [r|]; [| returned; apply only_amounts_refl].
  returned.
  match goal with
  | Hr : doWashSale_roll _ _ _ _ _ = Ok _ |- _ =>
      unfold doWashSale_roll in Hr; returned
  end;
    try match goal with Hn : None = Some _ |- _ => discriminate Hn end.
  - match goal with
    | Hp : add_lot _ _ = (_, _) |- _ =>
        unfold add_lot in Hp; injection Hp as <- <-
    end.
    eapply only_amounts_trans;
      [| eapply roll_loop_only_amounts; eassumption].
    simpl.
    eapply only_amounts_trans;
      [| eapply split_loss_gains_only_amounts; eassumption].
    amounts_only.
  - eapply only_amounts_trans;
      [| eapply roll_loop_only_amounts; eassumption].
    simpl. amounts_only.
Qed.

Lemma doWashSale_each_only_amounts ks : forall s s',
  doWashSale_each ks s = Ok s' -> only_amounts s s'.
Proof.
  induction ks as [|k rest IH]; simpl; intros s s' H0; returned.
  - apply only_amounts_refl.
  - eapply only_amounts_trans;
      [eapply doWashSale_only_amounts | eapply IH]; eassumption.
Qed.

(** X12.  [Gain.doWashSales] rewrites amounts and nothing else: after it
    has returned, every lot that was there is there under its key, with its
    account, security, [dtopen], [opener], [dtstart], [starter],
    [predecessor], [dtclose], [closer], [dtend] and [ender] (its units, cost
    and washcost may differ); every gain that was there is there under its
    key, on its lot and with its transaction (its proceeds and washloss may
    differ); the event log, the transactions, the accounts and the
    securities are as they were. *)
Theorem doWashSales_only_amounts s from to s' :
  doWashSales s from to = Ok s' ->
  (forall k l, lots s !! k = Some l ->
     exists l', lots s' !! k = Some l'
                /\ account l' = account l /\ security l' = security l
                /\ dtopen l' = dtopen l /\ opener l' = opener l
                /\ dtstart l' = dtstart l /\ starter l' = starter l
                /\ predecessor l' = predecessor l
                /\ dtclose l' = dtclose l /\ closer l' = closer l
                /\ dtend l' = dtend l /\ ender l' = ender l)
  /\ (forall k g, gains s !! k = Some g ->
        exists g', gains s' !! k = Some g'
                   /\ lot g' = lot g /\ transaction g' = transaction g)
  /\ ofxlog s' = ofxlog s /\ invtrans s' = invtrans s
  /\ accounts s' = accounts s /\ secinfos s' = secinfos s.
Proof.
  unfold doWashSales. intros H0.
  apply doWashSale_each_only_amounts in H0 as (L & G & Rest).
  split; [| split; [exact G | exact Rest]].
  intros k l Hl.
  destruct (L k l Hl) as (l' & Hl' & (A & S & D & O & Ds & St & P) & C).
  exists l'. split; [exact Hl' |].
  split; [exact A |]. split; [exact S |]. split; [exact D |].
  split; [exact O |]. split; [exact Ds |]. split; [exact St |].
  split; [exact P | exact C].
Qed.

(** The wash sale of [testWashSale1]. *)
Lemma doWashSales_only_amounts_witness :
  let s := returned_or (ledger testWashSale1)
             (trades testWashSale1 (ledger testWashSale1)) in
  let s' := returned_or s (doWashSales s None None) in
  doWashSales s None None = Ok s'
  /\ ofxlog s' = ofxlog s /\ invtrans s' = invtrans s.
Proof.
  intros s s'.
  assert (E : doWashSales s None None = Ok s') by (vm_compute; reflexivity).
  split; [exact E |].
  destruct (doWashSales_only_amounts s None None s' E) as (_ & _ & O & I & _).
  split; [exact O | exact I].
Defined.

(** ** The consolidated file of lots *)

Lemma same_position_refl k : same_position k k = true.
Proof. unfold same_position, same_account, same_security.
       now rewrite !Nat.eqb_refl. Qed.

Lemma same_position_eq a b :
  same_position a b = true <->
  INVACCTFROM.id (fst a) = INVACCTFROM.id (fst b)
  /\ SECINFO.id (snd a) = SECINFO.id (snd b).
Proof.
  unfold same_position, same_account, same_security.
  rewrite andb_true_iff, !Nat.eqb_eq. reflexivity.
Qed.

Lemma same_position_trans_l a b c :
  same_position a b = true -> same_position a c = same_position b c.
Proof.
  intros H. apply same_position_eq in H as [H1 H2].
  unfold same_position, same_account, same_security. now rewrite H1, H2.
Qed.

Lemma same_position_sym a b : same_position a b = same_position b a.
Proof.
  unfold same_position, same_account, same_security.
  now rewrite (Nat.eqb_sym (INVACCTFROM.id (fst a))),
              (Nat.eqb_sym (SECINFO.id (snd a))).
Qed.

Lemma position_of_append_to k key v p :
  position_of k (append_to key v p)
  = position_of k p ++ (if same_position key k then [v] else []).
Proof.
  induction p as [|[k0 vs] rest IH]; simpl; [reflexivity |].
  destruct (same_position k0 key) eqn:E; simpl.
  - rewrite <- (same_position_trans_l k0 key k E).
    destruct (same_position k0 k); [reflexivity | now rewrite app_nil_r].
  - destruct (same_position k0 k) eqn:E'; [| exact IH].
    rewrite (same_position_sym key k),
            <- (same_position_trans_l k0 k key E'), E, app_nil_r.
    reflexivity.
Qed.

Lemma position_of_fold k ls : forall p,
  position_of k
    (fold_left (fun p l => append_to (account l, security l)
                                     (units l, cost l) p) ls p)
  = position_of k p
    ++ map (fun l => (units l, cost l))
           (List.filter (fun l => same_position (account l, security l) k) ls).
Proof.
  induction ls as [|l rest IH]; intros p; simpl; [now rewrite app_nil_r |].
  rewrite IH, position_of_append_to.
  destruct (same_position _ k); simpl; [now rewrite <- app_assoc |].
  now rewrite app_nil_r.
Qed.

Lemma elem_of_append_to e key v p :
  e ∈ append_to key v p -> fst e = key \/ exists e0, e0 ∈ p /\ fst e = fst e0.
Proof.
  induction p as [|[k0 vs] rest IH]; simpl; intros He.
  - apply list_elem_of_singleton in He as ->. now left.
  - destruct (same_position k0 key).
    + apply elem_of_cons in He as [-> | He]; right.
      * exists (k0, vs). split; [left | reflexivity].
      * exists e. split; [now right | reflexivity].
    + apply elem_of_cons in He as [-> | He].
      * right. exists (k0, vs). split; [left | reflexivity].
      * destruct (IH He) as [-> | (e0 & He0 & E)]; [now left |].
        right. exists e0. split; [now right | exact E].
Qed.

Lemma distinct_keys_append_to key v p :
  distinct_keys p -> distinct_keys (append_to key v p).
Proof.
  induction p as [|[k0 vs] rest IH]; simpl; intros D.
  - split; [intros e He; now apply elem_of_nil in He | exact I].
  - destruct D as [D1 D2]. destruct (same_position k0 key) eqn:E; simpl.
    + split; assumption.
    + split; [| now apply IH].
      intros e He. apply elem_of_append_to in He as [-> | (e0 & He0 & ->)];
        [exact E | now apply D1].
Qed.

Lemma distinct_keys_fold ls : forall p,
  distinct_keys p ->
  distinct_keys
    (fold_left (fun p l => append_to (account l, security l)
                                     (units l, cost l) p) ls p).
Proof.
  induction ls as [|l rest IH]; intros p D; simpl; [exact D |].
  apply IH. now apply distinct_keys_append_to.
Qed.

Lemma position_of_item e p :
  distinct_keys p -> e ∈ p -> position_of (fst e) p = snd e.
Proof.
  induction p as [|[k0 vs] rest IH]; simpl; intros D He.
  - now apply elem_of_nil in He.
  - destruct D as [D1 D2]. apply elem_of_cons in He as [-> | He]; simpl.
    + now rewrite same_position_refl.
    + rewrite (D1 e He). now apply IH.
Qed.

Lemma position_of_used k p :
  position_of k p <> [] -> exists e, e ∈ p /\ same_position (fst e) k = true.
Proof.
  induction p as [|[k0 vs] rest IH]; simpl; intros N; [congruence |].
  destruct (same_position k0 k) eqn:E.
  - exists (k0, vs). split; [left | exact E].
  - destruct (IH N) as (e & He & Hk). exists e. split; [now right | exact Hk].
Qed.

(** Rows in order, each once, are determined by what they are. *)
Lemma sorted_unique {A : Type} (R : A -> A -> Prop) (l1 : list A) :
  (forall x y, R x y -> R y x -> False) ->
  forall l2,
    StronglySorted R l1 -> StronglySorted R l2 ->
    (forall x, x ∈ l1 <-> x ∈ l2) -> l1 = l2.
Proof.
  intros Asym. induction l1 as [|a r1 IH]; intros l2 S1 S2 E.
  - destruct l2 as [|b r2]; [reflexivity |].
    exfalso. eapply not_elem_of_nil, E. left.
  - destruct l2 as [|b r2].
    { exfalso. eapply not_elem_of_nil, E. left. }
    apply StronglySorted_inv in S1 as [S1 F1].
    apply StronglySorted_inv in S2 as [S2 F2].
    rewrite Forall_forall in F1, F2.
    assert (a = b) as ->.
    { assert (Ha : a ∈ b :: r2) by (apply E; left).
      assert (Hb : b ∈ a :: r1) by (apply E; left).
      apply elem_of_cons in Ha as [Ha | Ha]; [exact Ha |].
      apply elem_of_cons in Hb as [Hb | Hb]; [now symmetry |].
      exfalso. eapply Asym; [apply F1, Hb | apply F2, Ha]. }
    f_equal. apply IH; [exact S1 | exact S2 |].
    intros x. split; intros Hx.
    + assert (Hx' : x ∈ b :: r2) by (apply E; now right).
      apply elem_of_cons in Hx' as [-> | Hx']; [| exact Hx'].
      exfalso. eapply Asym; apply F1, Hx.
    + assert (Hx' : x ∈ b :: r1) by (apply E; now right).
      apply elem_of_cons in Hx' as [-> | Hx']; [| exact Hx'].
      exfalso. eapply Asym; apply F2, Hx.
Qed.

Lemma ordered_before_asym key i j :
  ordered_before key i j -> ordered_before key j i -> False.
Proof. unfold ordered_before. lia. Qed.

(** A query with one more filter returns the rows of the query that pass
    the filter, in the order of the query. *)
Lemma fetch_filter (q r : Query) s :
  fetch s (fun i l => q i l && r i l)
  = List.filter (fun i => match lots s !! i with
                          | Some l => r i l
                          | None => false
                          end) (fetch s q).
Proof.
  apply (sorted_unique (ordered_before (lot_dtopen_key s))).
  - intros x y. apply ordered_before_asym.
  - apply fetch_sorted.
  - apply StronglySorted_filter, fetch_sorted.
  - intros i. rewrite elem_of_fetch, list_elem_of_In, filter_In,
      <- list_elem_of_In, elem_of_fetch.
    split.
    + intros (l & Hl & Hq). apply andb_prop in Hq as [Hq Hr].
      rewrite Hl. split; [eauto | exact Hr].
    + intros [(l & Hl & Hq) Hr]. rewrite Hl in Hr.
      exists l. split; [exact Hl |]. now rewrite Hq, Hr.
Qed.

Lemma rows_of_filter (r : Lot -> bool) s ids :
  rows_of s (List.filter (fun i => match lots s !! i with
                                   | Some l => r l
                                   | None => false
                                   end) ids)
  = List.filter r (rows_of s ids).
Proof.
  unfold rows_of. induction ids as [|i rest IH]; [reflexivity |].
  cbn [List.filter omap list_omap].
  destruct (lots s !! i) as [l|] eqn:Hl.
  - cbn [List.filter]. destruct (r l) eqn:Hr.
    + cbn [omap list_omap]. rewrite Hl. simpl. f_equal. exact IH.
    + exact IH.
  - exact IH.
Qed.

Lemma units_of_rows s ids : units_of s ids = map units (rows_of s ids).
Proof.
  unfold units_of, rows_of. induction ids as [|i rest IH]; [reflexivity |].
  cbn [omap list_omap]. destruct (lots s !! i); simpl; now rewrite IH.
Qed.

(** The lots of an account and a security among the lots of a date. *)
Lemma rows_of_position s d a x :
  List.filter (fun l => same_position (account l, security l) (a, x))
              (rows_of s (fetch s (asOf d None None)))
  = rows_of s (fetch s (asOf d (Some a) (Some x))).
Proof.
  rewrite <- (rows_of_filter
                (fun l => same_position (account l, security l) (a, x))).
  f_equal.
  rewrite <- (fetch_filter (asOf d None None)
                (fun _ l => same_position (account l, security l) (a, x))).
  unfold fetch, select. f_equal. apply filter_ext. intros i.
  destruct (lots s !! i) as [l|]; [| reflexivity].
  unfold asOf, same_position. simpl.
  now rewrite !andb_true_r, andb_assoc.
Qed.

Lemma keys_of_fold e ls : forall p,
  e ∈ fold_left (fun p l => append_to (account l, security l)
                                       (units l, cost l) p) ls p ->
  (exists e0, e0 ∈ p /\ fst e = fst e0)
  \/ exists l, l ∈ ls /\ fst e = (account l, security l).
Proof.
  induction ls as [|l rest IH]; intros p He; simpl in He.
  - left. exists e. split; [exact He | reflexivity].
  - apply IH in He as [(e0 & He0 & E) | (l' & Hl' & E)].
    + apply elem_of_append_to in He0 as [K | (e1 & He1 & K)].
      * right. exists l. split; [left | congruence].
      * left. exists e1. split; [exact He1 | congruence].
    + right. exists l'. split; [now right | exact E].
Qed.

Lemma fetch_same_query (q q' : Query) s :
  (forall i l, q i l = q' i l) -> fetch s q = fetch s q'.
Proof.
  intros E. unfold fetch, select. f_equal. apply filter_ext. intros i.
  destruct (lots s !! i); [apply E | reflexivity].
Qed.

Lemma elem_of_rows_of s ids l :
  l ∈ rows_of s ids <-> exists i, i ∈ ids /\ lots s !! i = Some l.
Proof. unfold rows_of. apply list_elem_of_omap. Qed.

(** X13.  The consolidated file of lots has one row for each account and
    security that a lot current as of [dtasof] has, and no other row; the
    units and the cost of the row are the sums of the units and of the costs
    of the lots that [Lot.asOf] returns for the date, the account and the
    security, in the order of that query. *)
Theorem dumpCsv_consolidated_totals s dtasof :
  let d := default datetime_max dtasof in
  let items := consolidate (rows_of s (fetch s (asOf d None None))) in
  dumpCsv_consolidated s dtasof = map secposition items
  /\ distinct_keys items
  /\ (forall a x vs, ((a, x), vs) ∈ items ->
        (exists i l, i ∈ fetch s (asOf d None None) /\ lots s !! i = Some l
                     /\ a = account l /\ x = security l)
        /\ pos_units (secposition ((a, x), vs))
           = Decimal.sum (units_of s (fetch s (asOf d (Some a) (Some x))))
        /\ pos_cost (secposition ((a, x), vs))
           = Decimal.sum
               (map cost (rows_of s (fetch s (asOf d (Some a) (Some x))))))
  /\ (forall i l, i ∈ fetch s (asOf d None None) -> lots s !! i = Some l ->
        exists a x vs,
          ((a, x), vs) ∈ items
          /\ INVACCTFROM.id a = INVACCTFROM.id (account l)
          /\ SECINFO.id x = SECINFO.id (security l)).
Proof.
  intros d items.
  assert (D : distinct_keys items) by (now apply distinct_keys_fold).
  assert (P : forall k,
            position_of k items
            = map (fun l => (units l, cost l))
                  (List.filter
                     (fun l => same_position (account l, security l) k)
                     (rows_of s (fetch s (asOf d None None)))))
    by (intros k; apply (position_of_fold k _ [])).
  split; [reflexivity |]. split; [exact D |]. split.
  - intros a x vs He.
    pose proof (position_of_item _ _ D He) as V. simpl in V.
    rewrite P, rows_of_position in V.
    split.
    + apply keys_of_fold in He as [(e0 & He0 & _) | (l & Hl & E)];
        [now apply elem_of_nil in He0 |].
      apply elem_of_rows_of in Hl as (i & Hi & Hl).
      simpl in E. injection E as -> ->.
      exists i, l. split; [exact Hi |]. split; [exact Hl |].
      split; reflexivity.
    + simpl. rewrite <- V, !map_map. simpl.
      split; [now rewrite units_of_rows | reflexivity].
  - intros i l Hi Hl.
    destruct (position_of_used (account l, security l) items)
      as ([[a x] vs] & He & Hk).
    + rewrite P. intros N.
      assert (Hin : l ∈ List.filter
                (fun l0 => same_position (account l0, security l0)
                                         (account l, security l))
                (rows_of s (fetch s (asOf d None None)))).
      { apply list_elem_of_In, filter_In. split.
        - apply list_elem_of_In, elem_of_rows_of. eauto.
        - apply same_position_refl. }
      destruct (List.filter _ _); [now apply elem_of_nil in Hin |].
      discriminate N.
    + apply same_position_eq in Hk as [K1 K2]. eauto 7.
Qed.

(** ** The lot a trade creates *)

(** X14.  The lot that a buy or a sell creates, if it creates one, is the
    last of the table and is open, with no washcost and no predecessor.
    Either it is opened and started by the trade, on its date, in its
    account and security, at cost [-total]; or it is what stays open of a
    lot of [openLots] that the trade closed in part, and has the account,
    the security, the [dtopen], the [opener], the [dtstart] and the
    [starter] of that lot. *)
Theorem trade_new_lot s inv tunits total s' k l' :
  INVTRAN.sub inv = INVTRAN.INVBUYSELL tunits total ->
  logged s inv = false ->
  trade s inv = Ok s' ->
  lots s !! k = None -> lots s' !! k = Some l' ->
  k = length (lots s)
  /\ dtclose l' = None /\ dtend l' = None
  /\ predecessor l' = None /\ washcost l' = Decimal.zero
  /\ ((account l' = INVTRAN.acctfrom inv /\ security l' = INVTRAN.secinfo inv
       /\ dtopen l' = INVTRAN.dttrade inv /\ opener l' = Some inv
       /\ dtstart l' = INVTRAN.dttrade inv /\ starter l' = Some inv
       /\ cost l' = Decimal.neg total)
      \/ exists i l,
           i ∈ fetch s (openLots inv tunits) /\ lots s !! i = Some l
           /\ account l' = account l /\ security l' = security l
           /\ dtopen l' = dtopen l /\ opener l' = opener l
           /\ dtstart l' = dtstart l /\ starter l' = starter l).
Proof.
  intros Hsub Hlog T Hk Hl'.
  apply lookup_ge_None in Hk. apply lookup_lt_Some in Hl' as Hk'.
  unfold trade in T. rewrite Hsub, (get_or_create_new _ _ Hlog) in T.
  simpl in T. fold (openLots inv tunits) in T.
  set (s1 := set_ofxlog (ofxlog s ++ [INVTRAN.id inv]) s) in *.
  destruct (Decimal.is_zero tunits) eqn:Zt.
  - exfalso. unfold fetch in T. rewrite select_empty in T.
    + simpl in T. rewrite nonzero_is_zero, Zt in T. simpl in T.
      injection T as <-. simpl in Hk'. lia.
    + intros i l _. unfold openLots. rewrite (opposite_zero _ _ Zt).
      apply andb_false_r.
  - destruct (trade_loop_spec inv tunits total
                (fetch s1 (openLots inv tunits)) s1 tunits) as
      (n & s2 & u' & gs & R & _ & _ & _ & _ & _ & _ & _ & _ & Hlen);
      [apply NoDup_fetch | | exact Zt |].
    { intros i Hi. apply elem_of_fetch in Hi as (l & Hl & Hq).
      exists l. split; [exact Hl |].
      apply andb_prop in Hq as [_ Ho]. now apply opposite_nonzero in Ho. }
    rewrite R in T. simpl in T.
    destruct (Decimal.nonzero u') eqn:Nu; injection T as <-.
    + assert (Len : length (lots s2) = length (lots s)).
      { destruct Hlen as [E | (_ & Z & _)]; [exact E |].
        rewrite nonzero_is_zero, Z in Nu. discriminate Nu. }
      simpl in Hk', Hl'. rewrite length_app, Len in Hk'. simpl in Hk'.
      assert (k = length (lots s)) as -> by lia.
      rewrite lookup_app_r, Len, Nat.sub_diag in Hl' by lia.
      injection Hl' as <-.
      split; [reflexivity |]. do 4 (split; [reflexivity |]).
      left. repeat split.
    + destruct Hlen as [E | (E & _ & i & l & uo & co & Hi & Hl & Hnew)].
      * exfalso. change (length (lots s1)) with (length (lots s)) in E. lia.
      * change (length (lots s1)) with (length (lots s)) in E, Hnew.
        assert (k = length (lots s)) as -> by lia.
        rewrite Hnew in Hl'. injection Hl' as <-.
        split; [reflexivity |]. do 4 (split; [reflexivity |]).
        right. exists i, l. split; [exact Hi |]. split; [exact Hl |].
        repeat split.
Qed.

(** The 100 units that stay open in [testTrade]. *)
Lemma trade_new_lot_witness :
  let sale := buysell 2 (date 2005 12 1) (dec (-200) 0) (dec 239001 2) in
  let s' := returned_or bought (trade bought sale) in
  exists l',
    trade bought sale = Ok s' /\ lots s' !! 1%nat = Some l'
    /\ dtclose l' = None /\ predecessor l' = None.
Proof.
  intros sale s'.
  assert (T : trade bought sale = Ok s') by (vm_compute; reflexivity).
  assert (E : exists l', lots s' !! 1%nat = Some l').
  { eexists. vm_compute. reflexivity. }
  destruct E as [l' Hl']. exists l'.
  split; [exact T |]. split; [exact Hl' |].
  destruct (trade_new_lot bought sale _ _ s' 1%nat l' eq_refl)
    as (_ & C & _ & P & _); try assumption; try (vm_compute; reflexivity).
  split; [exact C | exact P].
Defined.

(** ** Income that is a return of capital *)

Lemma filter_none {A : Type} (f : A -> bool) (l : list A) :
  (forall x, x ∈ l -> f x = false) -> List.filter f l = [].
Proof.
  induction l as [|x r IH]; intros Hf; simpl; [reflexivity |].
  rewrite (Hf x) by left. apply IH. intros y Hy. apply Hf. now right.
Qed.

Lemma sorted_invtrans_nil l : fold_right insert_invtran [] l = [] -> l = [].
Proof.
  intros E. apply Permutation_nil_r. rewrite <- E.
  symmetry. apply sorted_invtrans_Permutation.
Qed.

(** X15.  An income of broker 4705 that is not in the log and whose memo
    says it is a return of capital: when a transaction of the table
    reverses it, [IBKR.doIncome] changes no lot and makes no gain, and puts
    the income and one such transaction in the event log; when none does,
    it is [Lot.returnOfCapital] on the income, with the income in the log
    and the check of the log disabled. *)
Theorem doIncome_reversed `{MemoMatching} s inv total m :
  INVTRAN.sub inv = INVTRAN.INCOME total ->
  logged s inv = false ->
  mentions_return_of_capital (INVTRAN.memo inv) = true ->
  retofcapMemoRE (INVTRAN.memo inv) = Some m ->
  ((exists t, t ∈ invtrans s /\ reverses inv total m t = true) ->
   exists s' r,
     doIncome s inv = Ok s'
     /\ lots s' = lots s /\ gains s' = gains s
     /\ r ∈ invtrans s /\ reverses inv total m r = true
     /\ logged s' inv = true /\ logged s' r = true)
  /\ ((forall t, t ∈ invtrans s -> reverses inv total m t = false) ->
      doIncome s inv
      = returnOfCapital (set_ofxlog (ofxlog s ++ [INVTRAN.id inv]) s) inv false).
Proof.
  intros Hsub Hlog Hm Hre.
  set (s1 := set_ofxlog (ofxlog s ++ [INVTRAN.id inv]) s).
  assert (L1 : logged s1 inv = true).
  { unfold logged, s1. simpl. rewrite existsb_app. simpl.
    now rewrite Nat.eqb_refl, orb_true_r. }
  assert (D : doIncome s inv
              = match fold_right insert_invtran []
                        (List.filter (reverses inv total m) (invtrans s)) with
                | r :: _ => Ok (snd (get_or_create s1 r))
                | [] => returnOfCapital s1 inv false
                end).
  { unfold doIncome. rewrite Hsub, (get_or_create_new _ _ Hlog). simpl.
    rewrite Hm, Hre. reflexivity. }
  split.
  - intros (t & Ht & Hr).
    destruct (fold_right insert_invtran [] _) as [|r rest] eqn:E.
    + apply sorted_invtrans_nil in E.
      assert (Hin : t ∈ List.filter (reverses inv total m) (invtrans s))
        by (apply list_elem_of_In, filter_In; split;
            [now apply list_elem_of_In | exact Hr]).
      rewrite E in Hin. now apply elem_of_nil in Hin.
    + assert (Hin : r ∈ List.filter (reverses inv total m) (invtrans s)).
      { rewrite <- (sorted_invtrans_Permutation
                      (List.filter (reverses inv total m) (invtrans s))), E.
        left. }
      apply list_elem_of_In, filter_In in Hin as [Hin Hrr].
      destruct (get_or_create s1 r) as [c s2] eqn:G.
      pose proof (get_or_create_lots _ _ _ _ G) as [Ls Gs].
      apply get_or_create_grows in G as ([Gl _] & Lr & _).
      exists s2, r. split; [exact D |].
      split; [exact Ls |]. split; [exact Gs |].
      split; [now apply list_elem_of_In |]. split; [exact Hrr |].
      split; [now apply Gl | exact Lr].
  - intros Hnone. rewrite D, (filter_none _ _ Hnone). reflexivity.
Qed.

(** The income [income_roc] on the ledger [bought], where no transaction
    reverses it. *)
Lemma doIncome_reversed_witness :
  @doIncome roc_memos bought income_roc
  = returnOfCapital
      (set_ofxlog (ofxlog bought ++ [INVTRAN.id income_roc]) bought)
      income_roc false.
Proof.
  apply (@doIncome_reversed roc_memos bought income_roc (dec 1000 0)
           "ACME CASH DIVIDEND" eq_refl).
  - vm_compute. reflexivity.
  - vm_compute. reflexivity.
  - vm_compute. reflexivity.
  - intros t Ht. vm_compute in Ht. now apply elem_of_nil in Ht.
Defined.

(** ** The order of the transactions *)

Lemma invtran_leb_spec t u :
  (invtran_leb t u = true <-> not_after t u)
  /\ (invtran_leb t u = false -> not_after u t).
Proof.
  unfold invtran_leb, not_after.
  destruct (Z.ltb_spec (to_us (INVTRAN.dttrade t)) (to_us (INVTRAN.dttrade u)));
    destruct (Z.eqb_spec (to_us (INVTRAN.dttrade t))
                         (to_us (INVTRAN.dttrade u)));
    destruct (Nat.leb_spec (INVTRAN.id t) (INVTRAN.id u)); simpl;
    split; try split; try intros; try lia; try discriminate.
Qed.

Lemma not_after_trans t u v : not_after t u -> not_after u v -> not_after t v.
Proof. unfold not_after. lia. Qed.

Lemma insert_invtran_sorted t l :
  StronglySorted not_after l -> StronglySorted not_after (insert_invtran t l).
Proof.
  induction 1 as [|u r Hr IH Hu]; simpl; [repeat constructor |].
  destruct (invtran_leb t u) eqn:E.
  - apply invtran_leb_spec in E.
    constructor; [now constructor |].
    constructor; [exact E |].
    eapply Forall_impl; [exact Hu |].
    intros x Hx. eapply not_after_trans; eassumption.
  - apply invtran_leb_spec in E.
    constructor; [exact IH |].
    rewrite insert_invtran_Permutation. constructor; assumption.
Qed.

Lemma sorted_invtrans_sorted l :
  StronglySorted not_after (fold_right insert_invtran [] l).
Proof.
  induction l as [|t r IH]; simpl; [constructor |].
  now apply insert_invtran_sorted.
Qed.

(** X16.  [Lot.doInvtrans] hands to [Lot.doInvtran], one after the other,
    the transactions whose [dttrade] is in the window, bounds included, each
    as many times as the table has it, in the order of [dttrade] and, for
    the same [dttrade], of [id]. *)
Theorem doInvtrans_order `{MemoMatching} s from to :
  let a := default datetime_min from in
  let b := default datetime_max to in
  exists ts,
    doInvtrans s from to = doInvtran_each ts s
    /\ ts ≡ₚ List.filter
               (fun t => (to_us a <=? to_us (INVTRAN.dttrade t))
                         && (to_us (INVTRAN.dttrade t) <=? to_us b))
               (invtrans s)
    /\ (forall t, t ∈ ts <->
                  t ∈ invtrans s
                  /\ to_us a <= to_us (INVTRAN.dttrade t) <= to_us b)
    /\ forall m n t u,
         (m < n)%nat -> ts !! m = Some t -> ts !! n = Some u ->
         to_us (INVTRAN.dttrade t) < to_us (INVTRAN.dttrade u)
         \/ (to_us (INVTRAN.dttrade t) = to_us (INVTRAN.dttrade u)
             /\ (INVTRAN.id t <= INVTRAN.id u)%nat).
Proof.
  intros a b. exists (invtrans_in s a b).
  split; [reflexivity |].
  split; [apply sorted_invtrans_Permutation |].
  split.
  - intros t. rewrite elem_of_invtrans_in. unfold in_window, dt_leb.
    rewrite andb_true_iff, !Z.leb_le. tauto.
  - intros m n t u Hmn Hm Hn.
    apply (StronglySorted_lookup not_after _
             (sorted_invtrans_sorted _) m n t u Hmn Hm Hn).
Qed.

(** ** The whole calculation *)

(** X17.  [calc] never removes a lot or a gain and never rewrites where
    they come from: after it has returned, every lot that was there is there
    under its key with its account, security, [dtopen], [opener],
    [dtstart], [starter] and [predecessor], every gain that was there is
    there under its key, on its lot and with its transaction, and the
    transactions, the accounts and the securities are as they were. *)
Theorem calc_keeps `{MemoMatching} s from to s' :
  calc s from to = Ok s' ->
  (forall k l, lots s !! k = Some l ->
     exists l', lots s' !! k = Some l'
                /\ account l' = account l /\ security l' = security l
                /\ dtopen l' = dtopen l /\ opener l' = opener l
                /\ dtstart l' = dtstart l /\ starter l' = starter l
                /\ predecessor l' = predecessor l)
  /\ (forall k g, gains s !! k = Some g ->
        exists g', gains s' !! k = Some g'
                   /\ lot g' = lot g /\ transaction g' = transaction g)
  /\ invtrans s' = invtrans s
  /\ accounts s' = accounts s /\ secinfos s' = secinfos s.
Proof.
  unfold calc, doInvtrans, doWashSales. intros H0. returned.
  match goal with
  | H1 : doInvtran_each _ s = Ok ?s1, H2 : doWashSale_each _ ?s1 = Ok s' |- _ =>
      apply doInvtran_each_append_only in H1 as (L1 & [gs G1] & I1 & A1 & S1);
      apply doWashSale_each_only_amounts in H2
        as (L2 & G2 & _ & I2 & A2 & S2)
  end.
  split; [| split; [| repeat split; congruence]].
  - intros k l Hl.
    destruct (L1 k l Hl) as (l1 & Hl1 & O1).
    destruct (L2 k l1 Hl1) as (l2 & Hl2 & O2 & _).
    exists l2. split; [exact Hl2 |].
    exact (same_origin_trans _ _ _ O1 O2).
  - intros k g Hg. apply G2. rewrite G1.
    rewrite lookup_app_l; [exact Hg | eapply lookup_lt_Some, Hg].
Qed.

(** [calc] on [testWashSale1]. *)
Lemma calc_keeps_witness :
  let s := ledger testWashSale1 in
  let s' := returned_or s (@calc memos s None None) in
  @calc memos s None None = Ok s' /\ invtrans s' = invtrans s.
Proof.
  intros s s'.
  assert (E : @calc memos s None None = Ok s') by (vm_compute; reflexivity).
  split; [exact E |].
  destruct (@calc_keeps memos s None None s' E) as (_ & _ & I & _).
  exact I.
Defined.
